(** * Span-extraction question answering: feature building, decoding, scoring

    A shallow embedding of
    [nlp_architect/models/transformers/question_answering.py].

    Conventions of the embedding.
    - Python [int] is [Z]; list positions produced by [enumerate] are [nat].
    - Python [dict] is stdpp's [gmap]; [list] is [list]; [str] is [string].
    - A Python exception (KeyError, IndexError, AssertionError,
      AttributeError, ZeroDivisionError) is [None] in an [option] result.
    - A [while] loop that the source does not bound is run with fuel;
      [None] then also stands for "did not finish within the fuel".
    - Logits, max-context scores and the totals of the threshold search are
      Python floats.  The decoder, the max-context resolver and the
      threshold search only combine and compare them, so they are kept
      abstract (section variables); [compute_f1] computes one ratio of
      token counts, which is modelled as an exact rational [Q]. *)

From Stdlib Require Import ZArith QArith Qfield Lia List Bool Ascii String Sorted Permutation.
From stdpp Require Import base option list gmap gmultiset strings.

Local Open Scope Z_scope.

(* ===================================================================== *)
(** * Part I: the program *)
(* ===================================================================== *)

(** ** Python string operations

    A character is a code point below 256; the predicates follow Python's
    [str.isspace], [string.punctuation], [str.lower] and the regular
    expression class [\w] (under [re.UNICODE]) on that range. *)

Definition code (c : ascii) : N := N_of_ascii c.

Definition in_range (lo hi : N) (c : ascii) : bool :=
  ((lo <=? code c) && (code c <=? hi))%N.

(** [c.isspace()] *)
Definition is_space (c : ascii) : bool :=
  in_range 9 13 c || in_range 28 32 c || in_range 133 133 c || in_range 160 160 c.

(** [ch in set(string.punctuation)] *)
Definition is_punctuation (c : ascii) : bool :=
  in_range 33 47 c || in_range 58 64 c || in_range 91 96 c || in_range 123 126 c.

(** [\w]: alphanumeric or underscore *)
Definition is_word (c : ascii) : bool :=
  in_range 48 57 c || in_range 65 90 c || in_range 97 122 c || in_range 95 95 c
  || in_range 170 170 c || in_range 178 179 c || in_range 181 181 c
  || in_range 185 186 c || in_range 188 190 c
  || in_range 192 214 c || in_range 216 246 c || in_range 248 255 c.

(** [c.lower()] *)
Definition lower_char (c : ascii) : ascii :=
  if in_range 65 90 c || in_range 192 214 c || in_range 216 222 c
  then ascii_of_N (code c + 32) else c.

(** [text.lower()] *)
Fixpoint lower (text : string) : string :=
  match text with
  | EmptyString => EmptyString
  | String c rest => String (lower_char c) (lower rest)
  end.

(** [sep.join(parts)] *)
Definition join (sep : string) (parts : list string) : string :=
  String.concat sep parts.

(** [text.split()]: maximal runs of non-whitespace characters.  [cur] is
    the run being read, kept reversed. *)
Fixpoint split_loop (cur : list ascii) (text : string) : list string :=
  let flush :=
    match cur with
    | [] => []
    | _ => [string_of_list_ascii (rev cur)]
    end in
  match text with
  | EmptyString => flush
  | String c rest =>
      if is_space c then flush ++ split_loop [] rest
      else split_loop (c :: cur) rest
  end.

Definition split (text : string) : list string := split_loop [] text.

(** [text.strip()] *)
Fixpoint lstrip (text : string) : string :=
  match text with
  | EmptyString => EmptyString
  | String c rest => if is_space c then lstrip rest else text
  end.

Definition string_rev (text : string) : string :=
  string_of_list_ascii (rev (list_ascii_of_string text)).

Definition strip (text : string) : string :=
  string_rev (lstrip (string_rev (lstrip text))).

(** Drop the first [k] characters. *)
Fixpoint string_drop (k : nat) (text : string) : string :=
  match k, text with
  | O, _ => text
  | S k', EmptyString => EmptyString
  | S k', String _ rest => string_drop k' rest
  end.

(** [text.replace(old, new)] for a non-empty [old]: leftmost
    non-overlapping occurrences.  [skip] counts the characters of an
    occurrence still to be passed over. *)
Fixpoint replace_loop (old new : string) (skip : nat) (text : string) : string :=
  match text with
  | EmptyString => EmptyString
  | String c rest =>
      match skip with
      | S k => replace_loop old new k rest
      | O =>
          if String.prefix old text
          then new +:+ replace_loop old new (String.length old - 1) rest
          else String c (replace_loop old new 0 rest)
      end
  end.

Definition replace (old new text : string) : string := replace_loop old new 0 text.

(** [text.find(sub)]: lowest index of an occurrence, [-1] if there is none. *)
Fixpoint find_from (sub text : string) (i : nat) : option nat :=
  if String.prefix sub text then Some i
  else match text with
       | EmptyString => None
       | String _ rest => find_from sub rest (S i)
       end.

Definition find (text sub : string) : Z :=
  match find_from sub text 0 with
  | Some i => Z.of_nat i
  | None => -1
  end.

(** Python index normalisation for slices: negative bounds count from the
    end, and bounds are clamped to [0, n]. *)
Definition slice_bound (n i : Z) : nat :=
  Z.to_nat (if i <? 0 then Z.max (i + n) 0 else Z.min i n).

(** [l[a:b]] on lists *)
Definition py_slice {A : Type} (l : list A) (a b : Z) : list A :=
  let n := Z.of_nat (List.length l) in
  take (slice_bound n b - slice_bound n a) (drop (slice_bound n a) l).

(** [text[a:b]] on strings *)
Definition str_slice (text : string) (a b : Z) : string :=
  let n := Z.of_nat (String.length text) in
  String.substring (slice_bound n a) (slice_bound n b - slice_bound n a) text.

(** [l[i]]: a negative index counts from the end; out of range raises. *)
Definition py_index {A : Type} (l : list A) (i : Z) : option A :=
  let n := Z.of_nat (List.length l) in
  if 0 <=? i then l !! Z.to_nat i
  else if - n <=? i then l !! Z.to_nat (n + i)
  else None.

(** [len(l)] *)
Definition Zlen {A : Type} (l : list A) : Z := Z.of_nat (List.length l).

(** [range(a, b)] *)
Definition range (a b : Z) : list Z :=
  map (fun i => a + Z.of_nat i) (seq 0 (Z.to_nat (b - a))).

(** [range(a, b, -1)] *)
Definition range_down (a b : Z) : list Z :=
  map (fun i => a - Z.of_nat i) (seq 0 (Z.to_nat (a - b))).

(** [enumerate(l)], with positions counted from [i] *)
Fixpoint enumerate_from {A : Type} (i : nat) (l : list A) : list (nat * A) :=
  match l with
  | [] => []
  | x :: rest => (i, x) :: enumerate_from (S i) rest
  end.

Definition enumerate {A : Type} (l : list A) : list (nat * A) := enumerate_from 0 l.

(** [bool(text)] *)
Definition nonempty (text : string) : bool :=
  match text with
  | EmptyString => false
  | _ => true
  end.

(** Float [>] and [<] on exact rationals. *)
Definition Qgtb (x y : Q) : bool := negb (Qle_bool x y).

Definition Qltb (x y : Q) : bool := Qgtb y x.

(** ** Document spans ([_DocSpan], lines 340-351) *)

Module DocSpan.
Record t : Type := mk { start : Z; length : Z }.
End DocSpan.

(** [max_tokens_for_doc = max_seq_length - len(query_tokens) - 3] *)
Definition max_tokens_for_doc (max_seq_length : Z) (query_tokens : list string) : Z :=
  max_seq_length - Z.of_nat (List.length query_tokens) - 3.

(** The body of [while start_offset < len(all_doc_tokens)]: [n] is
    [len(all_doc_tokens)], [budget] is [max_tokens_for_doc]. *)
Fixpoint doc_spans_loop (fuel : nat) (n budget doc_stride start_offset : Z)
    (doc_spans : list DocSpan.t) : option (list DocSpan.t) :=
  match fuel with
  | O => None
  | S fuel' =>
      if start_offset <? n then
        let length := n - start_offset in
        let length := if length >? budget then budget else length in
        let doc_spans := doc_spans ++ [DocSpan.mk start_offset length] in
        if start_offset + length =? n then Some doc_spans
        else doc_spans_loop fuel' n budget doc_stride
               (start_offset + Z.min length doc_stride) doc_spans
      else Some doc_spans
  end.

Definition make_doc_spans (fuel : nat) (all_doc_tokens query_tokens : list string)
    (max_seq_length doc_stride : Z) : option (list DocSpan.t) :=
  doc_spans_loop fuel (Z.of_nat (List.length all_doc_tokens))
    (max_tokens_for_doc max_seq_length query_tokens) doc_stride 0 [].

(** [position] lies inside the span: neither [continue] of the resolver fires. *)
Definition span_contains (doc_span : DocSpan.t) (position : Z) : bool :=
  negb (position <? DocSpan.start doc_span)
  && negb (position >? DocSpan.start doc_span + DocSpan.length doc_span - 1).

(** Specification predicates for the chunking. *)

Definition span_ok (n budget : Z) (ds : DocSpan.t) : Prop :=
  0 <= DocSpan.start ds /\ 0 < DocSpan.length ds /\
  DocSpan.length ds <= budget /\ DocSpan.start ds + DocSpan.length ds <= n.

Definition covered (spans : list DocSpan.t) (p : Z) : Prop :=
  exists ds, In ds spans /\ span_contains ds p = true.

(** What the chunking loop is expected to deliver for one example. *)
Definition chunking_succeeds (all_doc_tokens query_tokens : list string)
    (max_seq_length doc_stride : Z) : Prop :=
  let n := Z.of_nat (List.length all_doc_tokens) in
  let budget := max_tokens_for_doc max_seq_length query_tokens in
  exists fuel doc_spans,
    (forall fuel', (fuel <= fuel')%nat ->
       make_doc_spans fuel' all_doc_tokens query_tokens max_seq_length doc_stride
       = Some doc_spans) /\
    (forall p, 0 <= p < n -> covered doc_spans p) /\
    (forall ds, In ds doc_spans ->
       DocSpan.length ds <= budget /\ DocSpan.start ds + DocSpan.length ds <= n) /\
    (exists ds, List.last doc_spans ds = ds /\ In ds doc_spans /\
       DocSpan.start ds + DocSpan.length ds = n).

(** ** Max-context resolver ([_check_is_max_context], lines 553-587) *)

Section MaxContext.
Context {F : Type}.
Variable F_of_Z : Z -> F.            (* int operand promoted to float *)
Variable fadd fmul : F -> F -> F.    (* float [+] and [*] *)
Variable f0_01 : F.                  (* the literal [0.01] *)
Variable fgt : F -> F -> bool.       (* float [>] *)

(** [score = min(num_left_context, num_right_context) + 0.01 * doc_span.length] *)
Definition span_score (doc_span : DocSpan.t) (position : Z) : F :=
  let end_ := DocSpan.start doc_span + DocSpan.length doc_span - 1 in
  let num_left_context := position - DocSpan.start doc_span in
  let num_right_context := end_ - position in
  fadd (F_of_Z (Z.min num_left_context num_right_context))
       (fmul f0_01 (F_of_Z (DocSpan.length doc_span))).

(** The [for (span_index, doc_span) in enumerate(doc_spans)] loop; the
    state is the pair [(best_score, best_span_index)]. *)
Fixpoint max_context_loop (span_index : nat) (doc_spans : list DocSpan.t)
    (position : Z) (best : option F * option nat) : option F * option nat :=
  match doc_spans with
  | [] => best
  | doc_span :: rest =>
      let end_ := DocSpan.start doc_span + DocSpan.length doc_span - 1 in
      if position <? DocSpan.start doc_span then
        max_context_loop (S span_index) rest position best
      else if position >? end_ then
        max_context_loop (S span_index) rest position best
      else
        let score := span_score doc_span position in
        let update :=
          match fst best with
          | None => true
          | Some best_score => fgt score best_score
          end in
        max_context_loop (S span_index) rest position
          (if update then (Some score, Some span_index) else best)
  end.

Definition best_span_index (doc_spans : list DocSpan.t) (position : Z) : option nat :=
  snd (max_context_loop 0 doc_spans position (None, None)).

(** [return cur_span_index == best_span_index] *)
Definition _check_is_max_context (doc_spans : list DocSpan.t)
    (cur_span_index : nat) (position : Z) : bool :=
  match best_span_index doc_spans position with
  | None => false
  | Some b => Nat.eqb cur_span_index b
  end.

(** [b] is the first-enumerated span containing [position] whose score no
    other containing span exceeds; [ds_b] is that span. *)
Definition first_best (doc_spans : list DocSpan.t) (position : Z)
    (b : nat) (ds_b : DocSpan.t) : Prop :=
  doc_spans !! b = Some ds_b /\ span_contains ds_b position = true /\
  (forall j ds, doc_spans !! j = Some ds -> span_contains ds position = true ->
     fgt (span_score ds position) (span_score ds_b position) = false) /\
  (forall j ds, (j < b)%nat -> doc_spans !! j = Some ds ->
     span_contains ds position = true ->
     fgt (span_score ds_b position) (span_score ds position) = true).

(** Loop invariant of the resolver over the spans already enumerated. *)
Definition max_context_inv (seen : list DocSpan.t) (position : Z)
    (best : option F * option nat) : Prop :=
  (best = (None, None) /\
   forall j ds, seen !! j = Some ds -> span_contains ds position = false) \/
  (exists b ds_b, best = (Some (span_score ds_b position), Some b) /\
                  first_best seen position b ds_b).
End MaxContext.


(** The resolver on exact rationals, to run it on concrete inputs. *)

Definition check_is_max_context_Q : list DocSpan.t -> nat -> Z -> bool :=
  _check_is_max_context inject_Z Qplus Qmult (1 # 100)%Q Qgtb.

(** ** Scorer ([normalize_answer] ... [get_tokens], lines 1173-1209) *)

(** One alternative of [(a|an|the)] followed by the closing [\b]: the
    alternative is a prefix of [text] and no word character follows it. *)
Definition article_here (alt text : string) : bool :=
  String.prefix alt text &&
  match string_drop (String.length alt) text with
  | EmptyString => true
  | String c _ => negb (is_word c)
  end.

(** Length of the match of [(a|an|the)\b] at the head of [text], the
    alternatives tried in order. *)
Definition article_at (text : string) : option nat :=
  if article_here "a" text then Some 1%nat
  else if article_here "an" text then Some 2%nat
  else if article_here "the" text then Some 3%nat
  else None.

(** [re.sub(r'\b(a|an|the)\b', ' ', text)]: [prev_word] tells whether the
    preceding character is a word character (the opening [\b]), [skip]
    counts the characters of a match still to be passed over. *)
Fixpoint remove_articles_loop (prev_word : bool) (skip : nat) (text : string) : string :=
  match text with
  | EmptyString => EmptyString
  | String c rest =>
      match skip with
      | S k => remove_articles_loop (is_word c) k rest
      | O =>
          match (if prev_word then None else article_at text) with
          | Some len => String " " (remove_articles_loop (is_word c) (len - 1) rest)
          | None => String c (remove_articles_loop (is_word c) 0 rest)
          end
      end
  end.

Definition remove_articles (text : string) : string :=
  remove_articles_loop false 0 text.

Definition white_space_fix (text : string) : string := join " " (split text).

Fixpoint remove_punc (text : string) : string :=
  match text with
  | EmptyString => EmptyString
  | String ch rest =>
      if is_punctuation ch then remove_punc rest else String ch (remove_punc rest)
  end.

Definition normalize_answer (s : string) : string :=
  white_space_fix (remove_articles (remove_punc (lower s))).

Definition compute_exact (a_gold a_pred : string) : Z :=
  if decide (normalize_answer a_gold = normalize_answer a_pred) then 1 else 0.

Definition get_tokens (s : string) : list string :=
  if nonempty s then split (normalize_answer s) else [].

(** *** The normalizer as the specification describes it *)

(** [w] is one of the articles. *)
Definition is_article (w : string) : bool :=
  String.eqb w "a" || String.eqb w "an" || String.eqb w "the".

(** Lowercase every character, strip the punctuation characters, split
    into whitespace-separated words, remove the words [a], [an] and [the],
    and join what is left by single spaces. *)
Definition normalize_by_words (s : string) : string :=
  let chars :=
    filter (fun c => is_punctuation c = false)
      (map lower_char (list_ascii_of_string s)) in
  join " " (filter (fun w => is_article w = false)
              (split (string_of_list_ascii chars))).

(** A text made of letters, digits, underscores, whitespace and
    punctuation marks only: outside punctuation, its words in the sense of
    [\b] are its whitespace-separated words. *)
Definition plain_text (s : string) : Prop :=
  Forall (fun c => is_word c || is_space c || is_punctuation c = true)
    (list_ascii_of_string s).

(** The longest prefix of word characters of a text, and what follows it. *)
Fixpoint word_prefix (text : string) : string :=
  match text with
  | EmptyString => EmptyString
  | String c rest => if is_word c then String c (word_prefix rest) else EmptyString
  end.

Fixpoint word_rest (text : string) : string :=
  match text with
  | EmptyString => EmptyString
  | String c rest => if is_word c then word_rest rest else text
  end.

(** [len(l)] as a float operand *)
Definition Qlen {A : Type} (l : list A) : Q := inject_Z (Z.of_nat (List.length l)).

(** The token-bag part of [compute_f1]; [collections.Counter] is a finite
    multiset and [&] its intersection. *)
Definition f1_of_tokens (gold_toks pred_toks : list string) : Q :=
  let common : gmultiset string :=
    list_to_set_disj gold_toks ∩ list_to_set_disj pred_toks in
  let num_same := size common in
  if (List.length gold_toks =? 0)%nat || (List.length pred_toks =? 0)%nat then
    if decide (gold_toks = pred_toks) then 1 else 0
  else if (num_same =? 0)%nat then 0
  else
    let precision := (1 * inject_Z (Z.of_nat num_same) / Qlen pred_toks)%Q in
    let recall := (1 * inject_Z (Z.of_nat num_same) / Qlen gold_toks)%Q in
    ((2 * precision * recall) / (precision + recall))%Q.

Definition compute_f1 (a_gold a_pred : string) : Q :=
  f1_of_tokens (get_tokens a_gold) (get_tokens a_pred).

(** ** Best-threshold search ([find_best_thresh_v2], lines 992-1020)

    [preds], [scores] and [qid_to_has_ans] are dictionaries keyed by
    question id.  [na_probs] is iterated in order by [sorted], so it is
    kept as the list of its items in insertion order.

    The scores, the null scores and the running totals are Python floats
    (an exact-match score and the counts are ints, used where a float is).
    The function adds, multiplies, divides and compares them; they are
    kept abstract. *)

(** The state of the sweep. *)
Module Sweep.
Record t (F : Type) : Type := mk { cur_score : F; best_score : F; best_thresh : F }.
Arguments mk {F}.
Arguments cur_score {F}.
Arguments best_score {F}.
Arguments best_thresh {F}.
End Sweep.

(** [sum(1 for k in qid_to_has_ans if not qid_to_has_ans[k])] *)
Definition num_no_ans (qid_to_has_ans : gmap string bool) : Z :=
  Zlen (filter (fun kv => snd kv = false) (map_to_list qid_to_has_ans)).

Section BestThreshold.
Context {F : Type}.
Variable F_of_Z : Z -> F.           (* an int used where a float is *)
Variable fadd fmul fdiv : F -> F -> F. (* float [+], [*], [/] *)
Variable flt : F -> F -> bool.      (* float [<]; [a > b] is [b < a] *)

(** [sorted(na_probs, key=lambda k: na_probs[k])]: stable, ascending; each
    question id stays paired with its null score [na_probs[k]]. *)
Fixpoint insert_asc (x : string * F) (l : list (string * F)) : list (string * F) :=
  match l with
  | [] => [x]
  | y :: rest => if flt (snd y) (snd x) then y :: insert_asc x rest else x :: l
  end.

Definition sorted_by_na_prob (na_probs : list (string * F)) : list (string * F) :=
  foldr insert_asc [] na_probs.

(** Lines 1000-1006: [diff] for a question that has a score. *)
Definition question_diff (preds : gmap string string) (qid_to_has_ans : gmap string bool)
    (qid : string) (score : F) : option F :=
  match qid_to_has_ans !! qid with
  | None => None
  | Some true => Some score
  | Some false =>
      pred ← preds !! qid; Some (if nonempty pred then F_of_Z (-1) else F_of_Z 0)
  end.

(** Lines 998-1010: the loop over [qid_list]. *)
Fixpoint sweep (preds : gmap string string) (scores : gmap string F)
    (qid_to_has_ans : gmap string bool) (qid_list : list (string * F))
    (st : Sweep.t F) : option (Sweep.t F) :=
  match qid_list with
  | [] => Some st
  | (qid, na_prob) :: rest =>
      match scores !! qid with
      | None => sweep preds scores qid_to_has_ans rest st
      | Some score =>
          diff ← question_diff preds qid_to_has_ans qid score;
          let cur_score := fadd (Sweep.cur_score st) diff in
          sweep preds scores qid_to_has_ans rest
            (if flt (Sweep.best_score st) cur_score
             then Sweep.mk cur_score cur_score na_prob
             else Sweep.mk cur_score (Sweep.best_score st) (Sweep.best_thresh st))
      end
  end.

(** Lines 1012-1018: the has-answer total and count. *)
Fixpoint has_ans_loop (scores : gmap string F) (qid_to_has_ans : gmap string bool)
    (qid_list : list (string * F)) (has_ans_score : F) (has_ans_cnt : Z)
    : option (F * Z) :=
  match qid_list with
  | [] => Some (has_ans_score, has_ans_cnt)
  | (qid, _) :: rest =>
      match qid_to_has_ans !! qid with
      | None => None
      | Some false =>
          has_ans_loop scores qid_to_has_ans rest has_ans_score has_ans_cnt
      | Some true =>
          let has_ans_cnt := has_ans_cnt + 1 in
          match scores !! qid with
          | None => has_ans_loop scores qid_to_has_ans rest has_ans_score has_ans_cnt
          | Some score =>
              has_ans_loop scores qid_to_has_ans rest (fadd has_ans_score score)
                has_ans_cnt
          end
      end
  end.

Definition find_best_thresh_v2 (preds : gmap string string) (scores : gmap string F)
    (na_probs : list (string * F)) (qid_to_has_ans : gmap string bool)
    : option (F * F * F) :=
  let cur_score := F_of_Z (num_no_ans qid_to_has_ans) in
  let best_score := cur_score in
  let best_thresh := F_of_Z 0 in
  let qid_list := sorted_by_na_prob na_probs in
  st ← sweep preds scores qid_to_has_ans qid_list
         (Sweep.mk cur_score best_score best_thresh);
  '(has_ans_score, has_ans_cnt) ←
    has_ans_loop scores qid_to_has_ans qid_list (F_of_Z 0) 0;
  if (size scores =? 0)%nat then None
  else if has_ans_cnt =? 0 then None
  else Some (fdiv (fmul (F_of_Z 100) (Sweep.best_score st))
                  (F_of_Z (Z.of_nat (size scores))),
             Sweep.best_thresh st,
             fdiv (fmul (F_of_Z 1) has_ans_score) (F_of_Z has_ans_cnt)).

(** *** The sweep as the specification describes it *)

(** The change of the running total at a scored question, with [agree] the
    amount for a question without gold answer for which nothing was
    predicted. *)
Definition total_change (agree : F) (has_ans : bool) (pred : string) (score : F) : F :=
  if has_ans then score else if nonempty pred then F_of_Z (-1) else agree.

(** The running total after each scored question of [qid_list], paired
    with the null score of that question. *)
Fixpoint running_totals (agree : F) (preds : gmap string string)
    (scores : gmap string F) (qid_to_has_ans : gmap string bool)
    (qid_list : list (string * F)) (total : F) : list (F * F) :=
  match qid_list with
  | [] => []
  | (qid, na_prob) :: rest =>
      match scores !! qid with
      | None => running_totals agree preds scores qid_to_has_ans rest total
      | Some score =>
          let total :=
            fadd total (total_change agree (default false (qid_to_has_ans !! qid))
                          (default ""%string (preds !! qid)) score) in
          (na_prob, total) :: running_totals agree preds scores qid_to_has_ans rest total
      end
  end.

(** [best] is the maximum of [initial] and the running totals, and
    [thresh] the null score at the first place where the totals reach it
    ([initial_thresh] when no total exceeds [initial]). *)
Definition first_maximum (initial initial_thresh : F) (totals : list (F * F))
    (best thresh : F) : Prop :=
  (best = initial /\ thresh = initial_thresh /\
   forall j p t, totals !! j = Some (p, t) -> flt initial t = false) \/
  (exists i,
     totals !! i = Some (thresh, best) /\ flt initial best = true /\
     (forall j p t, (j < i)%nat -> totals !! j = Some (p, t) -> flt t best = true) /\
     (forall j p t, totals !! j = Some (p, t) -> flt best t = false)).

(** The statement of the sweep: when [find_best_thresh_v2] returns, the
    questions were swept in ascending order of their null score, the
    returned threshold is the null score at the first maximum of the
    running totals (which start at the number of questions without gold
    answer), and the returned best score is that maximum as a percentage of
    the number of scored questions. *)
Definition sweep_statement (agree : F) (preds : gmap string string)
    (scores : gmap string F) (na_probs : list (string * F))
    (qid_to_has_ans : gmap string bool) : Prop :=
  forall best_pct thresh has_ans_avg,
    find_best_thresh_v2 preds scores na_probs qid_to_has_ans
    = Some (best_pct, thresh, has_ans_avg) ->
    let qid_list := sorted_by_na_prob na_probs in
    let initial := F_of_Z (num_no_ans qid_to_has_ans) in
    Permutation qid_list na_probs /\
    StronglySorted (fun a b => flt (snd b) (snd a) = false) qid_list /\
    exists best,
      first_maximum initial (F_of_Z 0)
        (running_totals agree preds scores qid_to_has_ans qid_list initial)
        best thresh /\
      best_pct = fdiv (fmul (F_of_Z 100) best) (F_of_Z (Z.of_nat (size scores))).

End BestThreshold.

(** A scoring run with one unanswerable question for which nothing was
    predicted and one answered question, on exact rationals. *)
Definition toy_preds : gmap string string :=
  <["q1"%string := ""%string]> (<["q2"%string := "japan"%string]> ∅).

Definition toy_scores : gmap string Q :=
  <["q1"%string := 1%Q]> (<["q2"%string := 1%Q]> ∅).

Definition toy_has_ans : gmap string bool :=
  <["q1"%string := false]> (<["q2"%string := true]> ∅).

Definition toy_na_probs : list (string * Q) :=
  [("q2"%string, (9 # 10)%Q); ("q1"%string, (1 # 10)%Q)].

Definition find_best_thresh_v2_Q
    : gmap string string -> gmap string Q -> list (string * Q) -> gmap string bool ->
      option (Q * Q * Q) :=
  find_best_thresh_v2 inject_Z Qplus Qmult Qdiv Qltb.

Definition sweep_statement_Q
    : Q -> gmap string string -> gmap string Q -> list (string * Q) ->
      gmap string bool -> Prop :=
  sweep_statement inject_Z Qplus Qmult Qdiv Qltb.

(** ** Text re-aligner ([get_final_text], lines 1023-1116) *)

(** [_strip_spaces]: the loop over [enumerate(text)] with its two
    accumulators; a position map is a dictionary from index to index. *)
Fixpoint strip_spaces_loop (i : Z) (text : string)
    (ns_chars : list ascii) (ns_to_s_map : gmap Z Z) : list ascii * gmap Z Z :=
  match text with
  | EmptyString => (ns_chars, ns_to_s_map)
  | String c rest =>
      if Ascii.eqb c " " then strip_spaces_loop (i + 1) rest ns_chars ns_to_s_map
      else strip_spaces_loop (i + 1) rest (ns_chars ++ [c])
             (<[Z.of_nat (List.length ns_chars) := i]> ns_to_s_map)
  end.

Definition _strip_spaces (text : string) : string * gmap Z Z :=
  let '(ns_chars, ns_to_s_map) := strip_spaces_loop 0 text [] ∅ in
  (string_of_list_ascii ns_chars, ns_to_s_map).

(** [for (i, tok_index) in tok_ns_to_s_map.items(): tok_s_to_ns_map[tok_index] = i] *)
Definition invert_map (ns_to_s_map : gmap Z Z) : gmap Z Z :=
  foldr (fun '(i, tok_index) acc => <[tok_index := i]> acc) ∅ (map_to_list ns_to_s_map).

(** [pred_text] occurs in [text] *)
Definition occurs_in (pred_text text : string) : Prop :=
  exists before after, text = (before +:+ pred_text +:+ after)%string.

Section Realign.
(** [BasicTokenizer(do_lower_case=do_lower_case).tokenize], from the
    [transformers] library. *)
Variable basic_tokenize : bool -> string -> list string.

Definition get_final_text (pred_text orig_text : string) (do_lower_case : bool) : string :=
  let tok_text := join " " (basic_tokenize do_lower_case orig_text) in
  let start_position := find tok_text pred_text in
  if start_position =? -1 then orig_text
  else
    let end_position := start_position + Z.of_nat (String.length pred_text) - 1 in
    let '(orig_ns_text, orig_ns_to_s_map) := _strip_spaces orig_text in
    let '(tok_ns_text, tok_ns_to_s_map) := _strip_spaces tok_text in
    if negb (String.length orig_ns_text =? String.length tok_ns_text)%nat then orig_text
    else
      let tok_s_to_ns_map := invert_map tok_ns_to_s_map in
      let orig_start_position :=
        match tok_s_to_ns_map !! start_position with
        | Some ns_start_position => orig_ns_to_s_map !! ns_start_position
        | None => None
        end in
      match orig_start_position with
      | None => orig_text
      | Some orig_start_position =>
          let orig_end_position :=
            match tok_s_to_ns_map !! end_position with
            | Some ns_end_position => orig_ns_to_s_map !! ns_end_position
            | None => None
            end in
          match orig_end_position with
          | None => orig_text
          | Some orig_end_position =>
              str_slice orig_text orig_start_position (orig_end_position + 1)
          end
      end.

(** The index translation of [get_final_text] misses at [position]:
    either dictionary lookup fails. *)
Definition translation_fails (tok_s_to_ns_map orig_ns_to_s_map : gmap Z Z)
    (position : Z) : Prop :=
  tok_s_to_ns_map !! position = None \/
  exists ns_position, tok_s_to_ns_map !! position = Some ns_position /\
                      orig_ns_to_s_map !! ns_position = None.
End Realign.

(** ** Examples and features

    [QuestionAnsweringInputExample] and [QAInputFeatures] are plain
    records defined in [nlp_architect.data.question_answering]; their
    fields are the attributes this module reads and writes. *)

Module Example.
Record t : Type := mk {
  qas_id : string;
  question_text : string;
  doc_tokens : list string;
  orig_answer_text : string;
  start_position : option Z;
  end_position : option Z;
  is_impossible : bool }.
End Example.

Module Feature.
Record t : Type := mk {
  unique_id : Z;
  example_index : nat;
  doc_span_index : nat;
  tokens : list string;
  token_to_orig_map : gmap Z Z;
  token_is_max_context : gmap Z bool;
  input_ids : list Z;
  input_mask : list Z;
  segment_ids : list Z;
  cls_index : Z;
  p_mask : list Z;
  paragraph_len : Z;
  start_position : option Z;
  end_position : option Z;
  is_impossible : bool }.
End Feature.

(** Arguments of [_convert_examples_to_features] other than the examples
    and the tokenizer. *)
Module Config.
Record t : Type := mk {
  max_seq_length : Z;
  doc_stride : Z;
  max_query_length : Z;
  is_training : bool;
  cls_token_at_end : bool;
  cls_token : string;
  sep_token : string;
  pad_token : Z;
  sequence_a_segment_id : Z;
  sequence_b_segment_id : Z;
  cls_token_segment_id : Z;
  pad_token_segment_id : Z;
  mask_padding_with_zero : bool;
  sequence_a_is_doc : bool }.

(** The keyword defaults of the signature. *)
Definition default (max_seq_length doc_stride max_query_length : Z)
    (is_training : bool) : t :=
  mk max_seq_length doc_stride max_query_length is_training
     false "[CLS]" "[SEP]" 0 0 1 0 0 true false.
End Config.

(** The per-chunk accumulators of the builder. *)
Module Chunk.
Record t : Type := mk {
  tokens : list string;
  token_to_orig_map : gmap Z Z;
  token_is_max_context : gmap Z bool;
  segment_ids : list Z;
  p_mask : list Z }.

Definition empty : t := mk [] ∅ ∅ [] [].

(** [tokens.append(tok); segment_ids.append(seg); p_mask.append(pm)] *)
Definition append (st : t) (tok : string) (seg pm : Z) : t :=
  mk (tokens st ++ [tok]) (token_to_orig_map st) (token_is_max_context st)
     (segment_ids st ++ [seg]) (p_mask st ++ [pm]).

(** [tokens += toks; segment_ids += [seg] * len(toks); p_mask += [1] * len(toks)] *)
Definition extend (st : t) (toks : list string) (seg : Z) : t :=
  mk (tokens st ++ toks) (token_to_orig_map st) (token_is_max_context st)
     (segment_ids st ++ replicate (List.length toks) seg)
     (p_mask st ++ replicate (List.length toks) 1).
End Chunk.

(** The four padded sequences. *)
Module Padded.
Record t : Type := mk {
  input_ids : list Z;
  input_mask : list Z;
  segment_ids : list Z;
  p_mask : list Z }.
End Padded.

(** The padding invariant of a feature. *)
Definition padded_to (max_seq_length : Z) (f : Feature.t) : Prop :=
  Zlen (Feature.input_ids f) = max_seq_length /\
  Zlen (Feature.input_mask f) = max_seq_length /\
  Zlen (Feature.segment_ids f) = max_seq_length /\
  Zlen (Feature.p_mask f) = max_seq_length.

(** [segment_ids] and [p_mask] grow together. *)
Definition chunk_aligned (st : Chunk.t) : Prop :=
  List.length (Chunk.segment_ids st) = List.length (Chunk.p_mask st).

(** ** Feature builder ([_convert_examples_to_features], lines 283-510) *)

Section FeatureBuilder.
Context {F : Type}.
Variable F_of_Z : Z -> F.
Variable fadd fmul : F -> F -> F.
Variable f0_01 : F.
Variable fgt : F -> F -> bool.
(** [tokenizer.tokenize] and [tokenizer.convert_tokens_to_ids] *)
Variable tokenize : string -> list string.
Variable convert_tokens_to_ids : list string -> list Z.

(** [_improve_answer_span] (lines 513-547) *)
Definition _improve_answer_span (doc_tokens : list string) (input_start input_end : Z)
    (orig_answer_text : string) : Z * Z :=
  let tok_answer_text := join " " (tokenize orig_answer_text) in
  let candidates :=
    flat_map (fun new_start =>
                map (fun new_end => (new_start, new_end))
                    (range_down input_end (new_start - 1)))
             (range input_start (input_end + 1)) in
  match List.find (fun '(new_start, new_end) =>
                     String.eqb (join " " (py_slice doc_tokens new_start (new_end + 1)))
                                tok_answer_text) candidates with
  | Some span => span
  | None => (input_start, input_end)
  end.

(** Lines 309-317: sub-tokenize every document token. *)
Fixpoint tokenize_doc (i : Z) (doc_tokens : list string)
    (tok_to_orig_index orig_to_tok_index : list Z) (all_doc_tokens : list string)
    : list Z * list Z * list string :=
  match doc_tokens with
  | [] => (tok_to_orig_index, orig_to_tok_index, all_doc_tokens)
  | token :: rest =>
      let orig_to_tok_index := orig_to_tok_index ++ [Zlen all_doc_tokens] in
      let sub_tokens := tokenize token in
      tokenize_doc (i + 1) rest
        (tok_to_orig_index ++ map (fun _ => i) sub_tokens) orig_to_tok_index
        (all_doc_tokens ++ sub_tokens)
  end.

(** Lines 319-332: the answer span in sub-token positions; [None] inside
    the result when not training. *)
Definition tok_positions (cfg : Config.t) (example : Example.t)
    (orig_to_tok_index : list Z) (all_doc_tokens : list string)
    : option (option (Z * Z)) :=
  if Config.is_training cfg && Example.is_impossible example then Some (Some (-1, -1))
  else if Config.is_training cfg && negb (Example.is_impossible example) then
    start_position ← Example.start_position example;
    end_position ← Example.end_position example;
    tok_start_position ← py_index orig_to_tok_index start_position;
    tok_end_position ←
      (if end_position <? Zlen (Example.doc_tokens example) - 1
       then (fun x => x - 1) <$> py_index orig_to_tok_index (end_position + 1)
       else Some (Zlen all_doc_tokens - 1));
    Some (Some (_improve_answer_span all_doc_tokens tok_start_position tok_end_position
                  (Example.orig_answer_text example)))
  else Some None.

(** One round of [for i in range(doc_span.length)] (lines 384-396). *)
Definition paragraph_step (cfg : Config.t) (doc_spans : list DocSpan.t)
    (doc_span_index : nat) (doc_span : DocSpan.t)
    (tok_to_orig_index : list Z) (all_doc_tokens : list string)
    (st : Chunk.t) (i : Z) : option Chunk.t :=
  let split_token_index := DocSpan.start doc_span + i in
  orig ← py_index tok_to_orig_index split_token_index;
  let is_max_context :=
    _check_is_max_context F_of_Z fadd fmul f0_01 fgt doc_spans doc_span_index
      split_token_index in
  tok ← py_index all_doc_tokens split_token_index;
  Some (Chunk.mk
          (Chunk.tokens st ++ [tok])
          (<[Zlen (Chunk.tokens st) := orig]> (Chunk.token_to_orig_map st))
          (<[Zlen (Chunk.tokens st) := is_max_context]> (Chunk.token_is_max_context st))
          (Chunk.segment_ids st ++
             [if negb (Config.sequence_a_is_doc cfg)
              then Config.sequence_b_segment_id cfg
              else Config.sequence_a_segment_id cfg])
          (Chunk.p_mask st ++ [0])).

Fixpoint paragraph_loop (step : Chunk.t -> Z -> option Chunk.t)
    (st : Chunk.t) (indices : list Z) : option Chunk.t :=
  match indices with
  | [] => Some st
  | i :: rest => st' ← step st i; paragraph_loop step st' rest
  end.

(** Lines 354-419: the token sequence of one chunk and its parallel
    arrays, with the index of the classification token. *)
Definition assemble (cfg : Config.t) (query_tokens : list string)
    (doc_spans : list DocSpan.t) (doc_span_index : nat) (doc_span : DocSpan.t)
    (tok_to_orig_index : list Z) (all_doc_tokens : list string)
    : option (Chunk.t * Z) :=
  let st := Chunk.empty in
  let st := if negb (Config.cls_token_at_end cfg)
            then Chunk.append st (Config.cls_token cfg) (Config.cls_token_segment_id cfg) 0
            else st in
  let cls_index := 0 in
  let st := if negb (Config.sequence_a_is_doc cfg)
            then Chunk.append
                   (Chunk.extend st query_tokens (Config.sequence_a_segment_id cfg))
                   (Config.sep_token cfg) (Config.sequence_a_segment_id cfg) 1
            else st in
  st ← paragraph_loop
         (paragraph_step cfg doc_spans doc_span_index doc_span tok_to_orig_index
            all_doc_tokens)
         st (range 0 (DocSpan.length doc_span));
  let st := if Config.sequence_a_is_doc cfg
            then Chunk.extend
                   (Chunk.append st (Config.sep_token cfg)
                      (Config.sequence_a_segment_id cfg) 1)
                   query_tokens (Config.sequence_b_segment_id cfg)
            else st in
  let st := Chunk.append st (Config.sep_token cfg) (Config.sequence_b_segment_id cfg) 1 in
  let st := if Config.cls_token_at_end cfg
            then Chunk.append st (Config.cls_token cfg) (Config.cls_token_segment_id cfg) 0
            else st in
  let cls_index := if Config.cls_token_at_end cfg
                   then Zlen (Chunk.tokens st) - 1 else cls_index in
  Some (st, cls_index).

(** [while len(input_ids) < max_seq_length]: each round appends one
    element to each of the four sequences; [rounds] is the number of
    rounds, [max_seq_length - len(input_ids)] when that is positive. *)
Fixpoint pad_loop (cfg : Config.t) (rounds : nat) (p : Padded.t) : Padded.t :=
  match rounds with
  | O => p
  | S rounds' =>
      pad_loop cfg rounds'
        (Padded.mk
           (Padded.input_ids p ++ [Config.pad_token cfg])
           (Padded.input_mask p ++ [if Config.mask_padding_with_zero cfg then 0 else 1])
           (Padded.segment_ids p ++ [Config.pad_token_segment_id cfg])
           (Padded.p_mask p ++ [1]))
  end.

(** Lines 421-432: ids, attention mask and zero-padding. *)
Definition pad (cfg : Config.t) (st : Chunk.t) : Padded.t :=
  let input_ids := convert_tokens_to_ids (Chunk.tokens st) in
  let input_mask :=
    replicate (List.length input_ids)
      (if Config.mask_padding_with_zero cfg then 1 else 0) in
  pad_loop cfg (Z.to_nat (Config.max_seq_length cfg - Zlen input_ids))
    (Padded.mk input_ids input_mask (Chunk.segment_ids st) (Chunk.p_mask st)).

(** Lines 434-436: the three assertions. *)
Definition asserts_hold (cfg : Config.t) (p : Padded.t) : bool :=
  (Zlen (Padded.input_ids p) =? Config.max_seq_length cfg)
  && (Zlen (Padded.input_mask p) =? Config.max_seq_length cfg)
  && (Zlen (Padded.segment_ids p) =? Config.max_seq_length cfg).

(** Lines 438-464: label placement; the result is
    [(start_position, end_position, span_is_impossible)]. *)
Definition place_labels (cfg : Config.t) (example : Example.t)
    (query_tokens : list string) (doc_span : DocSpan.t)
    (tok_position : option (Z * Z)) (cls_index : Z)
    : option (option Z * option Z * bool) :=
  let span_is_impossible := Example.is_impossible example in
  '(start_position, end_position, span_is_impossible) ←
    (if Config.is_training cfg && negb span_is_impossible then
       '(tok_start_position, tok_end_position) ← tok_position;
       let doc_start := DocSpan.start doc_span in
       let doc_end := DocSpan.start doc_span + DocSpan.length doc_span - 1 in
       let out_of_span :=
         negb ((tok_start_position >=? doc_start) && (tok_end_position <=? doc_end)) in
       if out_of_span then Some (Some 0, Some 0, true)
       else
         let doc_offset := if Config.sequence_a_is_doc cfg then 0
                           else Zlen query_tokens + 2 in
         Some (Some (tok_start_position - doc_start + doc_offset),
               Some (tok_end_position - doc_start + doc_offset),
               span_is_impossible)
     else Some (None, None, span_is_impossible));
  if Config.is_training cfg && span_is_impossible
  then Some (Some cls_index, Some cls_index, span_is_impossible)
  else Some (start_position, end_position, span_is_impossible).

(** The body of [for (doc_span_index, doc_span) in enumerate(doc_spans)]. *)
Definition build_feature (cfg : Config.t) (unique_id : Z) (example_index : nat)
    (example : Example.t) (query_tokens : list string)
    (tok_to_orig_index : list Z) (all_doc_tokens : list string)
    (tok_position : option (Z * Z))
    (doc_spans : list DocSpan.t) (doc_span_index : nat) (doc_span : DocSpan.t)
    : option Feature.t :=
  '(st, cls_index) ← assemble cfg query_tokens doc_spans doc_span_index doc_span
                       tok_to_orig_index all_doc_tokens;
  let paragraph_len := DocSpan.length doc_span in
  let p := pad cfg st in
  if asserts_hold cfg p then
    '(start_position, end_position, span_is_impossible) ←
      place_labels cfg example query_tokens doc_span tok_position cls_index;
    Some (Feature.mk unique_id example_index doc_span_index
            (Chunk.tokens st) (Chunk.token_to_orig_map st)
            (Chunk.token_is_max_context st)
            (Padded.input_ids p) (Padded.input_mask p) (Padded.segment_ids p)
            cls_index (Padded.p_mask p) paragraph_len
            start_position end_position span_is_impossible)
  else None.

Fixpoint build_features (cfg : Config.t) (unique_id : Z) (example_index : nat)
    (example : Example.t) (query_tokens : list string)
    (tok_to_orig_index : list Z) (all_doc_tokens : list string)
    (tok_position : option (Z * Z))
    (doc_spans : list DocSpan.t) (todo : list (nat * DocSpan.t))
    : option (list Feature.t) :=
  match todo with
  | [] => Some []
  | (doc_span_index, doc_span) :: rest =>
      feature ← build_feature cfg unique_id example_index example query_tokens
                  tok_to_orig_index all_doc_tokens tok_position
                  doc_spans doc_span_index doc_span;
      features ← build_features cfg (unique_id + 1) example_index example query_tokens
                   tok_to_orig_index all_doc_tokens tok_position doc_spans rest;
      Some (feature :: features)
  end.

(** The body of [for (example_index, example) in enumerate(examples)]. *)
Definition convert_example (fuel : nat) (cfg : Config.t) (unique_id : Z)
    (example_index : nat) (example : Example.t) : option (list Feature.t) :=
  let query_tokens := tokenize (Example.question_text example) in
  let query_tokens :=
    if Zlen query_tokens >? Config.max_query_length cfg
    then py_slice query_tokens 0 (Config.max_query_length cfg)
    else query_tokens in
  let '(tok_to_orig_index, orig_to_tok_index, all_doc_tokens) :=
    tokenize_doc 0 (Example.doc_tokens example) [] [] [] in
  tok_position ← tok_positions cfg example orig_to_tok_index all_doc_tokens;
  doc_spans ← make_doc_spans fuel all_doc_tokens query_tokens
                (Config.max_seq_length cfg) (Config.doc_stride cfg);
  build_features cfg unique_id example_index example query_tokens
    tok_to_orig_index all_doc_tokens tok_position doc_spans (enumerate doc_spans).

Fixpoint convert_examples_loop (fuel : nat) (cfg : Config.t) (unique_id : Z)
    (todo : list (nat * Example.t)) (features : list Feature.t)
    : option (list Feature.t) :=
  match todo with
  | [] => Some features
  | (example_index, example) :: rest =>
      new_features ← convert_example fuel cfg unique_id example_index example;
      convert_examples_loop fuel cfg (unique_id + Zlen new_features) rest
        (features ++ new_features)
  end.

Definition _convert_examples_to_features (fuel : nat) (cfg : Config.t)
    (examples : list Example.t) : option (list Feature.t) :=
  convert_examples_loop fuel cfg 1000000000 (enumerate examples) [].

End FeatureBuilder.

(** ** Raw results and predictions (namedtuples, lines 27-32, 605-607, 674-675) *)

Module RawResult.
Record t (F : Type) : Type := mk {
  unique_id : Z;
  start_logits : list F;
  end_logits : list F }.
Arguments mk {F}.
Arguments unique_id {F}.
Arguments start_logits {F}.
Arguments end_logits {F}.
End RawResult.

Module RawResultExtended.
Record t (F : Type) : Type := mk {
  unique_id : Z;
  start_top_log_probs : list F;
  start_top_index : list Z;
  end_top_log_probs : list F;
  end_top_index : list Z;
  cls_logits : F }.
Arguments mk {F}.
Arguments unique_id {F}.
Arguments start_top_log_probs {F}.
Arguments start_top_index {F}.
Arguments end_top_log_probs {F}.
Arguments end_top_index {F}.
Arguments cls_logits {F}.
End RawResultExtended.

(** The pointer head names the last two fields [start_log_prob] and
    [end_log_prob]. *)
Module PrelimPrediction.
Record t (F : Type) : Type := mk {
  feature_index : nat;
  start_index : Z;
  end_index : Z;
  start_logit : F;
  end_logit : F }.
Arguments mk {F}.
Arguments feature_index {F}.
Arguments start_index {F}.
Arguments end_index {F}.
Arguments start_logit {F}.
Arguments end_logit {F}.
End PrelimPrediction.

Module NbestPrediction.
Record t (F : Type) : Type := mk {
  text : string;
  start_logit : F;
  end_logit : F }.
Arguments mk {F}.
Arguments text {F}.
Arguments start_logit {F}.
Arguments end_logit {F}.
End NbestPrediction.

(** One record of [nbest_json]. *)
Module NbestJson.
Record t (F : Type) : Type := mk {
  text : string;
  probability : F;
  start_logit : F;
  end_logit : F }.
Arguments mk {F}.
Arguments text {F}.
Arguments probability {F}.
Arguments start_logit {F}.
Arguments end_logit {F}.
End NbestJson.

(** The running minimum of the null score over the features of an example
    (lines 618-621). *)
Module NullState.
Record t (F : Type) : Type := mk {
  score_null : F;
  min_null_feature_index : nat;
  null_start_logit : F;
  null_end_logit : F }.
Arguments mk {F}.
Arguments score_null {F}.
Arguments min_null_feature_index {F}.
Arguments null_start_logit {F}.
Arguments null_end_logit {F}.
End NullState.

(** The three dictionaries that [write_predictions] fills. *)
Module Outputs.
Record t (F : Type) : Type := mk {
  all_predictions : gmap string string;
  all_nbest_json : gmap string (list (NbestJson.t F));
  scores_diff_json : gmap string F }.
Arguments mk {F}.
Arguments all_predictions {F}.
Arguments all_nbest_json {F}.
Arguments scores_diff_json {F}.
End Outputs.

(** [k in d] *)
Definition has_key {V : Type} (k : Z) (d : gmap Z V) : bool :=
  match d !! k with
  | Some _ => true
  | None => false
  end.

(** The keys of both chunk dictionaries are the positions from [lo]
    (inclusive) to [hi] (exclusive). *)
Definition keys_between (st : Chunk.t) (lo hi : Z) : Prop :=
  forall k,
    (has_key k (Chunk.token_to_orig_map st) = true <-> lo <= k < hi) /\
    (has_key k (Chunk.token_is_max_context st) = true <-> lo <= k < hi).

(** The validity that the decoders are expected to guarantee for a
    candidate span of a feature. *)
Definition valid_prediction {F : Type} (max_answer_length : Z) (feature : Feature.t)
    (pred : PrelimPrediction.t F) : Prop :=
  has_key (PrelimPrediction.start_index pred) (Feature.token_to_orig_map feature) = true /\
  has_key (PrelimPrediction.end_index pred) (Feature.token_to_orig_map feature) = true /\
  PrelimPrediction.end_index pred >= PrelimPrediction.start_index pred /\
  PrelimPrediction.end_index pred - PrelimPrediction.start_index pred + 1
    <= max_answer_length.

(** Max-context ownership of the start: the feature flags the start index
    of the prediction in [token_is_max_context]. *)
Definition owns_start {F : Type} (feature : Feature.t) (pred : PrelimPrediction.t F)
    : Prop :=
  Feature.token_is_max_context feature !! PrelimPrediction.start_index pred = Some true.

(** A standard-head prediction built from a candidate pair of one of the
    features: it is valid, its feature owns its start, and both indexes
    are below the number of tokens of the feature. *)
Definition from_feature {F : Type} (max_answer_length : Z) (features : list Feature.t)
    (p : PrelimPrediction.t F) : Prop :=
  exists feature,
    features !! PrelimPrediction.feature_index p = Some feature /\
    valid_prediction max_answer_length feature p /\
    owns_start feature p /\
    PrelimPrediction.start_index p < Zlen (Feature.tokens feature) /\
    PrelimPrediction.end_index p < Zlen (Feature.tokens feature).

(** The same for the pointer head, with its bound on the indexes. *)
Definition from_feature_extended {F : Type} (max_answer_length : Z)
    (features : list Feature.t) (p : PrelimPrediction.t F) : Prop :=
  exists feature,
    features !! PrelimPrediction.feature_index p = Some feature /\
    valid_prediction max_answer_length feature p /\
    owns_start feature p /\
    PrelimPrediction.start_index p < Feature.paragraph_len feature - 1 /\
    PrelimPrediction.end_index p < Feature.paragraph_len feature - 1.

(** The shape of the dictionaries of a feature that the builder lays out:
    both have as keys the [paragraph_len] consecutive positions of the
    chunk's document tokens, starting at some offset. *)
Definition chunk_keys (feature : Feature.t) : Prop :=
  exists doc_offset, 0 <= doc_offset /\
    forall k,
      (has_key k (Feature.token_to_orig_map feature) = true <->
       doc_offset <= k < doc_offset + Feature.paragraph_len feature) /\
      (has_key k (Feature.token_is_max_context feature) = true <->
       doc_offset <= k < doc_offset + Feature.paragraph_len feature).

(** The texts of an n-best list, and the de-duplication property: two
    entries at different places share a text only if it is empty. *)
Definition texts {F : Type} (nbest : list (NbestPrediction.t F)) : list string :=
  map NbestPrediction.text nbest.

Definition distinct_texts {F : Type} (nbest : list (NbestPrediction.t F)) : Prop :=
  forall i j e1 e2,
    i <> j -> nbest !! i = Some e1 -> nbest !! j = Some e2 ->
    NbestPrediction.text e1 = NbestPrediction.text e2 ->
    NbestPrediction.text e1 = ""%string.

(** Invariant of the n-best loop: [seen_predictions] holds exactly the
    texts kept so far. *)
Definition nbest_inv {F : Type} (seen_predictions : gset string)
    (nbest : list (NbestPrediction.t F)) : Prop :=
  (forall t, t ∈ seen_predictions <-> t ∈ texts nbest) /\ distinct_texts nbest.

(** [entry] is the first entry of [nbest] whose text is not empty. *)
Definition first_non_null {F : Type} (nbest : list (NbestPrediction.t F))
    (entry : NbestPrediction.t F) : Prop :=
  exists i,
    nbest !! i = Some entry /\ NbestPrediction.text entry <> ""%string /\
    forall j e, (j < i)%nat -> nbest !! j = Some e -> NbestPrediction.text e = ""%string.

(** ** Span decoders *)

Section Decoder.
Context {F : Type}.
Variable F_of_Z : Z -> F.              (* an int used where a float is *)
Variable fadd fsub fdiv : F -> F -> F. (* float [+], [-], [/] *)
Variable fexp : F -> F.                (* [math.exp] *)
Variable flt : F -> F -> bool.         (* float [<]; [a > b] is [b < a] *)
Variable basic_tokenize : bool -> string -> list string.

Variable n_best_size max_answer_length : Z.
Variable do_lower_case version_2_with_negative : bool.
Variable null_score_diff_threshold : F.

(** [sorted(l, key=key, reverse=True)]: stable, descending. *)
Fixpoint insert_desc {A : Type} (key : A -> F) (x : A) (l : list A) : list A :=
  match l with
  | [] => [x]
  | y :: rest => if flt (key x) (key y) then y :: insert_desc key x rest else x :: l
  end.

Definition sorted_desc {A : Type} (key : A -> F) (l : list A) : list A :=
  foldr (insert_desc key) [] l.

(** [_get_best_indexes] (lines 970-979) *)
Fixpoint best_indexes_loop (i : Z) (index_and_score : list (nat * F))
    (best_indexes : list Z) : list Z :=
  match index_and_score with
  | [] => best_indexes
  | entry :: rest =>
      if i >=? n_best_size then best_indexes
      else best_indexes_loop (i + 1) rest (best_indexes ++ [Z.of_nat (fst entry)])
  end.

Definition _get_best_indexes (logits : list F) : list Z :=
  let index_and_score := sorted_desc snd (enumerate logits) in
  best_indexes_loop 0 index_and_score [].

(** [_compute_softmax] (lines 1150-1170) *)
Definition _compute_softmax (scores : list F) : list F :=
  match scores with
  | [] => []
  | _ =>
      let max_score :=
        foldl (fun max_score score =>
                 match max_score with
                 | None => Some score
                 | Some m => if flt m score then Some score else Some m
                 end) None scores in
      match max_score with
      | None => []
      | Some max_score =>
          let exp_scores := map (fun score => fexp (fsub score max_score)) scores in
          let total_sum := foldl fadd (F_of_Z 0) exp_scores in
          map (fun score => fdiv score total_sum) exp_scores
      end
  end.

(** *** Standard head ([write_predictions], lines 589-780) *)

(** The [continue] tests of lines 639-653, in order. *)
Definition span_rejected (feature : Feature.t) (start_index end_index : Z) : bool :=
  (start_index >=? Zlen (Feature.tokens feature))
  || (end_index >=? Zlen (Feature.tokens feature))
  || negb (has_key start_index (Feature.token_to_orig_map feature))
  || negb (has_key end_index (Feature.token_to_orig_map feature))
  || negb (default false (Feature.token_is_max_context feature !! start_index))
  || (end_index <? start_index)
  || (end_index - start_index + 1 >? max_answer_length).

(** Lines 654-660 for one surviving pair. *)
Definition make_prelim (feature_index : nat) (result : RawResult.t F)
    (span : Z * Z) : option (PrelimPrediction.t F) :=
  start_logit ← py_index (RawResult.start_logits result) (fst span);
  end_logit ← py_index (RawResult.end_logits result) (snd span);
  Some (PrelimPrediction.mk feature_index (fst span) (snd span) start_logit end_logit).

(** Lines 634-660: the predictions of one feature. *)
Definition feature_predictions (feature_index : nat) (feature : Feature.t)
    (result : RawResult.t F) : option (list (PrelimPrediction.t F)) :=
  let start_indexes := _get_best_indexes (RawResult.start_logits result) in
  let end_indexes := _get_best_indexes (RawResult.end_logits result) in
  mapM (make_prelim feature_index result)
    (filter (fun span => span_rejected feature (fst span) (snd span) = false)
       (list_prod start_indexes end_indexes)).

(** Lines 627-633 *)
Definition update_null (feature_index : nat) (result : RawResult.t F)
    (null : NullState.t F) : option (NullState.t F) :=
  if version_2_with_negative then
    start0 ← py_index (RawResult.start_logits result) 0;
    end0 ← py_index (RawResult.end_logits result) 0;
    let feature_null_score := fadd start0 end0 in
    if flt feature_null_score (NullState.score_null null)
    then Some (NullState.mk feature_null_score feature_index start0 end0)
    else Some null
  else Some null.

(** The loop [for (feature_index, feature) in enumerate(features)]. *)
Fixpoint features_loop (unique_id_to_result : gmap Z (RawResult.t F))
    (todo : list (nat * Feature.t))
    (prelim_predictions : list (PrelimPrediction.t F)) (null : NullState.t F)
    : option (list (PrelimPrediction.t F) * NullState.t F) :=
  match todo with
  | [] => Some (prelim_predictions, null)
  | (feature_index, feature) :: rest =>
      result ← unique_id_to_result !! Feature.unique_id feature;
      null ← update_null feature_index result null;
      new ← feature_predictions feature_index feature result;
      features_loop unique_id_to_result rest (prelim_predictions ++ new) null
  end.

Definition initial_null : NullState.t F :=
  NullState.mk (F_of_Z 1000000) 0 (F_of_Z 0) (F_of_Z 0).

(** Lines 661-668: the synthesized no-answer prediction. *)
Definition null_prediction (null : NullState.t F) : PrelimPrediction.t F :=
  PrelimPrediction.mk (NullState.min_null_feature_index null) 0 0
    (NullState.null_start_logit null) (NullState.null_end_logit null).

(** Lines 616-672: the sorted preliminary predictions of an example. *)
Definition prelim_predictions (unique_id_to_result : gmap Z (RawResult.t F))
    (features : list Feature.t)
    : option (list (PrelimPrediction.t F) * NullState.t F) :=
  '(prelim_predictions, null) ←
    features_loop unique_id_to_result (enumerate features) [] initial_null;
  let prelim_predictions :=
    if version_2_with_negative
    then prelim_predictions ++ [null_prediction null]
    else prelim_predictions in
  Some (sorted_desc
          (fun x => fadd (PrelimPrediction.start_logit x) (PrelimPrediction.end_logit x))
          prelim_predictions,
        null).

(** Lines 684-699: the text of a non-null prediction. *)
Definition final_text_of (example : Example.t) (feature : Feature.t)
    (pred : PrelimPrediction.t F) : option string :=
  let tok_tokens :=
    py_slice (Feature.tokens feature) (PrelimPrediction.start_index pred)
      (PrelimPrediction.end_index pred + 1) in
  orig_doc_start ← Feature.token_to_orig_map feature !! PrelimPrediction.start_index pred;
  orig_doc_end ← Feature.token_to_orig_map feature !! PrelimPrediction.end_index pred;
  let orig_tokens :=
    py_slice (Example.doc_tokens example) orig_doc_start (orig_doc_end + 1) in
  let tok_text := join " " tok_tokens in
  let tok_text := replace " ##" "" tok_text in
  let tok_text := replace "##" "" tok_text in
  let tok_text := strip tok_text in
  let tok_text := join " " (split tok_text) in
  let orig_text := join " " orig_tokens in
  Some (get_final_text basic_tokenize tok_text orig_text do_lower_case).

(** Lines 677-712: the n-best loop with [seen_predictions]. *)
Fixpoint nbest_loop (example : Example.t) (features : list Feature.t)
    (todo : list (PrelimPrediction.t F))
    (seen_predictions : gset string) (nbest : list (NbestPrediction.t F))
    : option (gset string * list (NbestPrediction.t F)) :=
  match todo with
  | [] => Some (seen_predictions, nbest)
  | pred :: rest =>
      if Zlen nbest >=? n_best_size then Some (seen_predictions, nbest)
      else
        feature ← features !! PrelimPrediction.feature_index pred;
        if PrelimPrediction.start_index pred >? 0 then
          final_text ← final_text_of example feature pred;
          if decide (final_text ∈ seen_predictions)
          then nbest_loop example features rest seen_predictions nbest
          else nbest_loop example features rest ({[final_text]} ∪ seen_predictions)
                 (nbest ++ [NbestPrediction.mk final_text
                              (PrelimPrediction.start_logit pred)
                              (PrelimPrediction.end_logit pred)])
        else
          nbest_loop example features rest ({[""%string]} ∪ seen_predictions)
            (nbest ++ [NbestPrediction.mk "" (PrelimPrediction.start_logit pred)
                         (PrelimPrediction.end_logit pred)])
  end.

Definition nonce : NbestPrediction.t F :=
  NbestPrediction.mk "empty" (F_of_Z 0) (F_of_Z 0).

(** Lines 713-732: the forced empty entry and the nonce entries. *)
Definition complete_nbest (null : NullState.t F) (seen_predictions : gset string)
    (nbest : list (NbestPrediction.t F)) : list (NbestPrediction.t F) :=
  let nbest :=
    if version_2_with_negative then
      let nbest :=
        if decide (""%string ∈ seen_predictions) then nbest
        else nbest ++ [NbestPrediction.mk "" (NullState.null_start_logit null)
                         (NullState.null_end_logit null)] in
      if (List.length nbest =? 1)%nat then nonce :: nbest else nbest
    else nbest in
  match nbest with
  | [] => [nonce]
  | _ => nbest
  end.

(** Lines 677-732 for one example. *)
Definition nbest_of (example : Example.t) (features : list Feature.t)
    (prelim : list (PrelimPrediction.t F)) (null : NullState.t F)
    : option (list (NbestPrediction.t F)) :=
  '(seen_predictions, nbest) ← nbest_loop example features prelim ∅ [];
  Some (complete_nbest null seen_predictions nbest).

(** Lines 737-742: the first entry with a non-empty text. *)
Definition best_non_null_entry (nbest : list (NbestPrediction.t F))
    : option (NbestPrediction.t F) :=
  List.find (fun entry => nonempty (NbestPrediction.text entry)) nbest.

(** Lines 736-753 *)
Definition nbest_json_of (nbest : list (NbestPrediction.t F)) : list (NbestJson.t F) :=
  let total_scores :=
    map (fun entry => fadd (NbestPrediction.start_logit entry)
                           (NbestPrediction.end_logit entry)) nbest in
  let probs := _compute_softmax total_scores in
  zip_with (fun entry prob =>
              NbestJson.mk (NbestPrediction.text entry) prob
                (NbestPrediction.start_logit entry) (NbestPrediction.end_logit entry))
           nbest probs.

(** Lines 757-767: the reported answer and, with null answers enabled, the
    score difference. *)
Definition final_prediction (score_null : F) (nbest : list (NbestPrediction.t F))
    : option (string * option F) :=
  if negb version_2_with_negative then
    entry ← head nbest; Some (NbestPrediction.text entry, None)
  else
    entry ← best_non_null_entry nbest;
    let score_diff :=
      fsub (fsub score_null (NbestPrediction.start_logit entry))
           (NbestPrediction.end_logit entry) in
    if flt null_score_diff_threshold score_diff
    then Some (""%string, Some score_diff)
    else Some (NbestPrediction.text entry, Some score_diff).

(** The body of [for (example_index, example) in enumerate(all_examples)]:
    the three dictionaries after this example. *)
Definition write_example (unique_id_to_result : gmap Z (RawResult.t F))
    (all_features : list Feature.t) (out : Outputs.t F)
    (example_index : nat) (example : Example.t) : option (Outputs.t F) :=
  let features :=
    filter (fun feature => Feature.example_index feature = example_index) all_features in
  '(prelim, null) ← prelim_predictions unique_id_to_result features;
  nbest ← nbest_of example features prelim null;
  let nbest_json := nbest_json_of nbest in
  '(prediction, score_diff) ← final_prediction (NullState.score_null null) nbest;
  Some (Outputs.mk
          (<[Example.qas_id example := prediction]> (Outputs.all_predictions out))
          (<[Example.qas_id example := nbest_json]> (Outputs.all_nbest_json out))
          (match score_diff with
           | Some score_diff =>
               <[Example.qas_id example := score_diff]> (Outputs.scores_diff_json out)
           | None => Outputs.scores_diff_json out
           end)).

Fixpoint examples_loop (unique_id_to_result : gmap Z (RawResult.t F))
    (all_features : list Feature.t) (todo : list (nat * Example.t))
    (out : Outputs.t F) : option (Outputs.t F) :=
  match todo with
  | [] => Some out
  | (example_index, example) :: rest =>
      out ← write_example unique_id_to_result all_features out example_index example;
      examples_loop unique_id_to_result all_features rest out
  end.

Definition write_predictions (all_examples : list Example.t)
    (all_features : list Feature.t) (all_results : list (RawResult.t F))
    : option (Outputs.t F) :=
  let unique_id_to_result :=
    foldl (fun d result => <[RawResult.unique_id result := result]> d) ∅ all_results in
  examples_loop unique_id_to_result all_features (enumerate all_examples)
    (Outputs.mk ∅ ∅ ∅).

(** *** Pointer head ([write_predictions_extended], lines 815-867) *)

Variable start_n_top end_n_top : Z.

(** The [continue] tests of lines 843-854, in order. *)
Definition span_rejected_extended (feature : Feature.t) (start_index end_index : Z)
    : bool :=
  (start_index >=? Feature.paragraph_len feature - 1)
  || (end_index >=? Feature.paragraph_len feature - 1)
  || negb (default false (Feature.token_is_max_context feature !! start_index))
  || (end_index <? start_index)
  || (end_index - start_index + 1 >? max_answer_length).

(** Lines 832-862 for one pair [(i, j)]: the four lookups, then the tests. *)
Definition candidate_extended (feature_index : nat) (feature : Feature.t)
    (result : RawResultExtended.t F) (ij : Z * Z)
    : option (option (PrelimPrediction.t F)) :=
  let '(i, j) := ij in
  start_log_prob ← py_index (RawResultExtended.start_top_log_probs result) i;
  start_index ← py_index (RawResultExtended.start_top_index result) i;
  let j_index := i * end_n_top + j in
  end_log_prob ← py_index (RawResultExtended.end_top_log_probs result) j_index;
  end_index ← py_index (RawResultExtended.end_top_index result) j_index;
  if span_rejected_extended feature start_index end_index then Some None
  else Some (Some (PrelimPrediction.mk feature_index start_index end_index
                     start_log_prob end_log_prob)).

Definition feature_predictions_extended (feature_index : nat) (feature : Feature.t)
    (result : RawResultExtended.t F) : option (list (PrelimPrediction.t F)) :=
  candidates ← mapM (candidate_extended feature_index feature result)
                  (list_prod (range 0 start_n_top) (range 0 end_n_top));
  Some (omap id candidates).

(** [min(a, b)] on floats *)
Definition fmin (a b : F) : F := if flt b a then b else a.

Fixpoint features_loop_extended (unique_id_to_result : gmap Z (RawResultExtended.t F))
    (todo : list (nat * Feature.t))
    (prelim_predictions : list (PrelimPrediction.t F)) (score_null : F)
    : option (list (PrelimPrediction.t F) * F) :=
  match todo with
  | [] => Some (prelim_predictions, score_null)
  | (feature_index, feature) :: rest =>
      result ← unique_id_to_result !! Feature.unique_id feature;
      let cur_null_score := RawResultExtended.cls_logits result in
      let score_null := fmin score_null cur_null_score in
      new ← feature_predictions_extended feature_index feature result;
      features_loop_extended unique_id_to_result rest (prelim_predictions ++ new)
        score_null
  end.

(** Lines 818-867: the sorted preliminary predictions of an example and
    its null score. *)
Definition prelim_predictions_extended
    (unique_id_to_result : gmap Z (RawResultExtended.t F)) (features : list Feature.t)
    : option (list (PrelimPrediction.t F) * F) :=
  '(prelim_predictions, score_null) ←
    features_loop_extended unique_id_to_result (enumerate features) []
      (F_of_Z 1000000);
  Some (sorted_desc
          (fun x => fadd (PrelimPrediction.start_logit x) (PrelimPrediction.end_logit x))
          prelim_predictions,
        score_null).

End Decoder.

(** A small concrete setting to run the builder: whitespace splitting as
    tokenizer, the token length as its id, exact rationals as floats. *)
Definition toy_ids (tokens : list string) : list Z :=
  map (fun tok => Z.of_nat (String.length tok)) tokens.

Definition toy_example : Example.t :=
  Example.mk "q1" "who went" ["the"; "man"; "went"; "home"]%string "" None None false.

Definition toy_features (cfg : Config.t) (examples : list Example.t)
    : option (list Feature.t) :=
  _convert_examples_to_features inject_Z Qplus Qmult (1 # 100)%Q Qgtb split toy_ids
    10 cfg examples.

(** Two features of three document tokens each (positions 4 to 6), with
    logits that favour the span from position 5 to position 6. *)
Definition toy_config : Config.t := Config.default 8 1 64 false.

Definition toy_results : gmap Z (RawResult.t Q) :=
  foldl (fun d result => <[RawResult.unique_id result := result]> d) ∅
    [RawResult.mk 1000000000 [1; 0; 0; 0; 2; 5; 1; 0]%Q [2; 0; 0; 0; 1; 2; 6; 0]%Q;
     RawResult.mk 1000000001 [3; 0; 0; 0; 4; 1; 0; 0]%Q [1; 0; 0; 0; 5; 3; 1; 0]%Q].

Definition toy_prelim (version_2_with_negative : bool) (features : list Feature.t)
    : option (list (PrelimPrediction.t Q) * NullState.t Q) :=
  prelim_predictions inject_Z Qplus Qltb 3 5 version_2_with_negative toy_results features.

Definition toy_results_extended : gmap Z (RawResultExtended.t Q) :=
  foldl (fun d result => <[RawResultExtended.unique_id result := result]> d) ∅
    [RawResultExtended.mk 1000000000 [5; 2]%Q [1; 0] [6; 3; 2; 1]%Q [1; 0; 1; 0] 1%Q;
     RawResultExtended.mk 1000000001 [4; 1]%Q [0; 1] [5; 3; 2; 1]%Q [1; 0; 1; 2] 2%Q].

Definition toy_prelim_extended (features : list Feature.t)
    : option (list (PrelimPrediction.t Q) * Q) :=
  prelim_predictions_extended inject_Z Qplus Qltb 5 2 2 toy_results_extended features.

Definition toy_feature_list : list Feature.t :=
  default [] (toy_features toy_config [toy_example]).

(** The layout [P SEP Q SEP CLS] that the pointer head was written for. *)
Definition toy_config_doc_first : Config.t :=
  Config.mk 8 1 64 false true "<cls>" "<sep>" 0 0 1 2 0 true true.

Definition toy_feature_list_doc_first : list Feature.t :=
  default [] (toy_features toy_config_doc_first [toy_example]).

(** Lower-casing and whitespace splitting in place of [BasicTokenizer]. *)
Definition toy_basic_tokenize (do_lower_case : bool) (text : string) : list string :=
  split (if do_lower_case then lower text else text).

Definition toy_prelim_null : list (PrelimPrediction.t Q) * NullState.t Q :=
  default ([], initial_null inject_Z) (toy_prelim true toy_feature_list).

Definition toy_nbest (version_2_with_negative : bool)
    : option (list (NbestPrediction.t Q)) :=
  '(prelim, null) ← toy_prelim version_2_with_negative toy_feature_list;
  nbest_of inject_Z toy_basic_tokenize 3 true version_2_with_negative
    toy_example toy_feature_list prelim null.

(** The toy example decoded with null answers enabled, starting from
    empty dictionaries; [exp] is replaced by a rational function, which only
    affects the reported probabilities. *)
Definition toy_write_example (null_score_diff_threshold : Q) : option (Outputs.t Q) :=
  write_example inject_Z Qplus Qminus Qdiv (fun x => 1 + x * x)%Q Qltb
    toy_basic_tokenize 3 5 true true null_score_diff_threshold
    toy_results toy_feature_list (Outputs.mk ∅ ∅ ∅) 0 toy_example.

Definition toy_outputs : Outputs.t Q :=
  default (Outputs.mk ∅ ∅ ∅) (toy_write_example (-10)).

(* ===================================================================== *)
(** * Part I, continued: further functions of the module *)
(* ===================================================================== *)

(** ** Raw scores ([get_raw_scores], [make_qid_to_has_ans], lines 1119-1147)

    The reference dataset is a list of articles, an article a list of
    paragraphs, a paragraph a list of question records; of a record the
    functions read the id and the texts of the answers. *)

Module QA.
Record t : Type := mk { id : string; answers : list string }.
End QA.

(** [max(f(a) for a in l)] for a non-empty [l]: the first maximal value. *)
Definition py_max {A B : Type} (ltb : B -> B -> bool) (f : A -> B) (l : list A)
    : option B :=
  match l with
  | [] => None
  | a :: rest => Some (foldl (fun m x => if ltb m (f x) then f x else m) (f a) rest)
  end.

(** The gold answers of a question (lines 1126-1130). *)
Definition gold_answers (qa : QA.t) : list string :=
  let gold := filter (fun a => nonempty (normalize_answer a) = true) (QA.answers qa) in
  match gold with
  | [] => [""%string]
  | _ => gold
  end.

(** The body of [for qa in p['qas']]. *)
Definition score_question (preds : gmap string string)
    (acc : gmap string Z * gmap string Q) (qa : QA.t)
    : option (gmap string Z * gmap string Q) :=
  let qid := QA.id qa in
  match preds !! qid with
  | None => Some acc
  | Some a_pred =>
      exact ← py_max Z.ltb (fun a => compute_exact a a_pred) (gold_answers qa);
      f1 ← py_max Qltb (fun a => compute_f1 a a_pred) (gold_answers qa);
      Some (<[qid := exact]> (fst acc), <[qid := f1]> (snd acc))
  end.

Fixpoint score_questions (preds : gmap string string) (qas : list QA.t)
    (acc : gmap string Z * gmap string Q) : option (gmap string Z * gmap string Q) :=
  match qas with
  | [] => Some acc
  | qa :: rest => acc ← score_question preds acc qa; score_questions preds rest acc
  end.

(** The questions of the dataset in the order of the three nested loops. *)
Definition questions (dataset : list (list (list QA.t))) : list QA.t :=
  concat (concat dataset).

Definition get_raw_scores (dataset : list (list (list QA.t)))
    (preds : gmap string string) : option (gmap string Z * gmap string Q) :=
  score_questions preds (questions dataset) (∅, ∅).

Definition make_qid_to_has_ans (dataset : list (list (list QA.t))) : gmap string bool :=
  foldl (fun d qa =>
           <[QA.id qa := match QA.answers qa with [] => false | _ => true end]> d)
        ∅ (questions dataset).

(** What the two score dictionaries hold for [qid], given what the
    questions processed so far are. *)
Definition scores_inv (preds : gmap string string) (done : list QA.t)
    (acc : gmap string Z * gmap string Q) : Prop :=
  forall qid,
    (is_Some (fst acc !! qid) <->
     (exists qa, qa ∈ done /\ QA.id qa = qid) /\ is_Some (preds !! qid)) /\
    (is_Some (snd acc !! qid) <->
     (exists qa, qa ∈ done /\ QA.id qa = qid) /\ is_Some (preds !! qid)) /\
    (forall v, fst acc !! qid = Some v -> v = 0 \/ v = 1) /\
    (forall v, snd acc !! qid = Some v -> (0 <= v <= 1)%Q).


(** The inputs on which [find_best_thresh_v2] returns: every swept
    question id is a key of [qid_to_has_ans]; a scored question without
    gold answer has a prediction; there is a score; and some swept question
    has a gold answer. *)
Definition thresh_defined {F : Type} (preds : gmap string string)
    (scores : gmap string F) (na_probs : list (string * F))
    (qid_to_has_ans : gmap string bool) : Prop :=
  (forall qid p, (qid, p) ∈ na_probs -> is_Some (qid_to_has_ans !! qid)) /\
  (forall qid p, (qid, p) ∈ na_probs -> is_Some (scores !! qid) ->
     qid_to_has_ans !! qid = Some false -> is_Some (preds !! qid)) /\
  size scores <> 0%nat /\
  (exists qid p, (qid, p) ∈ na_probs /\ qid_to_has_ans !! qid = Some true).


(** A list is in descending order of [key]: no element is less than a
    later one. *)
Definition descending {F A : Type} (flt : F -> F -> bool) (key : A -> F)
    (l : list A) : Prop :=
  forall i j x y, (i < j)%nat -> l !! i = Some x -> l !! j = Some y ->
    flt (key x) (key y) = false.


(** ** The layout of a chunk's token sequence

    What precedes and what follows the document tokens of a chunk in
    [tokens], and the corresponding parts of [p_mask]. *)

Definition before_chunk (cfg : Config.t) (query_tokens : list string) : list string :=
  (if Config.cls_token_at_end cfg then [] else [Config.cls_token cfg])
  ++ (if Config.sequence_a_is_doc cfg then []
      else query_tokens ++ [Config.sep_token cfg]).

Definition after_chunk (cfg : Config.t) (query_tokens : list string) : list string :=
  (if Config.sequence_a_is_doc cfg then Config.sep_token cfg :: query_tokens else [])
  ++ [Config.sep_token cfg]
  ++ (if Config.cls_token_at_end cfg then [Config.cls_token cfg] else []).

Definition mask_before_chunk (cfg : Config.t) (query_tokens : list string) : list Z :=
  (if Config.cls_token_at_end cfg then [] else [0])
  ++ (if Config.sequence_a_is_doc cfg then []
      else replicate (List.length query_tokens) 1 ++ [1]).

Definition mask_after_chunk (cfg : Config.t) (query_tokens : list string) : list Z :=
  (if Config.sequence_a_is_doc cfg
   then 1 :: replicate (List.length query_tokens) 1 else [])
  ++ [1]
  ++ (if Config.cls_token_at_end cfg then [0] else []).

(** [chunk] holds the document sub-tokens of [doc_span], and the two
    dictionaries of [st] describe them at the positions from [offset] on. *)
Definition chunk_of (is_max : nat -> Z -> bool) (doc_span_index : nat)
    (doc_span : DocSpan.t) (tok_to_orig_index : list Z) (all_doc_tokens : list string)
    (offset : nat) (chunk : list string)
    (token_to_orig_map : gmap Z Z) (token_is_max_context : gmap Z bool) : Prop :=
  List.length chunk = Z.to_nat (DocSpan.length doc_span) /\
  forall i, (i < List.length chunk)%nat ->
    chunk !! i = py_index all_doc_tokens (DocSpan.start doc_span + Z.of_nat i) /\
    token_to_orig_map !! Z.of_nat (offset + i)
    = py_index tok_to_orig_index (DocSpan.start doc_span + Z.of_nat i) /\
    token_is_max_context !! Z.of_nat (offset + i)
    = Some (is_max doc_span_index (DocSpan.start doc_span + Z.of_nat i)).


(** ** Sub-tokenization of the document (lines 309-317), in closed form *)

Section SubTokens.
Variable tokenize : string -> list string.

(** The word index of every sub-token, for words numbered from [i]. *)
Fixpoint word_indexes (i : Z) (doc_tokens : list string) : list Z :=
  match doc_tokens with
  | [] => []
  | token :: rest => replicate (List.length (tokenize token)) i ++ word_indexes (i + 1) rest
  end.

(** The position of the first sub-token of every word, the first word
    starting at [offset]. *)
Fixpoint word_offsets (offset : Z) (doc_tokens : list string) : list Z :=
  match doc_tokens with
  | [] => []
  | token :: rest => offset :: word_offsets (offset + Zlen (tokenize token)) rest
  end.

(** The sub-tokens of the first [k] words. *)
Definition sub_tokens_before (k : nat) (doc_tokens : list string) : list string :=
  concat (map tokenize (take k doc_tokens)).

(** Lines 304-307: the sub-tokens of the question, truncated. *)
Definition query_tokens_of (cfg : Config.t) (example : Example.t) : list string :=
  let query_tokens := tokenize (Example.question_text example) in
  if Zlen query_tokens >? Config.max_query_length cfg
  then py_slice query_tokens 0 (Config.max_query_length cfg)
  else query_tokens.

End SubTokens.

(** ** The provenance of a feature *)

Section FeatureOrigin.
Context {F : Type}.
Variable F_of_Z : Z -> F.
Variable fadd fmul : F -> F -> F.
Variable f0_01 : F.
Variable fgt : F -> F -> bool.
Variable tokenize : string -> list string.
Variable convert_tokens_to_ids : list string -> list Z.

(** [feature] is what the builder makes of chunk [doc_span_index] of
    [example], with the intermediate values of lines 304-352. *)
Definition built_from (fuel : nat) (cfg : Config.t) (unique_id : Z)
    (example_index : nat) (example : Example.t)
    (tok_to_orig_index orig_to_tok_index : list Z) (all_doc_tokens : list string)
    (tok_position : option (Z * Z)) (doc_spans : list DocSpan.t)
    (doc_span_index : nat) (doc_span : DocSpan.t) (feature : Feature.t) : Prop :=
  tokenize_doc tokenize 0 (Example.doc_tokens example) [] [] []
  = (tok_to_orig_index, orig_to_tok_index, all_doc_tokens) /\
  tok_positions tokenize cfg example orig_to_tok_index all_doc_tokens
  = Some tok_position /\
  make_doc_spans fuel all_doc_tokens (query_tokens_of tokenize cfg example)
    (Config.max_seq_length cfg) (Config.doc_stride cfg) = Some doc_spans /\
  doc_spans !! doc_span_index = Some doc_span /\
  build_feature F_of_Z fadd fmul f0_01 fgt convert_tokens_to_ids cfg unique_id
    example_index example (query_tokens_of tokenize cfg example)
    tok_to_orig_index all_doc_tokens tok_position doc_spans doc_span_index doc_span
  = Some feature.

End FeatureOrigin.

(** A training example whose answer, [went home], is the last two words. *)
Definition toy_training_example : Example.t :=
  Example.mk "q1" "who went" ["the"; "man"; "went"; "home"]%string "went home"
    (Some 2) (Some 3) false.

(** ** [_strip_spaces] in closed form *)

(** The characters of [text] other than spaces, and their positions in
    [text], counted from [i]. *)
Fixpoint non_space_chars (text : string) : list ascii :=
  match text with
  | EmptyString => []
  | String c rest =>
      if Ascii.eqb c " " then non_space_chars rest else c :: non_space_chars rest
  end.

Fixpoint non_space_positions (i : Z) (text : string) : list Z :=
  match text with
  | EmptyString => []
  | String c rest =>
      if Ascii.eqb c " " then non_space_positions (i + 1) rest
      else i :: non_space_positions (i + 1) rest
  end.

(** ** Proof automation for list layouts *)

Ltac list_assoc :=
  repeat first [rewrite <- app_assoc | progress cbn [app]].

Ltac split_lookup H :=
  lazymatch type of H with
  | (_ ++ _) !! _ = Some _ =>
      let Hle := fresh "Hle" in
      apply lookup_app_Some in H as [H|[Hle H]]; split_lookup H
  | (_ :: _) !! _ = Some _ =>
      let Hz := fresh "Hz" in
      let Hv := fresh "Hv" in
      apply lookup_cons_Some in H as [[Hz Hv]|[Hz H]]; [|split_lookup H]
  | replicate _ _ !! _ = Some _ =>
      let Hv := fresh "Hv" in
      let Hlt := fresh "Hlt" in
      apply lookup_replicate in H as [Hv Hlt]
  | [] !! _ = Some _ => rewrite lookup_nil in H; discriminate H
  | _ => idtac
  end.

Ltac norm_lengths :=
  repeat match goal with
         | H : _ |- _ =>
             first [rewrite length_app in H | rewrite length_replicate in H]
         end;
  rewrite ?length_app, ?length_replicate;
  cbn [List.length] in *.
(* ===================================================================== *)
(** * Part II: properties *)
(* ===================================================================== *)

(** ** Sliding-window chunking *)

Lemma span_contains_spec ds p :
  span_contains ds p = true <->
  DocSpan.start ds <= p < DocSpan.start ds + DocSpan.length ds.
Proof.
  unfold span_contains. rewrite andb_true_iff, !negb_true_iff.
  rewrite Z.ltb_ge, Z.gtb_ltb, Z.ltb_ge. lia.
Qed.

Lemma doc_spans_loop_fuel_mono fuel : forall n budget stride s acc r,
  doc_spans_loop fuel n budget stride s acc = Some r ->
  doc_spans_loop (S fuel) n budget stride s acc = Some r.
Proof.
  induction fuel as [|fuel IH]; intros n budget stride s acc r H; [discriminate|].
  simpl in H. cbn [doc_spans_loop].
  destruct (s <? n); [|exact H].
  destruct (_ =? n); [exact H|].
  apply IH. exact H.
Qed.

Lemma doc_spans_loop_fuel_le fuel fuel' n budget stride s acc r :
  (fuel <= fuel')%nat ->
  doc_spans_loop fuel n budget stride s acc = Some r ->
  doc_spans_loop fuel' n budget stride s acc = Some r.
Proof.
  induction 1 as [|m _ IH]; [tauto|].
  intros H. apply doc_spans_loop_fuel_mono. auto.
Qed.

(** From any offset inside the document the loop finishes and what it
    appends covers the rest of the document. *)
Lemma doc_spans_loop_from n budget stride :
  0 < budget -> 0 < stride ->
  forall k s acc, 0 <= s < n -> (Z.to_nat (n - s) <= k)%nat ->
  exists tail last_span,
    doc_spans_loop k n budget stride s acc = Some (acc ++ tail ++ [last_span]) /\
    Forall (span_ok n budget) (tail ++ [last_span]) /\
    DocSpan.start last_span + DocSpan.length last_span = n /\
    (forall p, s <= p < n -> covered (tail ++ [last_span]) p).
Proof.
  intros Hb Hs. induction k as [|k IH]; intros s acc Hsn Hk; [lia|].
  cbn [doc_spans_loop].
  destruct (Z.ltb_spec s n) as [_|]; [|lia].
  set (len := if n - s >? budget then budget else n - s).
  assert (Hlen : 0 < len /\ len <= budget /\ s + len <= n).
  { unfold len. rewrite Z.gtb_ltb. destruct (Z.ltb_spec budget (n - s)); lia. }
  destruct (Z.eqb_spec (s + len) n) as [Heq|Hne].
  - exists [], (DocSpan.mk s len). cbn [app].
    split; [reflexivity|]. split; [|split].
    + constructor; [|constructor]. unfold span_ok; simpl; lia.
    + simpl; lia.
    + intros p Hp. exists (DocSpan.mk s len). split; [left; reflexivity|].
      apply span_contains_spec; simpl; lia.
  - destruct (IH (s + Z.min len stride) (acc ++ [DocSpan.mk s len]))
      as (tail & lst & Hrun & Hok & Hend & Hcov); [lia|lia|].
    exists (DocSpan.mk s len :: tail), lst.
    split; [|split; [|split]].
    + rewrite Hrun, <- app_assoc. reflexivity.
    + cbn [app]. constructor; [unfold span_ok; simpl; lia|exact Hok].
    + exact Hend.
    + intros p Hp. destruct (Z.lt_ge_cases p (s + Z.min len stride)) as [Hlt|Hge].
      * exists (DocSpan.mk s len). split; [left; reflexivity|].
        apply span_contains_spec; simpl; lia.
      * destruct (Hcov p) as (ds & Hin & Hc); [lia|].
        exists ds. split; [right; exact Hin|exact Hc].
Qed.

Lemma doc_spans_loop_zero_stride fuel : forall acc,
  doc_spans_loop fuel 2 1 0 0 acc = None.
Proof.
  induction fuel as [|fuel IH]; intros acc; [reflexivity|].
  cbn. apply IH.
Qed.

(** C3, as stated (positive budget only): refuted by a zero stride, where
    the window never advances and the loop does not finish. *)
Lemma chunking_zero_stride_diverges :
  0 < max_tokens_for_doc 4 [] /\ ["a"; "b"]%string <> [] /\
  ~ chunking_succeeds ["a"; "b"]%string [] 4 0.
Proof.
  split; [reflexivity|]. split; [discriminate|].
  intros (fuel & spans & Hrun & _).
  specialize (Hrun fuel (le_n _)). unfold make_doc_spans in Hrun.
  change (doc_spans_loop fuel 2 1 0 0 [] = Some spans) in Hrun.
  rewrite doc_spans_loop_zero_stride in Hrun. discriminate.
Qed.

(** C3 (amended): for a non-empty sub-tokenized document, a positive
    document budget [max_seq_length - len(query_tokens) - 3] and a positive
    [doc_stride], the DocSpan loop finishes (for every large enough fuel,
    with the same result); every document sub-token index lies in some
    span, no span is longer than the budget or reaches past the document,
    and the last span ends exactly at the last sub-token. *)
Theorem chunking_covers_document
    (all_doc_tokens query_tokens : list string) (max_seq_length doc_stride : Z) :
  all_doc_tokens <> [] ->
  0 < max_tokens_for_doc max_seq_length query_tokens ->
  0 < doc_stride ->
  chunking_succeeds all_doc_tokens query_tokens max_seq_length doc_stride.
Proof.
  intros Hne Hb Hs. unfold chunking_succeeds.
  set (n := Z.of_nat (List.length all_doc_tokens)).
  set (budget := max_tokens_for_doc max_seq_length query_tokens).
  assert (Hn : 0 < n).
  { unfold n. destruct all_doc_tokens; [congruence|]. cbn [List.length]. lia. }
  destruct (doc_spans_loop_from n budget doc_stride Hb Hs (Z.to_nat n) 0 [])
    as (tail & lst & Hrun & Hok & Hend & Hcov); [lia| |].
  { rewrite Z.sub_0_r. apply le_n. }
  exists (Z.to_nat n), (tail ++ [lst]). split; [|split; [|split]].
  - intros fuel' Hle. unfold make_doc_spans.
    eapply doc_spans_loop_fuel_le; [exact Hle|exact Hrun].
  - exact Hcov.
  - intros ds Hin. rewrite Forall_forall in Hok.
    destruct (Hok ds) as (_ & _ & ? & ?); [apply list_elem_of_In; exact Hin|].
    split; assumption.
  - exists lst. split; [apply last_last|]. split; [|exact Hend].
    apply in_or_app. right. left. reflexivity.
Qed.

Lemma chunking_covers_document_witness :
  chunking_succeeds ["the"; "man"; "went"; "home"]%string ["who"]%string 7 1.
Proof.
  apply chunking_covers_document; [discriminate|reflexivity|reflexivity].
Defined.

Example make_doc_spans_stride_1 :
  make_doc_spans 10 ["the"; "man"; "went"; "home"]%string ["who"]%string 7 1
  = Some [DocSpan.mk 0 3; DocSpan.mk 1 3].
Proof. reflexivity. Qed.

(** ** Max-context resolver *)

Section MaxContextProps.
Context {F : Type}.
Variable F_of_Z : Z -> F.
Variable fadd fmul : F -> F -> F.
Variable f0_01 : F.
Variable fgt : F -> F -> bool.

(** Float [>] on the (finite) scores is a strict weak order. *)
Hypothesis fgt_irrefl : forall x, fgt x x = false.
Hypothesis fgt_trans : forall x y z, fgt x y = true -> fgt y z = true -> fgt x z = true.
Hypothesis fgt_negtrans :
  forall x y z, fgt x y = false -> fgt y z = false -> fgt x z = false.

Local Abbreviation score := (span_score F_of_Z fadd fmul f0_01).
Local Abbreviation loop := (max_context_loop F_of_Z fadd fmul f0_01 fgt).
Local Abbreviation inv := (max_context_inv F_of_Z fadd fmul f0_01 fgt).
Local Abbreviation fbest := (first_best F_of_Z fadd fmul f0_01 fgt).

Lemma span_contains_tests ds position :
  span_contains ds position =
  negb (position <? DocSpan.start ds)
  && negb (position >? DocSpan.start ds + DocSpan.length ds - 1).
Proof. reflexivity. Qed.

Lemma max_context_inv_skip seen ds position best :
  span_contains ds position = false ->
  inv seen position best -> inv (seen ++ [ds]) position best.
Proof.
  intros Hout [[-> Hnone]|(b & ds_b & -> & Hb & Hin & Hmax & Hfirst)].
  - left. split; [reflexivity|]. intros j d Hj.
    apply lookup_app_Some in Hj as [Hj|[_ Hj]]; [eauto|].
    apply list_lookup_singleton_Some in Hj as [_ <-]. exact Hout.
  - right. exists b, ds_b. split; [reflexivity|].
    split; [apply lookup_app_l_Some; exact Hb|]. split; [exact Hin|]. split.
    + intros j d Hj Hd. apply lookup_app_Some in Hj as [Hj|[_ Hj]]; [eauto|].
      apply list_lookup_singleton_Some in Hj as [_ <-]. congruence.
    + intros j d Hlt Hj Hd. apply lookup_app_Some in Hj as [Hj|[Hge _]]; [eauto|].
      apply lookup_lt_Some in Hb. lia.
Qed.

Lemma max_context_inv_step seen ds position best :
  span_contains ds position = true ->
  inv seen position best ->
  inv (seen ++ [ds]) position
    (if match fst best with
        | None => true
        | Some best_score => fgt (score ds position) best_score
        end
     then (Some (score ds position), Some (List.length seen)) else best).
Proof.
  intros Hds [[-> Hnone]|(b & ds_b & -> & Hb & Hin & Hmax & Hfirst)]; cbn [fst].
  - right. exists (List.length seen), ds. split; [reflexivity|].
    split; [apply list_lookup_middle; reflexivity|]. split; [exact Hds|]. split.
    + intros j d Hj Hd. apply lookup_app_Some in Hj as [Hj|[_ Hj]].
      * rewrite (Hnone _ _ Hj) in Hd. discriminate.
      * apply list_lookup_singleton_Some in Hj as [_ <-]. apply fgt_irrefl.
    + intros j d Hlt Hj Hd. rewrite lookup_app_l in Hj by exact Hlt.
      rewrite (Hnone _ _ Hj) in Hd. discriminate.
  - destruct (fgt (score ds position) (score ds_b position)) eqn:Hgt.
    + right. exists (List.length seen), ds. split; [reflexivity|].
      split; [apply list_lookup_middle; reflexivity|]. split; [exact Hds|]. split.
      * intros j d Hj Hd. apply lookup_app_Some in Hj as [Hj|[_ Hj]].
        -- destruct (fgt (score d position) (score ds position)) eqn:Hc; [|reflexivity].
           rewrite <- (Hmax _ _ Hj Hd). symmetry. eapply fgt_trans; eassumption.
        -- apply list_lookup_singleton_Some in Hj as [_ <-]. apply fgt_irrefl.
      * intros j d Hlt Hj Hd. rewrite lookup_app_l in Hj by exact Hlt.
        destruct (fgt (score ds position) (score d position)) eqn:Hc; [reflexivity|].
        rewrite <- Hgt. symmetry. eapply fgt_negtrans; [exact Hc|eauto].
    + right. exists b, ds_b. split; [reflexivity|].
      split; [apply lookup_app_l_Some; exact Hb|]. split; [exact Hin|]. split.
      * intros j d Hj Hd. apply lookup_app_Some in Hj as [Hj|[_ Hj]]; [eauto|].
        apply list_lookup_singleton_Some in Hj as [_ <-]. exact Hgt.
      * intros j d Hlt Hj Hd. apply lookup_app_Some in Hj as [Hj|[Hge _]]; [eauto|].
        apply lookup_lt_Some in Hb. lia.
Qed.

Lemma max_context_loop_inv rest : forall seen position best,
  inv seen position best ->
  inv (seen ++ rest) position (loop (List.length seen) rest position best).
Proof.
  induction rest as [|ds rest IH]; intros seen position best Hinv.
  - rewrite app_nil_r. exact Hinv.
  - cbn [max_context_loop].
    replace (seen ++ ds :: rest) with ((seen ++ [ds]) ++ rest)
      by (rewrite <- app_assoc; reflexivity).
    replace (S (List.length seen)) with (List.length (seen ++ [ds]))
      by (rewrite length_app; cbn; lia).
    pose proof (span_contains_tests ds position) as Hc.
    destruct (position <? DocSpan.start ds).
    { apply IH, max_context_inv_skip; [exact Hc|exact Hinv]. }
    destruct (position >? DocSpan.start ds + DocSpan.length ds - 1).
    { apply IH, max_context_inv_skip; [exact Hc|exact Hinv]. }
    apply IH. exact (max_context_inv_step seen ds position best Hc Hinv).
Qed.

(** C1: whenever some span contains the position, the resolver answers
    [True] for exactly one span index [b]; span [b] contains the position,
    no containing span has a strictly greater score
    [min(left, right) + 0.01 * length], and every containing span enumerated
    before [b] has a strictly smaller one (first-seen wins on equal score).
    This holds for every list of spans, in particular for those the
    chunking loop produces. *)
Theorem check_is_max_context_unique_owner (doc_spans : list DocSpan.t) (position : Z) :
  (exists i ds, doc_spans !! i = Some ds /\ span_contains ds position = true) ->
  exists b ds_b,
    fbest doc_spans position b ds_b /\
    forall cur_span_index,
      _check_is_max_context F_of_Z fadd fmul f0_01 fgt doc_spans cur_span_index position
      = true <-> cur_span_index = b.
Proof.
  intros (i & ds & Hi & Hds).
  assert (Hinit : inv [] position (None, None)).
  { left. split; [reflexivity|]. intros j d Hj. rewrite lookup_nil in Hj. discriminate. }
  pose proof (max_context_loop_inv doc_spans [] position _ Hinit) as Hfin.
  cbn [app List.length] in Hfin.
  unfold _check_is_max_context, best_span_index.
  destruct Hfin as [[_ Hnone]|(b & ds_b & -> & Hbest)].
  - rewrite (Hnone _ _ Hi) in Hds. discriminate.
  - exists b, ds_b. split; [exact Hbest|].
    intros cur. cbn [snd]. apply Nat.eqb_eq.
Qed.

End MaxContextProps.

Lemma Qgtb_lt x y : Qgtb x y = true <-> (y < x)%Q.
Proof.
  unfold Qgtb. rewrite negb_true_iff, <- not_true_iff_false, Qle_bool_iff.
  split; [apply Qnot_le_lt|apply Qlt_not_le].
Qed.

Lemma Qgtb_le x y : Qgtb x y = false <-> (x <= y)%Q.
Proof. unfold Qgtb. rewrite negb_false_iff. apply Qle_bool_iff. Qed.

Lemma Qgtb_irrefl x : Qgtb x x = false.
Proof. apply Qgtb_le, Qle_refl. Qed.

Lemma Qgtb_trans x y z : Qgtb x y = true -> Qgtb y z = true -> Qgtb x z = true.
Proof. rewrite !Qgtb_lt. intros H1 H2. eapply Qlt_trans; eassumption. Qed.

Lemma Qgtb_negtrans x y z : Qgtb x y = false -> Qgtb y z = false -> Qgtb x z = false.
Proof. rewrite !Qgtb_le. apply Qle_trans. Qed.

(** The example of the source comment: the word at position 7 ('bought')
    lies in spans B and C and is owned by C. *)
Lemma check_is_max_context_unique_owner_witness :
  exists b ds_b,
    first_best inject_Z Qplus Qmult (1 # 100)%Q Qgtb
      [DocSpan.mk 0 5; DocSpan.mk 3 5; DocSpan.mk 6 5] 7 b ds_b /\
    forall cur_span_index,
      check_is_max_context_Q [DocSpan.mk 0 5; DocSpan.mk 3 5; DocSpan.mk 6 5]
        cur_span_index 7 = true <-> cur_span_index = b.
Proof.
  apply (check_is_max_context_unique_owner inject_Z Qplus Qmult (1 # 100)%Q Qgtb
           Qgtb_irrefl Qgtb_trans Qgtb_negtrans).
  exists 1%nat, (DocSpan.mk 3 5). split; reflexivity.
Defined.

Example check_is_max_context_bought :
  check_is_max_context_Q [DocSpan.mk 0 5; DocSpan.mk 3 5; DocSpan.mk 6 5] 1 7 = false /\
  check_is_max_context_Q [DocSpan.mk 0 5; DocSpan.mk 3 5; DocSpan.mk 6 5] 2 7 = true.
Proof. split; reflexivity. Qed.

(** ** Scorer *)

Example normalize_the_japan : normalize_answer "The Japan." = "japan"%string.
Proof. vm_compute. reflexivity. Qed.

Example f1_the_japan : (compute_f1 "the japan" "Japan" == 1)%Q.
Proof. vm_compute. reflexivity. Qed.

(** ** Feature builder: the padding invariant *)

Section FeatureBuilderProps.
Context {F : Type}.
Variable F_of_Z : Z -> F.
Variable fadd fmul : F -> F -> F.
Variable f0_01 : F.
Variable fgt : F -> F -> bool.
Variable tokenize : string -> list string.
Variable convert_tokens_to_ids : list string -> list Z.

Local Abbreviation assemble' :=
  (assemble F_of_Z fadd fmul f0_01 fgt).
Local Abbreviation build_feature' :=
  (build_feature F_of_Z fadd fmul f0_01 fgt convert_tokens_to_ids).
Local Abbreviation build_features' :=
  (build_features F_of_Z fadd fmul f0_01 fgt convert_tokens_to_ids).
Local Abbreviation convert_example' :=
  (convert_example F_of_Z fadd fmul f0_01 fgt tokenize convert_tokens_to_ids).
Local Abbreviation convert_examples_loop' :=
  (convert_examples_loop F_of_Z fadd fmul f0_01 fgt tokenize convert_tokens_to_ids).

Lemma chunk_aligned_append st tok seg pm :
  chunk_aligned st -> chunk_aligned (Chunk.append st tok seg pm).
Proof. unfold chunk_aligned. cbn. rewrite !length_app. cbn. lia. Qed.

Lemma chunk_aligned_extend st toks seg :
  chunk_aligned st -> chunk_aligned (Chunk.extend st toks seg).
Proof. unfold chunk_aligned. cbn. rewrite !length_app, !length_replicate. lia. Qed.

Lemma chunk_aligned_paragraph_loop cfg doc_spans k ds t2o all indices : forall st st',
  chunk_aligned st ->
  paragraph_loop (paragraph_step F_of_Z fadd fmul f0_01 fgt cfg doc_spans k ds t2o all)
    st indices = Some st' ->
  chunk_aligned st'.
Proof.
  induction indices as [|i rest IH]; intros st st' Hal Hrun; cbn in Hrun.
  - congruence.
  - destruct (paragraph_step F_of_Z fadd fmul f0_01 fgt cfg doc_spans k ds t2o all st i) as [st1|] eqn:Hstep;
      [|discriminate].
    cbn in Hrun. apply (IH st1 st'); [|exact Hrun].
    unfold paragraph_step in Hstep.
    destruct (py_index t2o _); [|discriminate]. cbn in Hstep.
    destruct (py_index all _); [|discriminate]. cbn in Hstep.
    injection Hstep as <-. unfold chunk_aligned in *. cbn.
    rewrite !length_app. cbn. lia.
Qed.

Lemma assemble_aligned cfg query_tokens doc_spans k ds t2o all st cls_index :
  assemble' cfg query_tokens doc_spans k ds t2o all = Some (st, cls_index) ->
  chunk_aligned st.
Proof.
  unfold assemble. intros H.
  match type of H with
  | context [paragraph_loop ?step ?st0 ?ix] =>
      destruct (paragraph_loop step st0 ix) as [st1|] eqn:Hloop; [|discriminate];
      assert (Hal : chunk_aligned st1)
  end.
  { eapply chunk_aligned_paragraph_loop; [|exact Hloop].
    destruct (Config.cls_token_at_end cfg), (Config.sequence_a_is_doc cfg); cbn;
      repeat first [apply chunk_aligned_append | apply chunk_aligned_extend];
      reflexivity. }
  cbn in H. injection H as <- _.
  destruct (Config.cls_token_at_end cfg), (Config.sequence_a_is_doc cfg); cbn;
    repeat first [apply chunk_aligned_append | apply chunk_aligned_extend];
    exact Hal.
Qed.

Lemma pad_loop_lengths cfg rounds : forall p,
  let q := pad_loop cfg rounds p in
  List.length (Padded.input_ids q) = (List.length (Padded.input_ids p) + rounds)%nat /\
  List.length (Padded.input_mask q) = (List.length (Padded.input_mask p) + rounds)%nat /\
  List.length (Padded.segment_ids q) = (List.length (Padded.segment_ids p) + rounds)%nat /\
  List.length (Padded.p_mask q) = (List.length (Padded.p_mask p) + rounds)%nat.
Proof.
  induction rounds as [|r IH]; intros p; cbn.
  - repeat split; lia.
  - destruct (IH (Padded.mk
           (Padded.input_ids p ++ [Config.pad_token cfg])
           (Padded.input_mask p ++ [if Config.mask_padding_with_zero cfg then 0 else 1])
           (Padded.segment_ids p ++ [Config.pad_token_segment_id cfg])
           (Padded.p_mask p ++ [1]))) as (H1 & H2 & H3 & H4).
    cbn in H1, H2, H3, H4. rewrite length_app in H1, H2, H3, H4. cbn in H1, H2, H3, H4.
    repeat split; lia.
Qed.

(** After padding, [p_mask] is as long as [segment_ids]. *)
Lemma pad_p_mask_segment_ids cfg st :
  chunk_aligned st ->
  Zlen (Padded.p_mask (pad convert_tokens_to_ids cfg st))
  = Zlen (Padded.segment_ids (pad convert_tokens_to_ids cfg st)).
Proof.
  intros Hal. unfold pad, Zlen.
  match goal with
  | |- context [pad_loop cfg ?r ?p] =>
      destruct (pad_loop_lengths cfg r p) as (_ & _ & H3 & H4)
  end.
  cbn in H3, H4. rewrite H3, H4. unfold chunk_aligned in Hal. lia.
Qed.

Lemma asserts_hold_spec cfg p :
  asserts_hold cfg p = true <->
  Zlen (Padded.input_ids p) = Config.max_seq_length cfg /\
  Zlen (Padded.input_mask p) = Config.max_seq_length cfg /\
  Zlen (Padded.segment_ids p) = Config.max_seq_length cfg.
Proof. unfold asserts_hold. rewrite !andb_true_iff, !Z.eqb_eq. tauto. Qed.

Lemma build_feature_padded cfg uid ei ex q t2o all tp doc_spans k ds f :
  build_feature' cfg uid ei ex q t2o all tp doc_spans k ds = Some f ->
  padded_to (Config.max_seq_length cfg) f.
Proof.
  unfold build_feature. intros H.
  destruct (assemble' cfg q doc_spans k ds t2o all) as [[st cls]|] eqn:Has; [|discriminate].
  cbn in H.
  destruct (asserts_hold cfg _) eqn:Hassert; [|discriminate].
  destruct (place_labels _ _ _ _ _ _) as [[[sp ep] imp]|]; [|discriminate].
  cbn in H. injection H as <-.
  apply asserts_hold_spec in Hassert as (H1 & H2 & H3).
  unfold padded_to; cbn. repeat split; try assumption.
  rewrite pad_p_mask_segment_ids; [exact H3|].
  eapply assemble_aligned; exact Has.
Qed.

Lemma build_features_padded cfg ei ex q t2o all tp doc_spans todo : forall uid features,
  build_features' cfg uid ei ex q t2o all tp doc_spans todo = Some features ->
  Forall (padded_to (Config.max_seq_length cfg)) features.
Proof.
  induction todo as [|[k ds] rest IH]; intros uid features H; cbn in H.
  - injection H as <-. constructor.
  - destruct (build_feature' cfg uid ei ex q t2o all tp doc_spans k ds) as [f|] eqn:Hf;
      [|discriminate].
    cbn in H.
    destruct (build_features' cfg (uid + 1) ei ex q t2o all tp doc_spans rest) as [fs|] eqn:Hfs;
      [|discriminate].
    cbn in H. injection H as <-. constructor.
    + eapply build_feature_padded; exact Hf.
    + eapply IH; exact Hfs.
Qed.

Lemma convert_example_padded fuel cfg uid ei ex features :
  convert_example' fuel cfg uid ei ex = Some features ->
  Forall (padded_to (Config.max_seq_length cfg)) features.
Proof.
  unfold convert_example. intros H.
  destruct (tokenize_doc tokenize _ _ _ _ _) as [[t2o o2t] all].
  destruct (tok_positions tokenize _ _ _ _) as [tp|]; [|discriminate]. cbn in H.
  destruct (make_doc_spans _ _ _ _ _) as [spans|]; [|discriminate]. cbn in H.
  eapply build_features_padded; exact H.
Qed.

Lemma convert_examples_loop_padded fuel cfg todo : forall uid acc features,
  Forall (padded_to (Config.max_seq_length cfg)) acc ->
  convert_examples_loop' fuel cfg uid todo acc = Some features ->
  Forall (padded_to (Config.max_seq_length cfg)) features.
Proof.
  induction todo as [|[ei ex] rest IH]; intros uid acc features Hacc H; cbn in H.
  - injection H as <-. exact Hacc.
  - destruct (convert_example' fuel cfg uid ei ex) as [new|] eqn:Hnew;
      [|discriminate].
    cbn in H. eapply IH; [|exact H].
    apply Forall_app. split; [exact Hacc|].
    eapply convert_example_padded; exact Hnew.
Qed.

(** C6: every feature that [_convert_examples_to_features] produces has
    [input_ids], [input_mask], [segment_ids] and [p_mask] of length exactly
    [max_seq_length]; and whenever one of the four padded sequences of a
    chunk has another length, building that chunk's feature fails (the
    assertions fire) instead of yielding a feature. *)
Theorem features_padded_or_fatal :
  (forall fuel cfg examples features,
     _convert_examples_to_features F_of_Z fadd fmul f0_01 fgt tokenize
       convert_tokens_to_ids fuel cfg examples = Some features ->
     Forall (padded_to (Config.max_seq_length cfg)) features) /\
  (forall cfg uid ei ex q t2o all tp doc_spans k ds st cls_index,
     assemble' cfg q doc_spans k ds t2o all = Some (st, cls_index) ->
     let p := pad convert_tokens_to_ids cfg st in
     Zlen (Padded.input_ids p) <> Config.max_seq_length cfg \/
     Zlen (Padded.input_mask p) <> Config.max_seq_length cfg \/
     Zlen (Padded.segment_ids p) <> Config.max_seq_length cfg \/
     Zlen (Padded.p_mask p) <> Config.max_seq_length cfg ->
     build_feature' cfg uid ei ex q t2o all tp doc_spans k ds = None).
Proof.
  split.
  - intros fuel cfg examples features H.
    eapply convert_examples_loop_padded; [|exact H]. constructor.
  - intros cfg uid ei ex q t2o all tp doc_spans k ds st cls_index Has p Hbad.
    unfold build_feature. rewrite Has. cbn.
    fold p. destruct (asserts_hold cfg p) eqn:Hassert; [|reflexivity].
    exfalso. apply asserts_hold_spec in Hassert as (H1 & H2 & H3).
    pose proof (pad_p_mask_segment_ids cfg st (assemble_aligned _ _ _ _ _ _ _ _ _ Has)) as H4.
    fold p in H4. intuition congruence.
Qed.

End FeatureBuilderProps.

Example toy_features_tokens :
  option_map (map Feature.tokens) (toy_features (Config.default 8 1 64 false) [toy_example])
  = Some [["[CLS]"; "who"; "went"; "[SEP]"; "the"; "man"; "went"; "[SEP]"];
          ["[CLS]"; "who"; "went"; "[SEP]"; "man"; "went"; "home"; "[SEP]"]]%string.
Proof. vm_compute. reflexivity. Qed.

Lemma features_padded_or_fatal_witness :
  (exists features,
     toy_features (Config.default 8 1 64 false) [toy_example] = Some features /\
     Forall (padded_to 8) features) /\
  build_feature inject_Z Qplus Qmult (1 # 100)%Q Qgtb (fun _ => [])
    (Config.default 8 1 64 false) 0 0 toy_example ["who"; "went"]%string
    [0; 1; 2; 3] ["the"; "man"; "went"; "home"]%string None
    [DocSpan.mk 0 3; DocSpan.mk 1 3] 0 (DocSpan.mk 0 3) = None.
Proof.
  split.
  - eexists. split; [vm_compute; reflexivity|].
    apply (proj1 (features_padded_or_fatal inject_Z Qplus Qmult (1 # 100)%Q Qgtb
                    split toy_ids) 10%nat (Config.default 8 1 64 false) [toy_example]).
    vm_compute. reflexivity.
  - eapply (proj2 (features_padded_or_fatal inject_Z Qplus Qmult (1 # 100)%Q Qgtb
                     split (fun _ => []))).
    + vm_compute. reflexivity.
    + right. right. left. vm_compute. discriminate.
Defined.

Lemma f1_of_tokens_empty_both : f1_of_tokens [] [] = 1%Q.
Proof. reflexivity. Qed.

Lemma f1_of_tokens_empty_one gold_toks pred_toks :
  gold_toks = [] \/ pred_toks = [] -> gold_toks <> pred_toks ->
  f1_of_tokens gold_toks pred_toks = 0%Q.
Proof.
  intros Hempty Hne. unfold f1_of_tokens.
  assert (Hlen : (List.length gold_toks =? 0)%nat || (List.length pred_toks =? 0)%nat = true).
  { destruct Hempty as [-> | ->]; cbn; [reflexivity|apply orb_true_r]. }
  rewrite Hlen. destruct (decide (gold_toks = pred_toks)); [contradiction|reflexivity].
Qed.

Lemma Qlen_pos {A : Type} (l : list A) : l <> [] -> (0 < Qlen l)%Q.
Proof.
  intros Hne. unfold Qlen. destruct l as [|x l]; [congruence|].
  change 0%Q with (inject_Z 0). rewrite <- Zlt_Qlt. cbn [List.length]. lia.
Qed.

Lemma f1_of_tokens_sym gold_toks pred_toks :
  (f1_of_tokens gold_toks pred_toks == f1_of_tokens pred_toks gold_toks)%Q.
Proof.
  unfold f1_of_tokens.
  rewrite (comm_L (∩) (list_to_set_disj pred_toks) (list_to_set_disj gold_toks)).
  rewrite (orb_comm (List.length pred_toks =? 0)%nat).
  destruct ((List.length gold_toks =? 0)%nat || (List.length pred_toks =? 0)%nat).
  - destruct (decide (gold_toks = pred_toks)), (decide (pred_toks = gold_toks));
      congruence || reflexivity.
  - destruct (size _ =? 0)%nat; [reflexivity|].
    set (p := (1 * _ / Qlen pred_toks)%Q). set (r := (1 * _ / Qlen gold_toks)%Q).
    assert (Hnum : (2 * p * r == 2 * r * p)%Q) by ring.
    rewrite Hnum, (Qplus_comm p r). reflexivity.
Qed.

(** C10: [compute_f1] is symmetric in its two arguments. *)
Theorem compute_f1_symmetric (a_gold a_pred : string) :
  (compute_f1 a_gold a_pred == compute_f1 a_pred a_gold)%Q.
Proof. unfold compute_f1. apply f1_of_tokens_sym. Qed.

(** ** Text re-aligner *)

Lemma append_cons c s t : (String c s +:+ t = String c (s +:+ t))%string.
Proof. reflexivity. Qed.

Lemma append_empty t : ("" +:+ t = t)%string.
Proof. reflexivity. Qed.

Lemma prefix_occurs sub text :
  String.prefix sub text = true <-> exists after, text = (sub +:+ after)%string.
Proof.
  revert text. induction sub as [|c sub IH]; intros text; cbn.
  - split; [intros _; exists text; reflexivity|].
    intros _. destruct text; reflexivity.
  - destruct text as [|d text]; cbn.
    + split; [discriminate|]. intros [after H]. rewrite append_cons in H. discriminate.
    + destruct (Ascii.ascii_dec c d) as [->|Hne].
      * rewrite IH. split; intros [after H]; exists after;
          rewrite append_cons in *; congruence.
      * split; [discriminate|]. intros [after H]. rewrite append_cons in H. congruence.
Qed.

Lemma find_from_eq sub text i :
  find_from sub text i =
  if String.prefix sub text then Some i
  else match text with
       | EmptyString => None
       | String _ rest => find_from sub rest (S i)
       end.
Proof. destruct text; reflexivity. Qed.

Lemma find_from_none sub text : forall i,
  find_from sub text i = None -> ~ occurs_in sub text.
Proof.
  induction text as [|c text IH]; intros i H; rewrite find_from_eq in H.
  - destruct (String.prefix sub "") eqn:Hp; [discriminate|].
    intros (before & after & Heq).
    destruct before; [|rewrite append_cons in Heq; discriminate].
    rewrite append_empty in Heq.
    assert (String.prefix sub "" = true) by (apply prefix_occurs; eauto).
    congruence.
  - destruct (String.prefix sub (String c text)) eqn:Hp; [discriminate|].
    intros (before & after & Heq). destruct before as [|b before].
    + rewrite append_empty in Heq.
      assert (String.prefix sub (String c text) = true) by (apply prefix_occurs; eauto).
      congruence.
    + rewrite append_cons in Heq. injection Heq as _ Heq.
      apply (IH _ H). exists before, after. exact Heq.
Qed.

Lemma find_from_some sub text : forall i k,
  find_from sub text i = Some k -> occurs_in sub text /\ (i <= k)%nat.
Proof.
  induction text as [|c text IH]; intros i k H; rewrite find_from_eq in H.
  - destruct (String.prefix sub "") eqn:Hp; [|discriminate].
    apply prefix_occurs in Hp as [after Hp]. injection H as <-.
    split; [exists ""%string, after; exact Hp|lia].
  - destruct (String.prefix sub (String c text)) eqn:Hp.
    + apply prefix_occurs in Hp as [after Hp]. injection H as <-.
      split; [exists ""%string, after; exact Hp|lia].
    + destruct (IH _ _ H) as [(before & after & Heq) Hle].
      split; [|lia]. exists (String c before), after.
      rewrite append_cons. congruence.
Qed.

(** [find] answers [-1] exactly when there is no occurrence. *)
Lemma find_not_found text sub : find text sub = -1 <-> ~ occurs_in sub text.
Proof.
  unfold find. destruct (find_from sub text 0) as [k|] eqn:Hf.
  - apply find_from_some in Hf as [Hocc _]. split; [lia|tauto].
  - split; [intros _; eapply find_from_none; exact Hf|reflexivity].
Qed.

Section RealignProps.
Variable basic_tokenize : bool -> string -> list string.

(** C8: when [pred_text] does not occur in the space-joined basic
    tokenization of [orig_text], or the space-stripped forms of the two
    differ in length, or the translation of the start or of the end
    position through the stripped-index maps misses, [get_final_text]
    returns [orig_text] unchanged.  The function is total: no case raises. *)
Theorem get_final_text_falls_back (pred_text orig_text : string) (do_lower_case : bool) :
  let tok_text := join " " (basic_tokenize do_lower_case orig_text) in
  let start_position := find tok_text pred_text in
  let end_position := start_position + Z.of_nat (String.length pred_text) - 1 in
  let tok_s_to_ns_map := invert_map (snd (_strip_spaces tok_text)) in
  let orig_ns_to_s_map := snd (_strip_spaces orig_text) in
  ~ occurs_in pred_text tok_text \/
  String.length (fst (_strip_spaces orig_text))
    <> String.length (fst (_strip_spaces tok_text)) \/
  translation_fails tok_s_to_ns_map orig_ns_to_s_map start_position \/
  translation_fails tok_s_to_ns_map orig_ns_to_s_map end_position ->
  get_final_text basic_tokenize pred_text orig_text do_lower_case = orig_text.
Proof.
  intros tok_text start_position end_position tok_s_to_ns_map orig_ns_to_s_map H.
  unfold get_final_text. fold tok_text. fold start_position.
  destruct (Z.eqb_spec start_position (-1)) as [|Hfound]; [reflexivity|].
  destruct H as [Hno|H].
  { apply find_not_found in Hno. contradiction. }
  fold end_position. subst tok_s_to_ns_map orig_ns_to_s_map.
  destruct (_strip_spaces orig_text) as [orig_ns_text o_map].
  destruct (_strip_spaces tok_text) as [tok_ns_text t_map].
  cbn [fst snd] in H.
  destruct (Nat.eqb_spec (String.length orig_ns_text) (String.length tok_ns_text))
    as [Hlen|Hlen]; cbn [negb]; [|reflexivity].
  destruct H as [Hne|[Hs|He]]; [contradiction| |].
  - destruct Hs as [-> | (ns & -> & ->)]; reflexivity.
  - destruct (match invert_map t_map !! start_position with
              | Some ns => o_map !! ns
              | None => None
              end); [|reflexivity].
    destruct He as [-> | (ns & -> & ->)]; reflexivity.
Qed.

End RealignProps.

(** The example of the source comment, with the tokenization that
    [BasicTokenizer] gives for it. *)
Example get_final_text_steve_smith :
  get_final_text (fun _ _ => ["steve"; "smith"; "'"; "s"]%string)
    "steve smith" "Steve Smith's" true = "Steve Smith"%string.
Proof. vm_compute. reflexivity. Qed.

Lemma get_final_text_falls_back_witness :
  get_final_text (fun _ _ => ["steve"; "smith"; "'"; "s"]%string)
    "john" "Steve Smith's" true = "Steve Smith's"%string /\
  get_final_text (fun _ _ => ["steve"; "smith"]%string)
    "steve" "Steve Smith's" true = "Steve Smith's"%string.
Proof.
  split.
  - apply (get_final_text_falls_back (fun _ _ => ["steve"; "smith"; "'"; "s"]%string)).
    left. apply find_not_found. vm_compute. reflexivity.
  - apply (get_final_text_falls_back (fun _ _ => ["steve"; "smith"]%string)).
    right. left. vm_compute. lia.
Defined.

(** ** Span decoders: validity of the preliminary predictions *)

Lemma elem_of_enumerate_from {A : Type} (l : list A) : forall k i x,
  (i, x) ∈ enumerate_from k l -> (k <= i)%nat /\ l !! (i - k)%nat = Some x.
Proof.
  induction l as [|y l IH]; intros k i x Hin; cbn in Hin.
  - apply elem_of_nil in Hin. contradiction.
  - apply elem_of_cons in Hin as [Heq|Hin].
    + injection Heq as -> ->. split; [lia|]. rewrite Nat.sub_diag. reflexivity.
    + apply IH in Hin as [Hle Hl]. split; [lia|].
      replace (i - k)%nat with (S (i - S k)) by lia. exact Hl.
Qed.

Lemma elem_of_enumerate {A : Type} (l : list A) i x :
  (i, x) ∈ enumerate l -> l !! i = Some x.
Proof.
  intros Hin. apply elem_of_enumerate_from in Hin as [_ Hl].
  rewrite Nat.sub_0_r in Hl. exact Hl.
Qed.

Lemma has_key_default_true (k : Z) (d : gmap Z bool) :
  default false (d !! k) = true -> has_key k d = true.
Proof. unfold has_key. destruct (d !! k); [reflexivity|discriminate]. Qed.

Lemma default_false_true (k : Z) (d : gmap Z bool) :
  default false (d !! k) = true -> d !! k = Some true.
Proof. destruct (d !! k) as [[|]|]; cbn; congruence. Qed.

Section PrelimProps.
Context {F : Type}.
Variable F_of_Z : Z -> F.
Variable fadd : F -> F -> F.
Variable flt : F -> F -> bool.
Variable n_best_size max_answer_length : Z.
Variable version_2_with_negative : bool.
Variable start_n_top end_n_top : Z.

Local Abbreviation feature_predictions' :=
  (feature_predictions flt n_best_size max_answer_length).
Local Abbreviation features_loop' :=
  (features_loop fadd flt n_best_size max_answer_length version_2_with_negative).
Local Abbreviation prelim_predictions' :=
  (prelim_predictions F_of_Z fadd flt n_best_size max_answer_length
     version_2_with_negative).
Local Abbreviation feature_predictions_extended' :=
  (feature_predictions_extended max_answer_length start_n_top end_n_top).
Local Abbreviation features_loop_extended' :=
  (features_loop_extended flt max_answer_length start_n_top end_n_top).
Local Abbreviation prelim_predictions_extended' :=
  (prelim_predictions_extended F_of_Z fadd flt max_answer_length start_n_top end_n_top).

Lemma elem_of_insert_desc {A : Type} (key : A -> F) (x y : A) (l : list A) :
  y ∈ insert_desc flt key x l <-> y = x \/ y ∈ l.
Proof.
  induction l as [|z l IH]; cbn.
  - rewrite list_elem_of_singleton, elem_of_nil. tauto.
  - destruct (flt (key x) (key z)).
    + rewrite !elem_of_cons, IH. tauto.
    + rewrite !elem_of_cons. tauto.
Qed.

Lemma elem_of_sorted_desc {A : Type} (key : A -> F) (y : A) (l : list A) :
  y ∈ sorted_desc flt key l <-> y ∈ l.
Proof.
  induction l as [|x l IH]; cbn; [reflexivity|].
  rewrite elem_of_insert_desc, elem_of_cons. unfold sorted_desc in IH.
  rewrite IH. reflexivity.
Qed.

Lemma span_rejected_false feature start_index end_index :
  span_rejected max_answer_length feature start_index end_index = false ->
  (has_key start_index (Feature.token_to_orig_map feature) = true /\
   has_key end_index (Feature.token_to_orig_map feature) = true /\
   end_index >= start_index /\ end_index - start_index + 1 <= max_answer_length) /\
  Feature.token_is_max_context feature !! start_index = Some true /\
  start_index < Zlen (Feature.tokens feature) /\
  end_index < Zlen (Feature.tokens feature).
Proof.
  unfold span_rejected. rewrite !orb_false_iff, !negb_false_iff.
  rewrite Z.ltb_ge, Z.gtb_ltb, Z.ltb_ge, !Z.geb_leb, !Z.leb_gt.
  intros ((((((Hs & He) & Hks) & Hke) & Hctx) & Hord) & Hlen).
  apply default_false_true in Hctx. repeat split; try assumption; lia.
Qed.

Lemma feature_predictions_valid feature_index feature result preds
    (p : PrelimPrediction.t F) :
  feature_predictions' feature_index feature result = Some preds ->
  p ∈ preds ->
  PrelimPrediction.feature_index p = feature_index /\
  valid_prediction max_answer_length feature p /\
  owns_start feature p /\
  PrelimPrediction.start_index p < Zlen (Feature.tokens feature) /\
  PrelimPrediction.end_index p < Zlen (Feature.tokens feature).
Proof.
  unfold feature_predictions. intros Hm Hin.
  apply mapM_Some in Hm.
  apply list_elem_of_lookup in Hin as [i Hi].
  destruct (Forall2_lookup_r _ _ _ _ _ Hm Hi) as (span & Hspan & Hmk).
  apply list_elem_of_lookup_2 in Hspan.
  apply list_elem_of_filter in Hspan as [Hok _].
  unfold make_prelim in Hmk.
  destruct (py_index _ (fst span)); [|discriminate]. cbn in Hmk.
  destruct (py_index _ (snd span)); [|discriminate]. cbn in Hmk.
  injection Hmk as <-. split; [reflexivity|].
  apply span_rejected_false in Hok. exact Hok.
Qed.

Lemma features_loop_valid results features todo : forall acc null prelim null',
  (forall i f, (i, f) ∈ todo -> features !! i = Some f) ->
  Forall (from_feature max_answer_length features) acc ->
  features_loop' results todo acc null = Some (prelim, null') ->
  Forall (from_feature max_answer_length features) prelim.
Proof.
  induction todo as [|[fi feature] rest IH]; intros acc null prelim null' Htodo Hacc H;
    cbn in H.
  - injection H as <- _. exact Hacc.
  - destruct (results !! Feature.unique_id feature) as [result|]; [|discriminate].
    cbn in H.
    destruct (update_null _ _ _ _ _ _) as [null1|]; [|discriminate]. cbn in H.
    destruct (feature_predictions' fi feature result) as [new|] eqn:Hnew; [|discriminate].
    cbn in H. eapply IH; [| |exact H].
    + intros i f Hin. apply Htodo. right. exact Hin.
    + apply Forall_app. split; [exact Hacc|].
      apply Forall_forall. intros p Hp.
      destruct (feature_predictions_valid _ _ _ _ _ Hnew Hp) as [Hfi Hvalid].
      exists feature. split; [|exact Hvalid].
      rewrite Hfi. apply Htodo. left.
Qed.

Lemma span_rejected_extended_false feature start_index end_index :
  chunk_keys feature ->
  span_rejected_extended max_answer_length feature start_index end_index = false ->
  (has_key start_index (Feature.token_to_orig_map feature) = true /\
   has_key end_index (Feature.token_to_orig_map feature) = true /\
   end_index >= start_index /\ end_index - start_index + 1 <= max_answer_length) /\
  Feature.token_is_max_context feature !! start_index = Some true /\
  start_index < Feature.paragraph_len feature - 1 /\
  end_index < Feature.paragraph_len feature - 1.
Proof.
  intros (off & Hoff & Hkeys). unfold span_rejected_extended.
  rewrite !orb_false_iff, !negb_false_iff.
  rewrite Z.ltb_ge, Z.gtb_ltb, Z.ltb_ge.
  intros ((((Hs & He) & Hctx) & Hord) & Hlen).
  rewrite Z.geb_leb in Hs, He. apply Z.leb_gt in Hs. apply Z.leb_gt in He.
  pose proof (default_false_true _ _ Hctx) as Hown.
  apply has_key_default_true in Hctx.
  assert (Hrange : off <= start_index < off + Feature.paragraph_len feature)
    by (apply (Hkeys start_index); exact Hctx).
  repeat split; try lia; try exact Hown.
  - apply (Hkeys start_index). exact Hrange.
  - apply (Hkeys end_index). lia.
Qed.

Lemma feature_predictions_extended_valid feature_index feature result preds
    (p : PrelimPrediction.t F) :
  chunk_keys feature ->
  feature_predictions_extended' feature_index feature result = Some preds ->
  p ∈ preds ->
  PrelimPrediction.feature_index p = feature_index /\
  valid_prediction max_answer_length feature p /\
  owns_start feature p /\
  PrelimPrediction.start_index p < Feature.paragraph_len feature - 1 /\
  PrelimPrediction.end_index p < Feature.paragraph_len feature - 1.
Proof.
  unfold feature_predictions_extended. intros Hkeys Hm Hin.
  destruct (mapM _ _) as [cands|] eqn:Hc; [|discriminate]. cbn in Hm.
  injection Hm as <-.
  apply list_elem_of_omap in Hin as (c & Hc_in & Hc_eq). cbn in Hc_eq. subst c.
  apply mapM_Some in Hc.
  apply list_elem_of_lookup in Hc_in as [i Hi].
  destruct (Forall2_lookup_r _ _ _ _ _ Hc Hi) as ([a b] & _ & Hmk).
  unfold candidate_extended in Hmk.
  destruct (py_index (RawResultExtended.start_top_log_probs result) a) as [slp|];
    [|discriminate]. cbn in Hmk.
  destruct (py_index (RawResultExtended.start_top_index result) a) as [si|];
    [|discriminate]. cbn in Hmk.
  destruct (py_index (RawResultExtended.end_top_log_probs result) (a * end_n_top + b))
    as [elp|]; [|discriminate]. cbn in Hmk.
  destruct (py_index (RawResultExtended.end_top_index result) (a * end_n_top + b))
    as [ei|]; [|discriminate]. cbn in Hmk.
  destruct (span_rejected_extended max_answer_length feature si ei) eqn:Hrej;
    [discriminate|].
  injection Hmk as <-.
  destruct (span_rejected_extended_false _ _ _ Hkeys Hrej) as (Hv & Hown & Hs & He).
  split; [reflexivity|]. split; [exact Hv|]. split; [exact Hown|]. split; assumption.
Qed.

Lemma features_loop_extended_valid results features todo :
  forall acc score_null prelim score_null',
  Forall chunk_keys features ->
  (forall i f, (i, f) ∈ todo -> features !! i = Some f) ->
  Forall (from_feature_extended max_answer_length features) acc ->
  features_loop_extended' results todo acc score_null = Some (prelim, score_null') ->
  Forall (from_feature_extended max_answer_length features) prelim.
Proof.
  induction todo as [|[fi feature] rest IH];
    intros acc score_null prelim score_null' Hkeys Htodo Hacc H; cbn in H.
  - injection H as <- _. exact Hacc.
  - destruct (results !! Feature.unique_id feature) as [result|]; [|discriminate].
    cbn in H.
    destruct (feature_predictions_extended' fi feature result) as [new|] eqn:Hnew;
      [|discriminate].
    cbn in H. eapply IH; [exact Hkeys| | |exact H].
    + intros i f Hin. apply Htodo. right. exact Hin.
    + apply Forall_app. split; [exact Hacc|].
      apply Forall_forall. intros p Hp.
      assert (Hf : features !! fi = Some feature) by (apply Htodo; left).
      assert (Hk : chunk_keys feature).
      { rewrite Forall_forall in Hkeys. apply Hkeys.
        eapply list_elem_of_lookup_2. exact Hf. }
      destruct (feature_predictions_extended_valid _ _ _ _ _ Hk Hnew Hp)
        as (Hfi & Hrest).
      exists feature. rewrite Hfi. split; [exact Hf|exact Hrest].
Qed.

(** C2 (amended): every preliminary prediction of the standard head other
    than the synthesized no-answer entry, and every preliminary prediction
    of the pointer head on features whose dictionaries have the chunk's
    positions as keys, refers to start and end indexes that are keys of its
    feature's [token_to_orig_map], has [end_index >= start_index] and length
    at most [max_answer_length], and has a start index that its feature
    flags as max-context; the standard head keeps both indexes below the
    number of tokens of the feature, the pointer head below
    [paragraph_len - 1]. *)
Theorem prelim_predictions_valid :
  (forall results features prelim null p,
     prelim_predictions' results features = Some (prelim, null) ->
     p ∈ prelim ->
     (version_2_with_negative = true /\ p = null_prediction null) \/
     from_feature max_answer_length features p) /\
  (forall results features prelim score_null p,
     Forall chunk_keys features ->
     prelim_predictions_extended' results features = Some (prelim, score_null) ->
     p ∈ prelim ->
     from_feature_extended max_answer_length features p).
Proof.
  split.
  - intros results features prelim null p H Hin. unfold prelim_predictions in H.
    destruct (features_loop' results (enumerate features) [] _)
      as [[prelim0 null0]|] eqn:Hloop; [|discriminate].
    cbn in H. injection H as <- <-.
    apply elem_of_sorted_desc in Hin.
    assert (Hall : Forall (from_feature max_answer_length features) prelim0).
    { eapply features_loop_valid; [|constructor|exact Hloop].
      intros i f. apply elem_of_enumerate. }
    rewrite Forall_forall in Hall.
    destruct version_2_with_negative.
    + apply elem_of_app in Hin as [Hin|Hin]; [right; auto|].
      apply list_elem_of_singleton in Hin. left. split; [reflexivity|exact Hin].
    + right. auto.
  - intros results features prelim score_null p Hkeys H Hin.
    unfold prelim_predictions_extended in H.
    destruct (features_loop_extended' results (enumerate features) [] _)
      as [[prelim0 sn]|] eqn:Hloop; [|discriminate].
    cbn in H. injection H as <- <-.
    apply elem_of_sorted_desc in Hin.
    assert (Hall : Forall (from_feature_extended max_answer_length features) prelim0).
    { eapply features_loop_extended_valid; [exact Hkeys| |constructor|exact Hloop].
      intros i f. apply elem_of_enumerate. }
    rewrite Forall_forall in Hall. auto.
Qed.

End PrelimProps.

(** ** Feature builder: the keys of the chunk dictionaries *)

Lemma has_key_insert {V : Type} (k j : Z) (v : V) (d : gmap Z V) :
  has_key k (<[j := v]> d) = true <-> k = j \/ has_key k d = true.
Proof.
  unfold has_key. destruct (decide (j = k)) as [->|Hne].
  - rewrite lookup_insert_eq. tauto.
  - rewrite lookup_insert_ne by exact Hne.
    destruct (d !! k); split; auto; intros [?|?]; congruence.
Qed.

Lemma has_key_empty {V : Type} (k : Z) : has_key k (∅ : gmap Z V) = false.
Proof. unfold has_key. rewrite lookup_empty. reflexivity. Qed.

Section FeatureKeys.
Context {F : Type}.
Variable F_of_Z : Z -> F.
Variable fadd fmul : F -> F -> F.
Variable f0_01 : F.
Variable fgt : F -> F -> bool.
Variable tokenize : string -> list string.
Variable convert_tokens_to_ids : list string -> list Z.

Local Abbreviation paragraph_step' := (paragraph_step F_of_Z fadd fmul f0_01 fgt).
Local Abbreviation assemble' := (assemble F_of_Z fadd fmul f0_01 fgt).
Local Abbreviation build_feature' :=
  (build_feature F_of_Z fadd fmul f0_01 fgt convert_tokens_to_ids).
Local Abbreviation build_features' :=
  (build_features F_of_Z fadd fmul f0_01 fgt convert_tokens_to_ids).
Local Abbreviation convert_example' :=
  (convert_example F_of_Z fadd fmul f0_01 fgt tokenize convert_tokens_to_ids).
Local Abbreviation convert_examples_loop' :=
  (convert_examples_loop F_of_Z fadd fmul f0_01 fgt tokenize convert_tokens_to_ids).

Lemma paragraph_loop_keys cfg doc_spans k ds t2o all lo indices : forall st st',
  lo <= Zlen (Chunk.tokens st) ->
  keys_between st lo (Zlen (Chunk.tokens st)) ->
  paragraph_loop (paragraph_step' cfg doc_spans k ds t2o all) st indices = Some st' ->
  keys_between st' lo (Zlen (Chunk.tokens st) + Zlen indices) /\
  Zlen (Chunk.tokens st') = Zlen (Chunk.tokens st) + Zlen indices.
Proof.
  induction indices as [|i rest IH]; intros st st' Hlo Hkeys Hrun; cbn in Hrun.
  - injection Hrun as <-. unfold Zlen at 2 4. cbn. rewrite !Z.add_0_r.
    split; [assumption|reflexivity].
  - destruct (paragraph_step' cfg doc_spans k ds t2o all st i) as [st1|] eqn:Hstep;
      [|discriminate].
    cbn in Hrun. unfold paragraph_step in Hstep.
    destruct (py_index t2o _) as [orig|]; [|discriminate]. cbn in Hstep.
    destruct (py_index all _) as [tok|]; [|discriminate]. cbn in Hstep.
    injection Hstep as <-.
    match type of Hrun with
    | paragraph_loop _ ?s _ = _ => destruct (IH s st') as [Hk Hlen]
    end; [| |exact Hrun|].
    + unfold Zlen in *. cbn. rewrite length_app. cbn. lia.
    + unfold keys_between, Zlen in *. cbn. rewrite length_app. cbn.
      intros j. rewrite !has_key_insert.
      destruct (Hkeys j) as [H1 H2]. rewrite H1, H2. lia.
    + unfold keys_between, Zlen in *. cbn in Hk, Hlen. rewrite length_app in Hk, Hlen.
      cbn in Hk, Hlen. cbn [List.length].
      split; [|lia]. intros j. destruct (Hk j) as [H1 H2]. rewrite H1, H2. lia.
Qed.

Lemma length_range a b : Zlen (range a b) = Z.max 0 (b - a).
Proof. unfold range, Zlen. rewrite length_map, length_seq. lia. Qed.

Lemma keys_between_same_maps st st' lo hi :
  Chunk.token_to_orig_map st' = Chunk.token_to_orig_map st ->
  Chunk.token_is_max_context st' = Chunk.token_is_max_context st ->
  keys_between st lo hi -> keys_between st' lo hi.
Proof. unfold keys_between. intros -> ->. tauto. Qed.

Lemma assemble_keys cfg query_tokens doc_spans k ds t2o all st cls_index :
  assemble' cfg query_tokens doc_spans k ds t2o all = Some (st, cls_index) ->
  exists doc_offset, 0 <= doc_offset /\
    keys_between st doc_offset (doc_offset + Z.max 0 (DocSpan.length ds)).
Proof.
  unfold assemble. intros H.
  match type of H with
  | context [paragraph_loop ?step ?st0 ?ix] =>
      destruct (paragraph_loop step st0 ix) as [st1|] eqn:Hloop; [|discriminate];
      destruct (paragraph_loop_keys _ _ _ _ _ _ (Zlen (Chunk.tokens st0)) _ _ _
                  (Z.le_refl _)
                  ltac:(intros j;
                        destruct (Config.cls_token_at_end cfg),
                                 (Config.sequence_a_is_doc cfg);
                        cbn; rewrite !has_key_empty; split; split;
                        solve [discriminate | lia])
                  Hloop) as [Hk _];
      exists (Zlen (Chunk.tokens st0))
  end.
  split; [unfold Zlen; lia|].
  rewrite length_range, Z.sub_0_r in Hk.
  cbn in H. injection H as <- _.
  eapply keys_between_same_maps; [| |exact Hk];
    destruct (Config.cls_token_at_end cfg), (Config.sequence_a_is_doc cfg); reflexivity.
Qed.

Lemma build_feature_keys cfg uid ei ex q t2o all tp doc_spans k ds f :
  build_feature' cfg uid ei ex q t2o all tp doc_spans k ds = Some f ->
  chunk_keys f.
Proof.
  unfold build_feature. intros H.
  destruct (assemble' cfg q doc_spans k ds t2o all) as [[st cls]|] eqn:Has;
    [|discriminate].
  cbn in H.
  destruct (asserts_hold cfg _); [|discriminate].
  destruct (place_labels _ _ _ _ _ _) as [[[sp ep] imp]|]; [|discriminate].
  cbn in H. injection H as <-.
  destruct (assemble_keys _ _ _ _ _ _ _ _ _ Has) as (off & Hoff & Hk).
  exists off. split; [exact Hoff|]. cbn. intros j.
  destruct (Hk j) as [H1 H2]. rewrite H1, H2. lia.
Qed.

Lemma build_features_keys cfg ei ex q t2o all tp doc_spans todo : forall uid features,
  build_features' cfg uid ei ex q t2o all tp doc_spans todo = Some features ->
  Forall chunk_keys features.
Proof.
  induction todo as [|[k ds] rest IH]; intros uid features H; cbn in H.
  - injection H as <-. constructor.
  - destruct (build_feature' cfg uid ei ex q t2o all tp doc_spans k ds) as [f|] eqn:Hf;
      [|discriminate].
    cbn in H.
    destruct (build_features' cfg (uid + 1) ei ex q t2o all tp doc_spans rest)
      as [fs|] eqn:Hfs; [|discriminate].
    cbn in H. injection H as <-. constructor.
    + eapply build_feature_keys; exact Hf.
    + eapply IH; exact Hfs.
Qed.

Lemma convert_examples_loop_keys fuel cfg todo : forall uid acc features,
  Forall chunk_keys acc ->
  convert_examples_loop' fuel cfg uid todo acc = Some features ->
  Forall chunk_keys features.
Proof.
  induction todo as [|[ei ex] rest IH]; intros uid acc features Hacc H; cbn in H.
  - injection H as <-. exact Hacc.
  - destruct (convert_example' fuel cfg uid ei ex) as [new|] eqn:Hnew; [|discriminate].
    cbn in H. eapply IH; [|exact H].
    apply Forall_app. split; [exact Hacc|].
    unfold convert_example in Hnew.
    destruct (tokenize_doc tokenize _ _ _ _ _) as [[t2o o2t] all].
    destruct (tok_positions tokenize _ _ _ _) as [tp|]; [|discriminate]. cbn in Hnew.
    destruct (make_doc_spans _ _ _ _ _) as [spans|]; [|discriminate]. cbn in Hnew.
    eapply build_features_keys; exact Hnew.
Qed.

(** Every feature that the builder produces has the key layout that the
    pointer-head decoder relies on. *)
Lemma convert_examples_chunk_keys fuel cfg examples features :
  _convert_examples_to_features F_of_Z fadd fmul f0_01 fgt tokenize
    convert_tokens_to_ids fuel cfg examples = Some features ->
  Forall chunk_keys features.
Proof. intros H. eapply convert_examples_loop_keys; [constructor|exact H]. Qed.

End FeatureKeys.

(** C2, as stated: refuted by the no-answer entry that the standard head
    appends when null answers are enabled.  Its start and end index are 0,
    the position of [CLS], which is no key of [token_to_orig_map]. *)
Lemma null_prediction_not_valid :
  exists prelim null p feature,
    toy_prelim true toy_feature_list = Some (prelim, null) /\
    p ∈ prelim /\
    toy_feature_list !! PrelimPrediction.feature_index p = Some feature /\
    ~ valid_prediction 5 feature p.
Proof.
  eexists _, _, (PrelimPrediction.mk 0 0 0 1%Q 2%Q), _.
  split; [vm_compute; reflexivity|].
  split; [apply (list_elem_of_lookup_2 _ 5%nat); reflexivity|].
  split; [vm_compute; reflexivity|].
  intros [Hkey _]. vm_compute in Hkey. discriminate.
Qed.

Lemma prelim_predictions_valid_witness :
  (exists prelim null,
     toy_prelim true toy_feature_list = Some (prelim, null) /\
     ((true = true /\ PrelimPrediction.mk 0 5 6 5%Q 6%Q = null_prediction null) \/
      from_feature 5 toy_feature_list (PrelimPrediction.mk 0 5 6 5%Q 6%Q))) /\
  (exists prelim score_null,
     toy_prelim_extended toy_feature_list_doc_first = Some (prelim, score_null) /\
     from_feature_extended 5 toy_feature_list_doc_first
       (PrelimPrediction.mk 0 0 1 2%Q 2%Q)).
Proof.
  split.
  - eexists _, _. split; [vm_compute; reflexivity|].
    eapply (proj1 (prelim_predictions_valid inject_Z Qplus Qltb 3 5 true 2 2)
              toy_results toy_feature_list).
    + vm_compute. reflexivity.
    + apply (list_elem_of_lookup_2 _ 0%nat). reflexivity.
  - eexists _, _. split; [vm_compute; reflexivity|].
    eapply (proj2 (prelim_predictions_valid inject_Z Qplus Qltb 3 5 true 2 2)
              toy_results_extended toy_feature_list_doc_first).
    + apply (convert_examples_chunk_keys inject_Z Qplus Qmult (1 # 100)%Q Qgtb
               split toy_ids 10%nat toy_config_doc_first [toy_example]).
      vm_compute. reflexivity.
    + vm_compute. reflexivity.
    + apply (list_elem_of_lookup_2 _ 1%nat). reflexivity.
Defined.

(** ** Standard head: the n-best list *)

Lemma distinct_texts_nil {F : Type} : distinct_texts ([] : list (NbestPrediction.t F)).
Proof. intros i j e1 e2 _ H. rewrite lookup_nil in H. discriminate. Qed.

Lemma elem_of_texts {F : Type} (nbest : list (NbestPrediction.t F)) i e :
  nbest !! i = Some e -> NbestPrediction.text e ∈ texts nbest.
Proof.
  intros H. unfold texts. apply list_elem_of_In, in_map, list_elem_of_In.
  eapply list_elem_of_lookup_2. exact H.
Qed.

(** Appending an entry whose text is empty or new keeps the texts distinct. *)
Lemma distinct_texts_snoc {F : Type} (nbest : list (NbestPrediction.t F)) e :
  distinct_texts nbest ->
  NbestPrediction.text e = ""%string \/ NbestPrediction.text e ∉ texts nbest ->
  distinct_texts (nbest ++ [e]).
Proof.
  intros Hd Hnew i j e1 e2 Hij H1 H2 Heq.
  apply lookup_app_Some in H1 as [H1|[Hi H1]];
    apply lookup_app_Some in H2 as [H2|[Hj H2]].
  - eapply Hd; eassumption.
  - apply list_lookup_singleton_Some in H2 as [_ <-].
    destruct Hnew as [He|Hnot]; [congruence|].
    exfalso. apply Hnot. rewrite <- Heq. eapply elem_of_texts. exact H1.
  - apply list_lookup_singleton_Some in H1 as [_ <-].
    destruct Hnew as [He|Hnot]; [exact He|].
    exfalso. apply Hnot. rewrite Heq. eapply elem_of_texts. exact H2.
  - apply list_lookup_singleton_Some in H1 as [Hi' _].
    apply list_lookup_singleton_Some in H2 as [Hj' _]. lia.
Qed.

Lemma texts_snoc {F : Type} (nbest : list (NbestPrediction.t F)) e t :
  t ∈ texts (nbest ++ [e]) <-> t ∈ texts nbest \/ t = NbestPrediction.text e.
Proof.
  unfold texts. rewrite map_app, elem_of_app. cbn.
  rewrite list_elem_of_singleton. reflexivity.
Qed.

Lemma nbest_inv_snoc {F : Type} seen (nbest : list (NbestPrediction.t F)) e :
  nbest_inv seen nbest ->
  NbestPrediction.text e = ""%string \/ NbestPrediction.text e ∉ seen ->
  nbest_inv ({[NbestPrediction.text e]} ∪ seen) (nbest ++ [e]).
Proof.
  intros [Hseen Hd] Hnew. split.
  - intros t. rewrite texts_snoc, elem_of_union, elem_of_singleton, Hseen. tauto.
  - apply distinct_texts_snoc; [exact Hd|].
    destruct Hnew as [He|Hnot]; [left; exact He|right].
    rewrite <- Hseen. exact Hnot.
Qed.

Section NbestProps.
Context {F : Type}.
Variable F_of_Z : Z -> F.
Variable basic_tokenize : bool -> string -> list string.
Variable n_best_size : Z.
Variable do_lower_case version_2_with_negative : bool.

Local Abbreviation nbest_loop' := (nbest_loop basic_tokenize n_best_size do_lower_case).
Local Abbreviation complete_nbest' := (complete_nbest F_of_Z version_2_with_negative).
Local Abbreviation nbest_of' :=
  (nbest_of F_of_Z basic_tokenize n_best_size do_lower_case version_2_with_negative).

Lemma nbest_loop_inv example features todo :
  forall seen (nbest : list (NbestPrediction.t F)) seen' nbest',
  nbest_inv seen nbest ->
  nbest_loop' example features todo seen nbest = Some (seen', nbest') ->
  nbest_inv seen' nbest'.
Proof.
  induction todo as [|pred rest IH]; intros seen nbest seen' nbest' Hinv H; cbn in H.
  - injection H as <- <-. exact Hinv.
  - destruct (Zlen nbest >=? n_best_size).
    { injection H as <- <-. exact Hinv. }
    destruct (features !! PrelimPrediction.feature_index pred) as [feature|];
      [|discriminate].
    cbn in H. destruct (PrelimPrediction.start_index pred >? 0).
    + destruct (final_text_of basic_tokenize do_lower_case example feature pred)
        as [final_text|]; [|discriminate].
      cbn in H. destruct (decide (final_text ∈ seen)) as [Hin|Hnot].
      * eapply IH; [exact Hinv|exact H].
      * eapply IH; [|exact H].
        apply (nbest_inv_snoc seen nbest
                 (NbestPrediction.mk final_text (PrelimPrediction.start_logit pred)
                    (PrelimPrediction.end_logit pred))); [exact Hinv|].
        right. exact Hnot.
    + eapply IH; [|exact H].
      apply (nbest_inv_snoc seen nbest
               (NbestPrediction.mk "" (PrelimPrediction.start_logit pred)
                  (PrelimPrediction.end_logit pred))); [exact Hinv|].
      left. reflexivity.
Qed.

Lemma distinct_texts_nonce_empty (e : NbestPrediction.t F) :
  NbestPrediction.text e = ""%string -> distinct_texts [nonce F_of_Z; e].
Proof.
  intros He i j e1 e2 Hij H1 H2 Heq.
  destruct i as [|[|i]], j as [|[|j]]; cbn in H1, H2; try discriminate; try lia;
    injection H1 as <-; injection H2 as <-; cbn in *; congruence.
Qed.

Lemma distinct_texts_single (e : NbestPrediction.t F) : distinct_texts [e].
Proof.
  intros i j e1 e2 Hij H1 H2 _.
  apply list_lookup_singleton_Some in H1 as [Hi _].
  apply list_lookup_singleton_Some in H2 as [Hj _]. lia.
Qed.

Lemma complete_nbest_distinct null seen (nbest : list (NbestPrediction.t F)) :
  nbest_inv seen nbest -> distinct_texts (complete_nbest' null seen nbest).
Proof.
  intros [Hseen Hd]. unfold complete_nbest.
  destruct version_2_with_negative.
  - set (completed := if decide (""%string ∈ seen) then nbest else nbest ++ [_]).
    assert (Hc : distinct_texts completed /\ ""%string ∈ texts completed).
    { unfold completed. destruct (decide (""%string ∈ seen)) as [Hin|Hnot].
      - split; [exact Hd|]. apply Hseen. exact Hin.
      - split.
        + apply distinct_texts_snoc; [exact Hd|]. left. reflexivity.
        + apply texts_snoc. right. reflexivity. }
    clearbody completed. destruct Hc as [Hdc Hempty].
    destruct completed as [|e [|e' rest]]; cbn.
    + apply distinct_texts_single.
    + apply distinct_texts_nonce_empty.
      unfold texts in Hempty. cbn in Hempty.
      apply list_elem_of_singleton in Hempty. congruence.
    + exact Hdc.
  - destruct nbest as [|e nbest]; [apply distinct_texts_single|exact Hd].
Qed.

(** C7: in the final n-best list of an example two entries at different
    places share a text only if that text is empty.  With null answers
    enabled, when the empty string was not selected by the n-best loop it
    is appended with the tracked null start and end logits; and when the
    list then holds exactly one entry, a placeholder with zero scores is
    put in front of it. *)
Theorem nbest_distinct_and_completed example features prelim null nbest :
  nbest_of' example features prelim null = Some nbest ->
  distinct_texts nbest /\
  exists seen selected,
    nbest_loop' example features prelim ∅ [] = Some (seen, selected) /\
    (version_2_with_negative = true ->
     let forced :=
       NbestPrediction.mk "" (NullState.null_start_logit null)
         (NullState.null_end_logit null) in
     let completed :=
       if decide (""%string ∈ texts selected) then selected else selected ++ [forced] in
     nbest = if decide (List.length completed = 1%nat)
             then nonce F_of_Z :: completed else completed).
Proof.
  unfold nbest_of. intros H.
  destruct (nbest_loop' example features prelim ∅ []) as [[seen selected]|] eqn:Hloop;
    [|discriminate].
  cbn in H. injection H as <-.
  assert (Hinv : nbest_inv seen selected).
  { eapply nbest_loop_inv; [|exact Hloop]. split; [|apply distinct_texts_nil].
    intros t. unfold texts. cbn. rewrite elem_of_nil. set_solver. }
  split; [apply complete_nbest_distinct; exact Hinv|].
  exists seen, selected. split; [reflexivity|].
  intros Hv2. cbn zeta. unfold complete_nbest. rewrite Hv2.
  destruct Hinv as [Hseen _].
  destruct (decide (""%string ∈ seen)) as [Hin|Hnot];
    destruct (decide (""%string ∈ texts selected)) as [Hin'|Hnot'];
    try (exfalso; rewrite Hseen in *; tauto).
  - destruct (Nat.eqb_spec (List.length selected) 1) as [Hlen|Hlen];
      destruct (decide (List.length selected = 1%nat)); try lia.
    + reflexivity.
    + destruct selected; [|reflexivity].
      apply elem_of_nil in Hin'. contradiction.
  - set (completed := selected ++ [_]).
    destruct (Nat.eqb_spec (List.length completed) 1) as [Hlen|Hlen];
      destruct (decide (List.length completed = 1%nat)); try lia.
    + reflexivity.
    + destruct completed eqn:Hc; [|reflexivity].
      apply app_eq_nil in Hc as [_ Hc]. discriminate.
Qed.

End NbestProps.

Lemma nbest_distinct_and_completed_witness :
  exists nbest,
    nbest_of inject_Z toy_basic_tokenize 3 true true toy_example toy_feature_list
      (fst toy_prelim_null) (snd toy_prelim_null) = Some nbest /\
    distinct_texts nbest.
Proof.
  eexists. split; [vm_compute; reflexivity|].
  refine (proj1 (nbest_distinct_and_completed inject_Z toy_basic_tokenize 3 true true
                   toy_example toy_feature_list (fst toy_prelim_null)
                   (snd toy_prelim_null) _ _)).
  vm_compute. reflexivity.
Defined.

Example toy_nbest_forced_empty :
  option_map texts (toy_nbest true) = Some ["man went"; "the man went"; "man"; ""]%string.
Proof. vm_compute. reflexivity. Qed.

(** ** Standard head: the null-answer decision *)

Lemma nonempty_spec (text : string) : nonempty text = true <-> text <> ""%string.
Proof. destruct text; cbn; split; congruence. Qed.

Lemma best_non_null_entry_first {F : Type} (nbest : list (NbestPrediction.t F)) entry :
  best_non_null_entry nbest = Some entry <-> first_non_null nbest entry.
Proof.
  unfold best_non_null_entry, first_non_null.
  induction nbest as [|e nbest IH]; cbn.
  - split; [discriminate|]. intros (i & Hi & _). rewrite lookup_nil in Hi. discriminate.
  - destruct (nonempty (NbestPrediction.text e)) eqn:He.
    + split.
      * intros [= <-]. exists 0%nat. split; [reflexivity|].
        split; [apply nonempty_spec; exact He|]. intros j e' Hj. lia.
      * intros ([|i] & Hi & Hne & Hbefore); [cbn in Hi; congruence|].
        exfalso. apply nonempty_spec in He. apply He.
        apply (Hbefore 0%nat e); [lia|reflexivity].
    + rewrite IH. split.
      * intros (i & Hi & Hne & Hbefore). exists (S i). split; [exact Hi|].
        split; [exact Hne|]. intros [|j] e' Hj Hl; cbn in Hl.
        -- injection Hl as <-. destruct (NbestPrediction.text e); [reflexivity|discriminate].
        -- apply (Hbefore j); [lia|exact Hl].
      * intros ([|i] & Hi & Hne & Hbefore); cbn in Hi.
        -- injection Hi as <-. apply nonempty_spec in Hne. congruence.
        -- exists i. split; [exact Hi|]. split; [exact Hne|].
           intros j e' Hj Hl. apply (Hbefore (S j)); [lia|exact Hl].
Qed.

Section DecisionProps.
Context {F : Type}.
Variable F_of_Z : Z -> F.
Variable fadd fsub fdiv : F -> F -> F.
Variable fexp : F -> F.
Variable flt : F -> F -> bool.
Variable basic_tokenize : bool -> string -> list string.
Variable n_best_size max_answer_length : Z.
Variable do_lower_case : bool.
Variable null_score_diff_threshold : F.

Local Abbreviation final_prediction' :=
  (final_prediction fsub flt true null_score_diff_threshold).

(** The decision is defined as soon as some entry has a non-empty text. *)
Lemma final_prediction_decides score_null nbest entry :
  first_non_null nbest entry ->
  let score_diff :=
    fsub (fsub score_null (NbestPrediction.start_logit entry))
         (NbestPrediction.end_logit entry) in
  final_prediction' score_null nbest =
  Some (if flt null_score_diff_threshold score_diff
        then ""%string else NbestPrediction.text entry,
        Some score_diff).
Proof.
  intros Hfirst. apply best_non_null_entry_first in Hfirst.
  unfold final_prediction. cbn. rewrite Hfirst. cbn.
  destruct (flt null_score_diff_threshold _); reflexivity.
Qed.

(** C5: with null answers enabled, when an example is decoded the score
    difference [score_null - start_logit - end_logit] of the best non-null
    entry (the first n-best entry with a non-empty text) is stored under
    the question id in [scores_diff_json]; the stored prediction is the
    empty string if and only if that difference exceeds
    [null_score_diff_threshold], and is the text of the best non-null entry
    otherwise. *)
Theorem null_threshold_decision results all_features out example_index example out' :
  write_example F_of_Z fadd fsub fdiv fexp flt basic_tokenize n_best_size
    max_answer_length do_lower_case true null_score_diff_threshold
    results all_features out example_index example = Some out' ->
  exists prelim null nbest entry,
    prelim_predictions F_of_Z fadd flt n_best_size max_answer_length true results
      (filter (fun feature => Feature.example_index feature = example_index)
         all_features) = Some (prelim, null) /\
    nbest_of F_of_Z basic_tokenize n_best_size do_lower_case true example
      (filter (fun feature => Feature.example_index feature = example_index)
         all_features) prelim null = Some nbest /\
    first_non_null nbest entry /\
    let score_diff :=
      fsub (fsub (NullState.score_null null) (NbestPrediction.start_logit entry))
           (NbestPrediction.end_logit entry) in
    Outputs.scores_diff_json out' !! Example.qas_id example = Some score_diff /\
    (Outputs.all_predictions out' !! Example.qas_id example = Some ""%string <->
     flt null_score_diff_threshold score_diff = true) /\
    (flt null_score_diff_threshold score_diff = false ->
     Outputs.all_predictions out' !! Example.qas_id example
     = Some (NbestPrediction.text entry)).
Proof.
  unfold write_example. intros H.
  apply bind_Some in H as ([prelim null] & Hprelim & H).
  apply bind_Some in H as (nbest & Hnbest & H).
  apply bind_Some in H as ([prediction score_diff] & Hfinal & H).
  injection H as <-.
  unfold final_prediction in Hfinal. cbn [negb] in Hfinal.
  apply bind_Some in Hfinal as (entry & Hbest & Hfinal).
  pose proof (proj1 (best_non_null_entry_first nbest entry) Hbest) as Hfirst.
  exists prelim, null, nbest, entry.
  split; [exact Hprelim|]. split; [exact Hnbest|]. split; [exact Hfirst|].
  destruct Hfirst as (i & _ & Hne & _).
  cbn zeta. cbn [Outputs.scores_diff_json Outputs.all_predictions].
  destruct (flt null_score_diff_threshold _) eqn:Hgt;
    injection Hfinal as <- <-; rewrite !lookup_insert_eq.
  - split; [reflexivity|]. split; [tauto|discriminate].
  - split; [reflexivity|]. split; [|reflexivity].
    split; [|discriminate]. intros [= Heq]. congruence.
Qed.

End DecisionProps.

Example toy_write_example_answer :
  option_map (fun out => (Outputs.all_predictions out !! "q1"%string,
                          Outputs.scores_diff_json out !! "q1"%string))
    (toy_write_example 0)
  = Some (Some "man went"%string, Some (3 - 5 - 6)%Q).
Proof. vm_compute. reflexivity. Qed.

Example toy_write_example_null :
  option_map (fun out => Outputs.all_predictions out !! "q1"%string)
    (toy_write_example (-10))
  = Some (Some ""%string).
Proof. vm_compute. reflexivity. Qed.

Lemma null_threshold_decision_witness :
  exists prelim null nbest entry,
    toy_prelim true
      (filter (fun feature => Feature.example_index feature = 0%nat) toy_feature_list)
    = Some (prelim, null) /\
    nbest_of inject_Z toy_basic_tokenize 3 true true toy_example
      (filter (fun feature => Feature.example_index feature = 0%nat) toy_feature_list)
      prelim null = Some nbest /\
    first_non_null nbest entry /\
    let score_diff :=
      (NullState.score_null null - NbestPrediction.start_logit entry
       - NbestPrediction.end_logit entry)%Q in
    Outputs.scores_diff_json toy_outputs !! "q1"%string = Some score_diff /\
    (Outputs.all_predictions toy_outputs !! "q1"%string = Some ""%string <->
     Qltb (-10) score_diff = true) /\
    (Qltb (-10) score_diff = false ->
     Outputs.all_predictions toy_outputs !! "q1"%string
     = Some (NbestPrediction.text entry)).
Proof.
  apply (null_threshold_decision inject_Z Qplus Qminus Qdiv (fun x => 1 + x * x)%Q
           Qltb toy_basic_tokenize 3 5 true (-10)%Q toy_results toy_feature_list
           (Outputs.mk ∅ ∅ ∅) 0%nat toy_example toy_outputs).
  vm_compute. reflexivity.
Defined.

(** ** Best-threshold search *)

Lemma Qltb_lt x y : Qltb x y = true <-> (x < y)%Q.
Proof. unfold Qltb. apply Qgtb_lt. Qed.

Lemma Qltb_ge x y : Qltb x y = false <-> (y <= x)%Q.
Proof. unfold Qltb. apply Qgtb_le. Qed.

Lemma Qltb_irrefl x : Qltb x x = false.
Proof. unfold Qltb. apply Qgtb_irrefl. Qed.

Lemma Qltb_trans x y z : Qltb x y = true -> Qltb y z = true -> Qltb x z = true.
Proof. unfold Qltb. intros H1 H2. eapply Qgtb_trans; eassumption. Qed.

Lemma Qltb_negtrans x y z : Qltb x y = false -> Qltb y z = false -> Qltb x z = false.
Proof. unfold Qltb. intros H1 H2. eapply Qgtb_negtrans; eassumption. Qed.

Section BestThresholdProps.
Context {F : Type}.
Variable F_of_Z : Z -> F.
Variable fadd fmul fdiv : F -> F -> F.
Variable flt : F -> F -> bool.

(** Float [<] on the (finite) scores is a strict weak order. *)
Hypothesis flt_irrefl : forall x, flt x x = false.
Hypothesis flt_trans : forall x y z, flt x y = true -> flt y z = true -> flt x z = true.
Hypothesis flt_negtrans :
  forall x y z, flt x y = false -> flt y z = false -> flt x z = false.

Local Abbreviation insert_asc' := (insert_asc flt).
Local Abbreviation sorted_by_na_prob' := (sorted_by_na_prob flt).
Local Abbreviation first_maximum' := (first_maximum flt).
Local Abbreviation sweep' := (sweep F_of_Z fadd flt).
Local Abbreviation running_totals' := (running_totals F_of_Z fadd).

Lemma flt_asym x y : flt x y = true -> flt y x = false.
Proof.
  intros H. destruct (flt y x) eqn:E; [|reflexivity].
  rewrite <- (flt_irrefl x). symmetry. eapply flt_trans; eassumption.
Qed.

Lemma insert_asc_perm x l : Permutation (insert_asc' x l) (x :: l).
Proof.
  induction l as [|y l IH]; cbn; [reflexivity|].
  destruct (flt (snd y) (snd x)); [|reflexivity].
  rewrite IH. apply perm_swap.
Qed.

Lemma sorted_by_na_prob_perm na_probs : Permutation (sorted_by_na_prob' na_probs) na_probs.
Proof.
  induction na_probs as [|x l IH]; cbn; [reflexivity|].
  rewrite insert_asc_perm. apply perm_skip. exact IH.
Qed.

Lemma insert_asc_sorted x l :
  StronglySorted (fun a b => flt (snd b) (snd a) = false) l ->
  StronglySorted (fun a b => flt (snd b) (snd a) = false) (insert_asc' x l).
Proof.
  induction 1 as [|y l Hl IH Hy]; cbn.
  - constructor; constructor.
  - destruct (flt (snd y) (snd x)) eqn:Hlt.
    + constructor; [exact IH|].
      apply Forall_forall. intros z Hz. apply list_elem_of_In in Hz.
      apply (Permutation_in _ (insert_asc_perm x l)) in Hz as [<-|Hz].
      * apply flt_asym. exact Hlt.
      * rewrite Forall_forall in Hy. apply Hy. apply list_elem_of_In. exact Hz.
    + constructor; [constructor; assumption|].
      constructor; [exact Hlt|].
      apply Forall_forall. intros z Hz. rewrite Forall_forall in Hy.
      eapply flt_negtrans; [|exact Hlt]. apply Hy. exact Hz.
Qed.

Lemma sorted_by_na_prob_sorted na_probs :
  StronglySorted (fun a b => flt (snd b) (snd a) = false) (sorted_by_na_prob' na_probs).
Proof.
  induction na_probs as [|x l IH]; cbn; [constructor|].
  apply insert_asc_sorted. exact IH.
Qed.

(** A new total above the best so far becomes the best. *)
Lemma first_maximum_cons_update initial initial_thresh p t rest best thresh :
  flt initial t = true ->
  first_maximum' t p rest best thresh ->
  first_maximum' initial initial_thresh ((p, t) :: rest) best thresh.
Proof.
  intros Hlt [(-> & -> & Hall)|(i & Hi & Hgt & Hbefore & Hall)]; right.
  - exists 0%nat. split; [reflexivity|]. split; [exact Hlt|]. split.
    + intros j q u Hj. lia.
    + intros [|j] q u Hj; cbn in Hj.
      * injection Hj as _ <-. apply flt_irrefl.
      * eapply Hall. exact Hj.
  - exists (S i). split; [exact Hi|].
    split; [eapply flt_trans; eassumption|]. split.
    + intros [|j] q u Hj Hl; cbn in Hl.
      * injection Hl as _ <-. exact Hgt.
      * apply (Hbefore j q); [lia|exact Hl].
    + intros [|j] q u Hj; cbn in Hj.
      * injection Hj as _ <-. apply flt_asym. exact Hgt.
      * eapply Hall. exact Hj.
Qed.

(** A new total not above the best so far changes nothing. *)
Lemma first_maximum_cons_keep initial initial_thresh p t rest best thresh :
  flt initial t = false ->
  first_maximum' initial initial_thresh rest best thresh ->
  first_maximum' initial initial_thresh ((p, t) :: rest) best thresh.
Proof.
  intros Hle [(-> & -> & Hall)|(i & Hi & Hgt & Hbefore & Hall)].
  - left. split; [reflexivity|]. split; [reflexivity|].
    intros [|j] q u Hj; cbn in Hj.
    + injection Hj as _ <-. exact Hle.
    + eapply Hall. exact Hj.
  - assert (Hbelow : flt t best = true).
    { destruct (flt t best) eqn:E; [reflexivity|].
      rewrite (flt_negtrans _ _ _ Hle E) in Hgt. discriminate. }
    right. exists (S i). split; [exact Hi|]. split; [exact Hgt|]. split.
    + intros [|j] q u Hj Hl; cbn in Hl.
      * injection Hl as _ <-. exact Hbelow.
      * apply (Hbefore j q); [lia|exact Hl].
    + intros [|j] q u Hj; cbn in Hj.
      * injection Hj as _ <-. apply flt_asym. exact Hbelow.
      * eapply Hall. exact Hj.
Qed.

Lemma question_diff_change preds qid_to_has_ans qid score diff :
  question_diff F_of_Z preds qid_to_has_ans qid score = Some diff ->
  diff = total_change F_of_Z (F_of_Z 0) (default false (qid_to_has_ans !! qid))
           (default ""%string (preds !! qid)) score.
Proof.
  unfold question_diff, total_change.
  destruct (qid_to_has_ans !! qid) as [[|]|]; cbn; [congruence| |discriminate].
  destruct (preds !! qid) as [pred|]; cbn; [congruence|discriminate].
Qed.

Lemma sweep_first_maximum preds scores qid_to_has_ans qid_list : forall st st',
  sweep' preds scores qid_to_has_ans qid_list st = Some st' ->
  first_maximum' (Sweep.best_score st) (Sweep.best_thresh st)
    (running_totals' (F_of_Z 0) preds scores qid_to_has_ans qid_list (Sweep.cur_score st))
    (Sweep.best_score st') (Sweep.best_thresh st').
Proof.
  induction qid_list as [|[qid na_prob] rest IH]; intros st st' H; cbn in H |- *.
  - injection H as <-. left. split; [reflexivity|]. split; [reflexivity|].
    intros j p t Hj. rewrite lookup_nil in Hj. discriminate.
  - destruct (scores !! qid) as [score|]; [|apply IH; exact H].
    apply bind_Some in H as (diff & Hdiff & H).
    apply question_diff_change in Hdiff. subst diff.
    set (total := fadd (Sweep.cur_score st) _) in *.
    destruct (flt (Sweep.best_score st) total) eqn:Hlt.
    + apply IH in H. cbn in H.
      apply first_maximum_cons_update; assumption.
    + apply IH in H. cbn in H.
      apply first_maximum_cons_keep; assumption.
Qed.

(** C4 (amended): [find_best_thresh_v2] sweeps the questions in ascending
    order of their null score; the running total starts at the number of
    questions without gold answer and changes, at each scored question, by
    0 if the question has no gold answer and nothing was predicted, by -1
    if it has no gold answer and something was predicted, and by the raw
    score if it has a gold answer.  The returned threshold is the null
    score at which the running total first reaches its maximum (0.0 if it
    never exceeds its start), and the returned best score is that maximum
    as a percentage of the number of scored questions.  The totals are
    added and compared as the program does, in floating point: the sums
    are left-to-right sums of [+], and the maximum is with respect to [<],
    of which only the laws of a strict weak order are used. *)
Theorem find_best_thresh_sweep preds scores na_probs qid_to_has_ans :
  sweep_statement F_of_Z fadd fmul fdiv flt (F_of_Z 0) preds scores na_probs
    qid_to_has_ans.
Proof.
  intros best_pct thresh has_ans_avg H qid_list initial.
  split; [apply sorted_by_na_prob_perm|]. split; [apply sorted_by_na_prob_sorted|].
  unfold find_best_thresh_v2 in H. fold qid_list in H. fold initial in H.
  apply bind_Some in H as (st & Hsweep & H).
  apply bind_Some in H as ([has_ans_score has_ans_cnt] & _ & H).
  destruct (size scores =? 0)%nat; [discriminate|].
  destruct (has_ans_cnt =? 0); [discriminate|].
  injection H as <- <- _.
  exists (Sweep.best_score st). split; [|reflexivity].
  apply sweep_first_maximum in Hsweep. exact Hsweep.
Qed.

End BestThresholdProps.

Example find_best_thresh_toy :
  find_best_thresh_v2_Q toy_preds toy_scores toy_na_probs toy_has_ans
  = Some ((100 * (1 + 0 + 1) / 2)%Q, (9 # 10)%Q, (1 * (0 + 1) / 1)%Q).
Proof. vm_compute. reflexivity. Qed.

(** C4, as stated: a question without gold answer for which nothing was
    predicted would add 1 to the running total.  On the run below the
    totals would then be 2 and 3 and the best score 150 percent; the code
    adds 0 there and returns 100 percent. *)
Lemma agreeing_null_adds_nothing :
  toy_has_ans !! "q1"%string = Some false /\
  toy_preds !! "q1"%string = Some ""%string /\
  ~ sweep_statement_Q 1 toy_preds toy_scores toy_na_probs toy_has_ans.
Proof.
  split; [vm_compute; reflexivity|]. split; [vm_compute; reflexivity|].
  intros Hclaim.
  destruct (Hclaim _ _ _ find_best_thresh_toy) as (_ & _ & best & Hmax & Hpct).
  vm_compute in Hmax.
  destruct Hmax as [(-> & _ & Hall)|(i & Hi & _ & _ & Hall)].
  - specialize (Hall 0%nat _ _ eq_refl). vm_compute in Hall. discriminate.
  - destruct i as [|[|i]]; cbn in Hi; [discriminate| |discriminate].
    injection Hi as <-. vm_compute in Hpct. discriminate.
Qed.

Lemma find_best_thresh_sweep_witness :
  exists best,
    first_maximum Qltb (inject_Z (num_no_ans toy_has_ans)) 0%Q
      (running_totals inject_Z Qplus 0%Q toy_preds toy_scores toy_has_ans
         (sorted_by_na_prob Qltb toy_na_probs) (inject_Z (num_no_ans toy_has_ans)))
      best (9 # 10)%Q /\
    (100 * (1 + 0 + 1) / 2)%Q = (100 * best / inject_Z (Z.of_nat (size toy_scores)))%Q.
Proof.
  exact (proj2 (proj2 (find_best_thresh_sweep inject_Z Qplus Qmult Qdiv Qltb
                         Qltb_irrefl Qltb_trans Qltb_negtrans
                         toy_preds toy_scores toy_na_probs toy_has_ans _ _ _
                         find_best_thresh_toy))).
Defined.

Lemma lower_char_idempotent (c : ascii) : lower_char (lower_char c) = lower_char c.
Proof. destruct c as [[] [] [] [] [] [] [] []]; vm_compute; reflexivity. Qed.

Lemma Forall_chars_lower (text : string) :
  Forall (fun c => lower_char c = c) (list_ascii_of_string (lower text)).
Proof.
  induction text as [|c text IH]; cbn; constructor; [apply lower_char_idempotent|exact IH].
Qed.

Lemma Forall_chars_remove_punc (P : ascii -> Prop) (text : string) :
  Forall P (list_ascii_of_string text) ->
  Forall (fun c => P c /\ is_punctuation c = false)
    (list_ascii_of_string (remove_punc text)).
Proof.
  induction text as [|c text IH]; cbn; intros H; [constructor|].
  apply Forall_cons_1 in H as [Hc H].
  destruct (is_punctuation c) eqn:Hp; [apply IH; exact H|].
  cbn. constructor; [split; assumption|apply IH; exact H].
Qed.

Lemma Forall_chars_remove_articles (P : ascii -> Prop) (text : string) :
  P " "%char -> Forall P (list_ascii_of_string text) ->
  forall prev_word skip,
    Forall P (list_ascii_of_string (remove_articles_loop prev_word skip text)).
Proof.
  intros Hsp. induction text as [|c text IH]; intros H prev_word skip; cbn;
    [constructor|].
  apply Forall_cons_1 in H as [Hc H].
  destruct skip as [|k]; [|apply IH; exact H].
  destruct (if prev_word then None else article_at (String c text)) as [len|]; cbn;
    (constructor; [assumption|apply IH; exact H]).
Qed.

(** Every token of [split] is a non-empty run of non-whitespace characters
    of the text. *)
Lemma split_loop_tokens (P : ascii -> Prop) (text : string) : forall cur,
  Forall P (list_ascii_of_string text) -> Forall P cur ->
  Forall (fun c => is_space c = false) cur ->
  Forall (fun tok => tok <> ""%string /\
                     Forall (fun c => P c /\ is_space c = false)
                       (list_ascii_of_string tok))
    (split_loop cur text).
Proof.
  assert (Hflush : forall cur, Forall P cur -> Forall (fun c => is_space c = false) cur ->
    Forall (fun tok => tok <> ""%string /\
                       Forall (fun c => P c /\ is_space c = false)
                         (list_ascii_of_string tok))
      match cur with [] => [] | _ => [string_of_list_ascii (rev cur)] end).
  { intros [|c cur] HP Hs; constructor; [|constructor]. split.
    - intros E. apply (f_equal list_ascii_of_string) in E.
      rewrite list_ascii_of_string_of_list_ascii in E. cbn in E.
      apply app_eq_nil in E as [_ E]. discriminate.
    - rewrite list_ascii_of_string_of_list_ascii.
      apply Forall_rev. rewrite Forall_forall in HP, Hs. apply Forall_forall.
      intros x Hx. split; [apply HP|apply Hs]; exact Hx. }
  induction text as [|c text IH]; intros cur Htext HP Hs; cbn.
  - apply Hflush; assumption.
  - apply Forall_cons_1 in Htext as [Hc Htext].
    destruct (is_space c) eqn:Hsp.
    + apply Forall_app. split; [apply Hflush; assumption|].
      apply IH; [exact Htext|constructor|constructor].
    + apply IH; [exact Htext|constructor; assumption|constructor; assumption].
Qed.

Lemma chars_append (s1 s2 : string) :
  list_ascii_of_string (s1 +:+ s2)
  = list_ascii_of_string s1 ++ list_ascii_of_string s2.
Proof.
  induction s1 as [|c s1 IH]; [reflexivity|].
  rewrite append_cons. cbn. rewrite IH. reflexivity.
Qed.

Lemma Forall_chars_join (P : ascii -> Prop) (toks : list string) :
  P " "%char ->
  Forall (fun tok => Forall P (list_ascii_of_string tok)) toks ->
  Forall P (list_ascii_of_string (join " " toks)).
Proof.
  intros Hsp. unfold join.
  induction toks as [|tok toks IH]; intros H; [constructor|].
  assert (H' := H). apply Forall_cons_1 in H' as [Htok Htoks].
  destruct toks as [|tok' toks]; [exact Htok|].
  change (String.concat " " (tok :: tok' :: toks))
    with (tok +:+ " " +:+ String.concat " " (tok' :: toks))%string.
  rewrite !chars_append. apply Forall_app. split; [exact Htok|].
  apply Forall_app. split; [repeat constructor; exact Hsp|].
  apply IH. exact Htoks.
Qed.

(** The characters of a normalized answer are lower-case and no
    punctuation marks. *)
Lemma normalize_answer_chars (s : string) :
  Forall (fun c => lower_char c = c /\ is_punctuation c = false)
    (list_ascii_of_string (normalize_answer s)).
Proof.
  unfold normalize_answer, white_space_fix.
  apply Forall_chars_join; [split; reflexivity|].
  unfold split.
  eapply Forall_impl.
  - apply (split_loop_tokens (fun c => lower_char c = c /\ is_punctuation c = false));
      [|constructor|constructor].
    unfold remove_articles. apply Forall_chars_remove_articles; [split; reflexivity|].
    apply Forall_chars_remove_punc. apply Forall_chars_lower.
  - cbn. intros tok [_ H]. eapply Forall_impl; [exact H|]. cbn. tauto.
Qed.

(** *** The normalizer on plain text *)

Lemma lower_chars (text : string) :
  lower text = string_of_list_ascii (map lower_char (list_ascii_of_string text)).
Proof. induction text as [|c text IH]; [reflexivity|]. cbn. rewrite IH. reflexivity. Qed.

Lemma remove_punc_chars (text : string) :
  remove_punc text
  = string_of_list_ascii
      (filter (fun c => is_punctuation c = false) (list_ascii_of_string text)).
Proof.
  induction text as [|c text IH]; [reflexivity|]. cbn [remove_punc list_ascii_of_string].
  rewrite filter_cons. destruct (is_punctuation c) eqn:Hp.
  - destruct (decide (true = false)) as [E|_]; [discriminate|]. exact IH.
  - destruct (decide (false = false)) as [_|E]; [|congruence]. cbn. rewrite IH. reflexivity.
Qed.

Lemma is_word_not_space (c : ascii) : is_word c = true -> is_space c = false.
Proof. destruct c as [[] [] [] [] [] [] [] []]; vm_compute; congruence. Qed.

Lemma plain_char_normalized (c : ascii) :
  is_word c || is_space c || is_punctuation c = true ->
  is_punctuation (lower_char c) = false ->
  is_word (lower_char c) || is_space (lower_char c) = true.
Proof. destruct c as [[] [] [] [] [] [] [] []]; vm_compute; congruence. Qed.

Lemma word_prefix_rest (text : string) : text = (word_prefix text +:+ word_rest text)%string.
Proof.
  induction text as [|c text IH]; [reflexivity|]. cbn.
  destruct (is_word c); [|reflexivity]. rewrite append_cons, <- IH. reflexivity.
Qed.

Lemma word_prefix_chars (text : string) :
  Forall (fun c => is_word c = true) (list_ascii_of_string (word_prefix text)).
Proof.
  induction text as [|c text IH]; cbn; [constructor|].
  destruct (is_word c) eqn:Hc; cbn; constructor; assumption.
Qed.

Lemma word_rest_length (text : string) :
  (String.length (word_rest text) <= String.length text)%nat.
Proof.
  induction text as [|c text IH]; cbn; [lia|]. destruct (is_word c); cbn; lia.
Qed.

Lemma word_rest_head (text : string) :
  match word_rest text with
  | EmptyString => True
  | String d _ => is_word d = false
  end.
Proof.
  induction text as [|c text IH]; cbn; [exact I|].
  destruct (is_word c) eqn:Hc; [exact IH|exact Hc].
Qed.

(** An alternative of word characters matches, with its closing [\b],
    exactly when it is the whole run of word characters at the head. *)
Lemma article_here_word_prefix (alt : string) :
  Forall (fun c => is_word c = true) (list_ascii_of_string alt) ->
  forall text, article_here alt text = true <-> word_prefix text = alt.
Proof.
  unfold article_here.
  induction alt as [|a alt IH]; intros Hw text.
  - cbn. destruct text as [|c text]; cbn; [tauto|].
    destruct (is_word c); cbn; split; congruence.
  - cbn in Hw. apply Forall_cons_1 in Hw as [Ha Hw].
    destruct text as [|c text]; cbn; [split; discriminate|].
    destruct (ascii_dec a c) as [<-|Hne].
    + rewrite Ha. rewrite (IH Hw text). split; [intros ->; reflexivity|congruence].
    + cbn. split; [discriminate|]. destruct (is_word c); congruence.
Qed.

Lemma article_at_word_prefix (text : string) :
  article_at text
  = if is_article (word_prefix text) then Some (String.length (word_prefix text)) else None.
Proof.
  unfold article_at, is_article.
  pose proof (article_here_word_prefix "a" ltac:(repeat constructor) text) as Ha.
  pose proof (article_here_word_prefix "an" ltac:(repeat constructor) text) as Han.
  pose proof (article_here_word_prefix "the" ltac:(repeat constructor) text) as Hthe.
  destruct (String.eqb_spec (word_prefix text) "a") as [E|E].
  - rewrite (proj2 Ha E), E. reflexivity.
  - destruct (article_here "a" text); [exfalso; apply E, Ha; reflexivity|].
    destruct (String.eqb_spec (word_prefix text) "an") as [E2|E2].
    + rewrite (proj2 Han E2), E2. reflexivity.
    + destruct (article_here "an" text); [exfalso; apply E2, Han; reflexivity|].
      destruct (String.eqb_spec (word_prefix text) "the") as [E3|E3].
      * rewrite (proj2 Hthe E3), E3. reflexivity.
      * destruct (article_here "the" text); [exfalso; apply E3, Hthe; reflexivity|].
        reflexivity.
Qed.

(** Passing over the rest of a matched article. *)
Lemma remove_articles_loop_skip (w r : string) :
  remove_articles_loop true (String.length w) (w +:+ r) = remove_articles_loop true 0 r
  \/ ~ Forall (fun c => is_word c = true) (list_ascii_of_string w).
Proof.
  induction w as [|c w IH]; [left; reflexivity|].
  destruct (is_word c) eqn:Hc.
  - destruct IH as [IH|IH].
    + left. rewrite append_cons. cbn. rewrite Hc. exact IH.
    + right. intros H. cbn in H. apply Forall_cons_1 in H as [_ H]. contradiction.
  - right. intros H. cbn in H. apply Forall_cons_1 in H as [H _]. congruence.
Qed.

(** Copying the rest of a run that is no article. *)
Lemma remove_articles_loop_copy (w r : string) :
  Forall (fun c => is_word c = true) (list_ascii_of_string w) ->
  remove_articles_loop true 0 (w +:+ r) = (w +:+ remove_articles_loop true 0 r)%string.
Proof.
  induction w as [|c w IH]; intros H; [reflexivity|].
  cbn in H. apply Forall_cons_1 in H as [Hc H].
  rewrite !append_cons. cbn. rewrite Hc, (IH H). reflexivity.
Qed.

(** At the start of a run of word characters. *)
Lemma remove_articles_loop_run (c : ascii) (rest : string) :
  is_word c = true ->
  let text := String c rest in
  remove_articles_loop false 0 text
  = ((if is_article (word_prefix text) then " " else word_prefix text)
     +:+ remove_articles_loop true 0 (word_rest text))%string.
Proof.
  intros Hc text. unfold text at 1. cbn [remove_articles_loop].
  fold text. rewrite article_at_word_prefix.
  pose proof (word_prefix_chars text) as Hw.
  pose proof (word_prefix_rest text) as Hsplit.
  unfold text in Hw, Hsplit |- *. cbn [word_prefix word_rest] in *. rewrite Hc in *.
  set (w := word_prefix rest) in *. set (r := word_rest rest) in *.
  rewrite append_cons in Hsplit. injection Hsplit as Hrest.
  cbn in Hw. apply Forall_cons_1 in Hw as [_ Hw].
  destruct (is_article (String c w)).
  - replace (String.length (String c w) - 1)%nat with (String.length w) by (cbn; lia).
    rewrite ?Hc, append_cons, append_empty. f_equal. rewrite Hrest at 1.
    destruct (remove_articles_loop_skip w r) as [H|H]; [exact H|contradiction].
  - rewrite ?Hc, append_cons. f_equal. rewrite Hrest at 1.
    apply remove_articles_loop_copy. exact Hw.
Qed.

Lemma split_loop_run (w : string) : forall cur r,
  Forall (fun c => is_space c = false) (list_ascii_of_string w) ->
  split_loop cur (w +:+ r) = split_loop (rev (list_ascii_of_string w) ++ cur) r.
Proof.
  induction w as [|c w IH]; intros cur r H; [reflexivity|].
  cbn in H. apply Forall_cons_1 in H as [Hc H].
  rewrite append_cons. cbn [split_loop]. rewrite Hc, (IH _ _ H).
  cbn [list_ascii_of_string rev]. rewrite <- app_assoc. reflexivity.
Qed.

(** A run of non-whitespace characters in front of a whitespace character
    or the end is a token. *)
Lemma split_run (c : ascii) (w r : string) :
  Forall (fun c => is_space c = false) (list_ascii_of_string (String c w)) ->
  match r with
  | EmptyString => True
  | String d _ => is_space d = true
  end ->
  split (String c w +:+ r) = String c w :: split r.
Proof.
  intros Hw Hr. unfold split. rewrite split_loop_run by exact Hw.
  rewrite app_nil_r.
  assert (Hflush : match rev (list_ascii_of_string (String c w)) with
                   | [] => []
                   | _ => [string_of_list_ascii
                             (rev (rev (list_ascii_of_string (String c w))))]
                   end = [String c w]).
  { rewrite rev_involutive, string_of_list_ascii_of_string.
    destruct (rev (list_ascii_of_string (String c w))) eqn:E; [|reflexivity].
    apply (f_equal (@List.length ascii)) in E. rewrite length_rev in E. discriminate. }
  destruct r as [|d r]; cbn [split_loop].
  - exact Hflush.
  - rewrite Hr, Hflush. reflexivity.
Qed.

Lemma Forall_word_not_space (w : string) :
  Forall (fun c => is_word c = true) (list_ascii_of_string w) ->
  Forall (fun c => is_space c = false) (list_ascii_of_string w).
Proof. intros H. eapply Forall_impl; [exact H|]. intros c. apply is_word_not_space. Qed.

(** On a text of word characters and whitespace, removing the articles
    and splitting is splitting and dropping the words that are articles. *)
Lemma split_remove_articles (n : nat) : forall text,
  (String.length text <= n)%nat ->
  Forall (fun c => is_word c || is_space c = true) (list_ascii_of_string text) ->
  split (remove_articles text) = filter (fun w => is_article w = false) (split text).
Proof.
  unfold remove_articles.
  induction n as [|n IH]; intros text Hlen Hplain.
  { destruct text; [reflexivity|cbn in Hlen; lia]. }
  destruct text as [|c rest]; [reflexivity|].
  destruct (is_word c) eqn:Hc.
  - replace (split (String c rest))
      with (split (word_prefix (String c rest) +:+ word_rest (String c rest)))
      by (rewrite <- word_prefix_rest; reflexivity).
    rewrite (remove_articles_loop_run c rest Hc).
    pose proof (word_prefix_rest (String c rest)) as Hsplit.
    pose proof (word_prefix_chars (String c rest)) as Hw.
    pose proof (word_rest_head (String c rest)) as Hhead.
    pose proof (word_rest_length rest) as Hrlen.
    rewrite Hsplit in Hplain. rewrite chars_append in Hplain.
    apply Forall_app in Hplain as [_ Hplain_r]. clear Hsplit.
    cbn [word_prefix word_rest] in *. rewrite Hc in *.
    set (w := word_prefix rest) in *. set (r := word_rest rest) in *.
    assert (Hr : match r with EmptyString => True | String d _ => is_space d = true end).
    { destruct r as [|d r']; [exact I|].
      cbn in Hplain_r. apply Forall_cons_1 in Hplain_r as [Hd _].
      rewrite Hhead in Hd. exact Hd. }
    rewrite (split_run c w r (Forall_word_not_space _ Hw) Hr).
    rewrite filter_cons.
    assert (Htail : split (remove_articles_loop true 0 r)
                    = filter (fun w => is_article w = false) (split r)
                    /\ match remove_articles_loop true 0 r with
                       | EmptyString => True
                       | String d _ => is_space d = true
                       end).
    { destruct r as [|d r']; [split; [reflexivity|exact I]|].
      cbn [remove_articles_loop]. rewrite Hhead. split; [|exact Hr].
      unfold split. cbn [split_loop]. rewrite Hr. cbn [app].
      apply IH.
      - cbn in Hlen, Hrlen. lia.
      - cbn in Hplain_r. apply Forall_cons_1 in Hplain_r as [_ H]. exact H. }
    destruct Htail as [Htail Hhead'].
    destruct (is_article (String c w)).
    + destruct (decide (true = false)) as [E|_]; [discriminate|].
      rewrite <- Htail. unfold split. rewrite append_cons, append_empty.
      cbn [split_loop]. reflexivity.
    + destruct (decide (false = false)) as [_|E]; [|congruence].
      rewrite <- Htail.
      apply (split_run c w _ (Forall_word_not_space _ Hw) Hhead').
  - cbn in Hplain. apply Forall_cons_1 in Hplain as [Hsp Hplain].
    rewrite Hc in Hsp. cbn in Hsp.
    cbn [remove_articles_loop]. rewrite article_at_word_prefix.
    cbn [word_prefix]. rewrite Hc. cbn [is_article String.eqb orb].
    unfold split. cbn [split_loop]. rewrite Hsp. cbn [app].
    apply IH; [cbn in Hlen; lia|exact Hplain].
Qed.

Lemma normalize_answer_by_words (s : string) :
  plain_text s -> normalize_answer s = normalize_by_words s.
Proof.
  intros Hplain. unfold normalize_answer, normalize_by_words, white_space_fix.
  cbv zeta. rewrite (split_remove_articles _ _ (le_n _)).
  { rewrite remove_punc_chars, lower_chars, list_ascii_of_string_of_list_ascii.
    reflexivity. }
  rewrite remove_punc_chars, lower_chars.
  rewrite !list_ascii_of_string_of_list_ascii.
  unfold plain_text in Hplain.
  induction (list_ascii_of_string s) as [|c l IH]; [constructor|].
  apply Forall_cons_1 in Hplain as [Hc Hl]. cbn [map]. rewrite filter_cons.
  destruct (decide (is_punctuation (lower_char c) = false)) as [Hp|_]; [|exact (IH Hl)].
  constructor; [exact (plain_char_normalized c Hc Hp)|exact (IH Hl)].
Qed.

Lemma plain_text_forallb (s : string) :
  forallb (fun c => is_word c || is_space c || is_punctuation c)
    (list_ascii_of_string s) = true ->
  plain_text s.
Proof.
  unfold plain_text. induction (list_ascii_of_string s) as [|c l IH]; cbn; intros H;
    [constructor|].
  apply andb_true_iff in H as [Hc Hl]. constructor; [exact Hc|exact (IH Hl)].
Qed.

(** The normalized answer is a list of tokens joined by single spaces. *)
Lemma normalize_answer_tokens (s : string) :
  exists toks,
    normalize_answer s = join " " toks /\
    Forall (fun tok =>
              tok <> ""%string /\
              Forall (fun c => lower_char c = c /\ is_punctuation c = false /\
                               is_space c = false)
                (list_ascii_of_string tok)) toks.
Proof.
  unfold normalize_answer, white_space_fix. eexists. split; [reflexivity|].
  unfold split. eapply Forall_impl.
  - apply (split_loop_tokens (fun c => lower_char c = c /\ is_punctuation c = false));
      [|constructor|constructor].
    unfold remove_articles. apply Forall_chars_remove_articles; [split; reflexivity|].
    apply Forall_chars_remove_punc. apply Forall_chars_lower.
  - cbn. intros tok [Hne H]. split; [exact Hne|].
    eapply Forall_impl; [exact H|]. cbn. tauto.
Qed.

(** C9: [normalize_answer] lowercases, strips punctuation, removes the
    articles as whole words and collapses whitespace.  On every text of
    letters, digits, underscores, whitespace and punctuation it returns the
    whitespace-separated words of the lowercased text without its
    punctuation marks, the words [a], [an] and [the] left out, joined by
    single spaces; on every text its result is a list of non-empty tokens
    joined by single spaces whose characters are lower-case, no punctuation
    and no whitespace.  So [normalize_answer("The Japan.")] is ["japan"]
    and [compute_f1("the japan", "Japan")] is 1; and when either normalized
    token bag is empty [compute_f1] is 1 if both are empty and 0
    otherwise. *)
Theorem normalize_and_f1_scenario :
  (forall s, plain_text s -> normalize_answer s = normalize_by_words s) /\
  (forall s, exists toks,
     normalize_answer s = join " " toks /\
     Forall (fun tok =>
               tok <> ""%string /\
               Forall (fun c => lower_char c = c /\ is_punctuation c = false /\
                                is_space c = false)
                 (list_ascii_of_string tok)) toks) /\
  normalize_answer "The Japan." = "japan"%string /\
  (compute_f1 "the japan" "Japan" == 1)%Q /\
  (forall a_gold a_pred,
     get_tokens a_gold = [] -> get_tokens a_pred = [] ->
     compute_f1 a_gold a_pred = 1%Q) /\
  (forall a_gold a_pred,
     get_tokens a_gold = [] \/ get_tokens a_pred = [] ->
     get_tokens a_gold <> get_tokens a_pred ->
     compute_f1 a_gold a_pred = 0%Q).
Proof.
  split; [exact normalize_answer_by_words|].
  split; [exact normalize_answer_tokens|].
  split; [vm_compute; reflexivity|].
  split; [vm_compute; reflexivity|].
  split.
  - intros a_gold a_pred Hg Hp. unfold compute_f1. rewrite Hg, Hp. reflexivity.
  - intros a_gold a_pred Hempty Hne. unfold compute_f1.
    apply f1_of_tokens_empty_one; assumption.
Qed.

Lemma normalize_and_f1_scenario_witness :
  normalize_answer "An apple, a day & THE  doctor_1 (anthem)."
  = normalize_by_words "An apple, a day & THE  doctor_1 (anthem)." /\
  compute_f1 "" "The" = 1%Q /\ compute_f1 "a the" "Japan" = 0%Q.
Proof.
  split; [|split].
  - apply (proj1 normalize_and_f1_scenario). apply plain_text_forallb.
    vm_compute. reflexivity.
  - apply (proj1 (proj2 (proj2 (proj2 (proj2 normalize_and_f1_scenario)))));
      vm_compute; reflexivity.
  - apply (proj2 (proj2 (proj2 (proj2 (proj2 normalize_and_f1_scenario))))).
    + left. vm_compute. reflexivity.
    + vm_compute. discriminate.
Defined.

Example normalize_by_words_apple :
  normalize_by_words "An apple, a day & THE  doctor_1 (anthem)."
  = "apple day doctor1 anthem"%string.
Proof. vm_compute. reflexivity. Qed.

(** ** Scorer: further properties *)

Lemma size_list_to_set_disj (l : list string) :
  size (list_to_set_disj l : gmultiset string) = List.length l.
Proof.
  induction l as [|x l IH]; [reflexivity|].
  rewrite list_to_set_disj_cons, gmultiset_size_disj_union, gmultiset_size_singleton, IH.
  reflexivity.
Qed.

(** The number of common tokens is at most the size of either bag. *)
Lemma num_same_le (gold_toks pred_toks : list string) :
  (size (list_to_set_disj gold_toks ∩ list_to_set_disj pred_toks : gmultiset string)
   <= List.length gold_toks)%nat /\
  (size (list_to_set_disj gold_toks ∩ list_to_set_disj pred_toks : gmultiset string)
   <= List.length pred_toks)%nat.
Proof.
  split.
  - etransitivity; [|rewrite <- (size_list_to_set_disj gold_toks); reflexivity].
    apply gmultiset_subseteq_size. multiset_solver.
  - etransitivity; [|rewrite <- (size_list_to_set_disj pred_toks); reflexivity].
    apply gmultiset_subseteq_size. multiset_solver.
Qed.

Lemma inject_nat_pos (n : nat) : (0 < n)%nat -> (0 < inject_Z (Z.of_nat n))%Q.
Proof. intros H. change 0%Q with (inject_Z 0). rewrite <- Zlt_Qlt. lia. Qed.

Lemma harmonic_mean_closed_form (a g p : Q) :
  (0 < a)%Q -> (0 < g)%Q -> (0 < p)%Q ->
  ((2 * (1 * a / p) * (1 * a / g)) / ((1 * a / p) + (1 * a / g)) == 2 * a / (g + p))%Q.
Proof.
  intros Ha Hg Hp.
  assert (~ a == 0)%Q by (intros E; rewrite E in Ha; apply (Qlt_irrefl 0); exact Ha).
  assert (~ g == 0)%Q by (intros E; rewrite E in Hg; apply (Qlt_irrefl 0); exact Hg).
  assert (~ p == 0)%Q by (intros E; rewrite E in Hp; apply (Qlt_irrefl 0); exact Hp).
  assert (~ g + p == 0)%Q.
  { intros E. assert (0 < g + p)%Q.
    { rewrite <- (Qplus_0_l 0). apply Qplus_lt_le_compat; [exact Hg|apply Qlt_le_weak; exact Hp]. }
    rewrite E in H2. apply (Qlt_irrefl 0). exact H2. }
  field. repeat split; try assumption.
  intros E. assert (E' : (a * (g + p) == 0)%Q) by (rewrite <- E; ring).
  apply Qmult_integral in E' as [E'|E']; contradiction.
Qed.

(** For non-empty bags with a common token the model's F1 is
    [2 * num_same / (len(gold_toks) + len(pred_toks))]. *)
Lemma f1_of_tokens_closed_form (gold_toks pred_toks : list string) :
  let num_same :=
    size (list_to_set_disj gold_toks ∩ list_to_set_disj pred_toks : gmultiset string) in
  gold_toks <> [] -> pred_toks <> [] -> (0 < num_same)%nat ->
  (f1_of_tokens gold_toks pred_toks
   == 2 * inject_Z (Z.of_nat num_same) / (Qlen gold_toks + Qlen pred_toks))%Q.
Proof.
  intros num_same Hg Hp Hn. unfold f1_of_tokens. fold num_same.
  destruct gold_toks as [|g gold_toks]; [congruence|].
  destruct pred_toks as [|p pred_toks]; [congruence|].
  cbn [List.length Nat.eqb orb].
  destruct (Nat.eqb_spec num_same 0) as [E|_]; [lia|].
  apply harmonic_mean_closed_form.
  - apply inject_nat_pos. exact Hn.
  - apply inject_nat_pos. cbn. lia.
  - apply inject_nat_pos. cbn. lia.
Qed.

Lemma compute_f1_range (a_gold a_pred : string) :
  (0 <= compute_f1 a_gold a_pred <= 1)%Q.
Proof.
  unfold compute_f1.
  set (gold_toks := get_tokens a_gold). set (pred_toks := get_tokens a_pred).
  destruct (num_same_le gold_toks pred_toks) as [Hle_g Hle_p].
  destruct (decide (gold_toks = [] \/ pred_toks = [])) as [Hempty|Hfull].
  - unfold f1_of_tokens.
    assert (Hlen : (List.length gold_toks =? 0)%nat || (List.length pred_toks =? 0)%nat
                   = true).
    { destruct Hempty as [-> | ->]; cbn; [reflexivity|apply orb_true_r]. }
    rewrite Hlen. destruct (decide (gold_toks = pred_toks)); split; discriminate.
  - assert (Hg : gold_toks <> []) by tauto. assert (Hp : pred_toks <> []) by tauto.
    destruct (Nat.eq_dec
                (size (list_to_set_disj gold_toks ∩ list_to_set_disj pred_toks
                       : gmultiset string)) 0%nat) as [Hz|Hnz].
    + unfold f1_of_tokens. rewrite Hz.
      destruct gold_toks; [congruence|]. destruct pred_toks; [congruence|].
      cbn. split; discriminate.
    + rewrite f1_of_tokens_closed_form by (assumption || lia).
      set (n := size _) in *.
      assert (Hpos : (0 < Qlen gold_toks + Qlen pred_toks)%Q).
      { unfold Qlen. rewrite <- inject_Z_plus. change 0%Q with (inject_Z 0).
        rewrite <- Zlt_Qlt. destruct gold_toks; [congruence|]. cbn [List.length]. lia. }
      split.
      * apply Qle_shift_div_l; [exact Hpos|]. rewrite Qmult_0_l.
        apply Qmult_le_0_compat; [discriminate|].
        change 0%Q with (inject_Z 0). rewrite <- Zle_Qle. lia.
      * apply Qle_shift_div_r; [exact Hpos|]. rewrite Qmult_1_l.
        unfold Qlen. rewrite <- inject_Z_plus.
        change 2%Q with (inject_Z 2). rewrite <- inject_Z_mult, <- Zle_Qle. lia.
Qed.

(** X1: [compute_f1] never leaves the interval from 0 to 1. *)
Theorem compute_f1_between_0_and_1 (a_gold a_pred : string) :
  (0 <= compute_f1 a_gold a_pred <= 1)%Q.
Proof. apply compute_f1_range. Qed.

(** X2: a text scores 1 against itself, in exact match and in F1, whether
    or not its normalized token bag is empty. *)
Theorem scores_of_identical_texts (s : string) :
  compute_exact s s = 1 /\ (compute_f1 s s == 1)%Q.
Proof.
  split.
  - unfold compute_exact. destruct (decide _); [reflexivity|congruence].
  - unfold compute_f1. generalize (get_tokens s). intros toks.
    destruct (decide (toks = [])) as [->|Hne]; [reflexivity|].
    assert (Hlen : (0 < List.length toks)%nat).
    { destruct toks; [congruence|]. cbn. lia. }
    assert (Hsame : size (list_to_set_disj toks ∩ list_to_set_disj toks
                          : gmultiset string) = List.length toks).
    { rewrite (idemp_L (∩)). apply size_list_to_set_disj. }
    rewrite f1_of_tokens_closed_form; [|exact Hne|exact Hne|lia].
    rewrite Hsame. unfold Qlen.
    set (n := inject_Z (Z.of_nat (List.length toks))).
    assert (Hn : (0 < n)%Q) by (apply inject_nat_pos; exact Hlen).
    field. intros E. assert (E' : (n == 0)%Q).
    { assert (H : (n + n == 2 * n)%Q) by ring. rewrite H in E.
      apply Qmult_integral in E as [E|E]; [discriminate|exact E]. }
    rewrite E' in Hn. apply (Qlt_irrefl 0). exact Hn.
Qed.

(** *** The shape of normalized tokens *)

(** X3: every token that [get_tokens] returns is non-empty, and each of
    its characters is lower-case (unchanged by [lower]), is no punctuation
    mark and is no whitespace. *)
Theorem get_tokens_normalized (s tok : string) :
  tok ∈ get_tokens s ->
  tok <> ""%string /\
  Forall (fun c => lower_char c = c /\ is_punctuation c = false /\ is_space c = false)
    (list_ascii_of_string tok).
Proof.
  unfold get_tokens. destruct (nonempty s); [|intros H; apply elem_of_nil in H; tauto].
  intros Hin. unfold split in Hin.
  pose proof (split_loop_tokens _ (normalize_answer s) [] (normalize_answer_chars s)
                ltac:(constructor) ltac:(constructor)) as Hall.
  rewrite Forall_forall in Hall. destruct (Hall tok Hin) as [Hne Hchars].
  split; [exact Hne|]. eapply Forall_impl; [exact Hchars|]. cbn. tauto.
Qed.

Lemma get_tokens_normalized_witness :
  "japan"%string <> ""%string /\
  Forall (fun c => lower_char c = c /\ is_punctuation c = false /\ is_space c = false)
    (list_ascii_of_string "japan").
Proof.
  apply (get_tokens_normalized "The Japan." "japan").
  vm_compute. apply list_elem_of_singleton. reflexivity.
Defined.

(** *** Empty token bags and the empty gold answer *)

Lemma split_loop_nil (text : string) : forall cur,
  split_loop cur text = [] ->
  cur = [] /\ Forall (fun c => is_space c = true) (list_ascii_of_string text).
Proof.
  induction text as [|c text IH]; intros cur H; cbn in H.
  - destruct cur; [split; [reflexivity|constructor]|discriminate].
  - destruct (is_space c) eqn:Hsp.
    + apply app_eq_nil in H as [Hflush H].
      destruct cur; [|discriminate].
      split; [reflexivity|]. cbn. constructor; [exact Hsp|].
      apply (IH [] H).
    + apply IH in H as [H _]. discriminate.
Qed.

Lemma join_nil_iff (toks : list string) :
  Forall (fun tok => tok <> ""%string) toks ->
  join " " toks = ""%string -> toks = [].
Proof.
  intros Hne H. destruct toks as [|tok toks]; [reflexivity|].
  apply Forall_cons_1 in Hne as [Htok _]. unfold join in H.
  destruct toks as [|tok' toks]; cbn in H; [contradiction|].
  destruct tok; [contradiction|]. rewrite append_cons in H. discriminate.
Qed.

(** The token bag of a text is empty exactly when the text normalizes to
    the empty string. *)
Lemma get_tokens_nil_iff (s : string) :
  get_tokens s = [] <-> normalize_answer s = ""%string.
Proof.
  unfold get_tokens. destruct s as [|c s]; [split; reflexivity|].
  cbn [nonempty]. split.
  - intros H. apply split_loop_nil in H as [_ Hspaces].
    unfold normalize_answer, white_space_fix in *.
    set (toks := split _) in *.
    assert (Htoks : Forall (fun tok => tok <> ""%string /\
                       Forall (fun c => True /\ is_space c = false)
                         (list_ascii_of_string tok)) toks).
    { apply (split_loop_tokens (fun _ => True)); [|constructor|constructor].
      apply Forall_forall. intros; exact I. }
    destruct toks as [|tok toks]; [reflexivity|]. exfalso.
    apply Forall_cons_1 in Htoks as [[Hne Hchars] _].
    destruct tok as [|d tok]; [contradiction|].
    cbn in Hchars. apply Forall_cons_1 in Hchars as [[_ Hd] _].
    assert (Hhead : exists rest, join " " (String d tok :: toks) = String d rest).
    { unfold join. destruct toks; cbn; [eauto|]. rewrite append_cons. eauto. }
    destruct Hhead as [rest Hhead]. rewrite Hhead in Hspaces. cbn in Hspaces.
    apply Forall_cons_1 in Hspaces as [Hd' _]. congruence.
  - intros ->. reflexivity.
Qed.

(** X4: against the empty gold answer (the gold answer of an unanswerable
    question) F1 and exact match agree: both are 1 when the prediction
    normalizes to the empty string and 0 otherwise. *)
Theorem empty_gold_scores_agree (a_pred : string) :
  compute_f1 "" a_pred = inject_Z (compute_exact "" a_pred) /\
  (compute_exact "" a_pred = 1 <-> normalize_answer a_pred = ""%string) /\
  (compute_exact "" a_pred = 0 <-> normalize_answer a_pred <> ""%string).
Proof.
  unfold compute_exact, compute_f1.
  change (normalize_answer "") with ""%string. change (get_tokens "") with (@nil string).
  pose proof (get_tokens_nil_iff a_pred) as Hiff.
  unfold f1_of_tokens. cbn [List.length Nat.eqb orb].
  destruct (decide (""%string = normalize_answer a_pred)) as [Heq|Hne];
    destruct (decide ([] = get_tokens a_pred)) as [Heq'|Hne'].
  - repeat split; try reflexivity; try congruence; try discriminate.
  - exfalso. apply Hne'. symmetry. apply Hiff. congruence.
  - exfalso. apply Hne. symmetry. apply Hiff. congruence.
  - repeat split; try reflexivity; try congruence; try discriminate.
Qed.

(** *** Raw scores *)

(** [py_max] answers the value of one of the elements. *)
Lemma py_max_elem {A B : Type} (ltb : B -> B -> bool) (f : A -> B) (l : list A) m :
  py_max ltb f l = Some m -> exists a, a ∈ l /\ m = f a.
Proof.
  destruct l as [|a rest]; [discriminate|]. cbn. intros [= <-].
  assert (H : forall rest' m0, (exists a0, a0 ∈ a :: rest /\ m0 = f a0) ->
            (forall x, x ∈ rest' -> x ∈ a :: rest) ->
            exists a0, a0 ∈ a :: rest /\
              foldl (fun m x => if ltb m (f x) then f x else m) m0 rest' = f a0).
  { induction rest' as [|x rest' IH]; intros m0 Hm0 Hsub; cbn.
    - destruct Hm0 as (a0 & Hin & ->). eauto.
    - apply IH.
      + destruct (ltb m0 (f x)); [|exact Hm0].
        exists x. split; [apply Hsub; left|reflexivity].
      + intros y Hy. apply Hsub. right. exact Hy. }
  destruct (H rest (f a)) as (a0 & Hin & Heq).
  - exists a. split; [left|reflexivity].
  - intros x Hx. right. exact Hx.
  - exists a0. split; [exact Hin|]. exact Heq.
Qed.

Lemma gold_answers_nonempty (qa : QA.t) : gold_answers qa <> [].
Proof. unfold gold_answers. destruct (filter _ _); discriminate. Qed.

Lemma compute_exact_01 a_gold a_pred :
  compute_exact a_gold a_pred = 0 \/ compute_exact a_gold a_pred = 1.
Proof. unfold compute_exact. destruct (decide _); auto. Qed.

Lemma exists_id_snoc (done : list QA.t) (qa : QA.t) (qid : string) :
  (exists q, q ∈ done ++ [qa] /\ QA.id q = qid) <->
  (exists q, q ∈ done /\ QA.id q = qid) \/ QA.id qa = qid.
Proof.
  split.
  - intros (q & Hq & Hid). apply elem_of_app in Hq as [Hq|Hq]; [left; eauto|].
    apply list_elem_of_singleton in Hq. subst q. right. exact Hid.
  - intros [(q & Hq & Hid)|Hid].
    + exists q. split; [apply elem_of_app; left; exact Hq|exact Hid].
    + exists qa. split; [apply elem_of_app; right; apply list_elem_of_singleton;
                         reflexivity|exact Hid].
Qed.

Lemma score_question_inv preds done acc qa :
  scores_inv preds done acc ->
  exists acc', score_question preds acc qa = Some acc' /\
               scores_inv preds (done ++ [qa]) acc'.
Proof.
  intros Hinv. unfold score_question.
  destruct (preds !! QA.id qa) as [a_pred|] eqn:Hpred.
  - destruct (py_max Z.ltb (fun a => compute_exact a a_pred) (gold_answers qa))
      as [ex|] eqn:Hex.
    2: { pose proof (gold_answers_nonempty qa). destruct (gold_answers qa);
         [congruence|discriminate]. }
    destruct (py_max Qltb (fun a => compute_f1 a a_pred) (gold_answers qa))
      as [f1|] eqn:Hf1.
    2: { pose proof (gold_answers_nonempty qa). destruct (gold_answers qa);
         [congruence|discriminate]. }
    cbn. eexists. split; [reflexivity|].
    apply py_max_elem in Hex as (a1 & _ & ->).
    apply py_max_elem in Hf1 as (a2 & _ & ->).
    intros qid. destruct (Hinv qid) as (H1 & H2 & H3 & H4). cbn [fst snd].
    rewrite exists_id_snoc.
    destruct (decide (QA.id qa = qid)) as [<-|Hne].
    + rewrite !lookup_insert_eq, Hpred.
      split; [split; eauto|]. split; [split; eauto|]. split.
      * intros v [= <-]. apply compute_exact_01.
      * intros v [= <-]. apply compute_f1_range.
    + rewrite !lookup_insert_ne by exact Hne. rewrite H1, H2.
      split; [tauto|]. split; [tauto|]. split; assumption.
  - eexists. split; [reflexivity|].
    intros qid. destruct (Hinv qid) as (H1 & H2 & H3 & H4).
    rewrite exists_id_snoc, H1, H2.
    assert (Hno : QA.id qa = qid -> ~ is_Some (preds !! qid)).
    { intros <- [x Hx]. congruence. }
    split; [tauto|]. split; [tauto|]. split; assumption.
Qed.

Lemma score_questions_inv preds qas : forall done acc,
  scores_inv preds done acc ->
  exists acc', score_questions preds qas acc = Some acc' /\
               scores_inv preds (done ++ qas) acc'.
Proof.
  induction qas as [|qa qas IH]; intros done acc Hinv; cbn.
  - exists acc. rewrite app_nil_r. split; [reflexivity|exact Hinv].
  - destruct (score_question_inv preds done acc qa Hinv) as (acc1 & -> & Hinv1).
    cbn. destruct (IH _ _ Hinv1) as (acc' & Hrun & Hinv').
    exists acc'. split; [exact Hrun|].
    rewrite <- app_assoc in Hinv'. exact Hinv'.
Qed.

(** X5: [get_raw_scores] always returns.  The two dictionaries it returns
    have the same keys: the ids of the dataset's questions for which a
    prediction exists (a question without prediction is skipped).  Every
    exact score is 0 or 1 and every F1 score lies between 0 and 1. *)
Theorem get_raw_scores_keys_and_ranges (dataset : list (list (list QA.t)))
    (preds : gmap string string) :
  exists exact_scores f1_scores,
    get_raw_scores dataset preds = Some (exact_scores, f1_scores) /\
    forall qid,
      (is_Some (exact_scores !! qid) <->
       (exists qa, qa ∈ questions dataset /\ QA.id qa = qid) /\
       is_Some (preds !! qid)) /\
      (is_Some (f1_scores !! qid) <-> is_Some (exact_scores !! qid)) /\
      (forall v, exact_scores !! qid = Some v -> v = 0 \/ v = 1) /\
      (forall v, f1_scores !! qid = Some v -> (0 <= v <= 1)%Q).
Proof.
  unfold get_raw_scores.
  destruct (score_questions_inv preds (questions dataset) [] (∅, ∅))
    as ([ex f1] & Hrun & Hinv).
  { intros qid. cbn. rewrite !lookup_empty.
    split; [split; [intros [x Hx]; discriminate|
                    intros [(q & Hq & _) _]; apply elem_of_nil in Hq; contradiction]|].
    split; [split; [intros [x Hx]; discriminate|
                    intros [(q & Hq & _) _]; apply elem_of_nil in Hq; contradiction]|].
    split; intros v Hv; discriminate. }
  exists ex, f1. split; [exact Hrun|].
  intros qid. destruct (Hinv qid) as (H1 & H2 & H3 & H4). cbn in *.
  split; [exact H1|]. split; [rewrite H1, H2; tauto|]. split; assumption.
Qed.

(** *** When the threshold search returns *)

Section ThresholdDefined.
Context {F : Type}.
Variable F_of_Z : Z -> F.
Variable fadd fmul fdiv : F -> F -> F.
Variable flt : F -> F -> bool.

Local Abbreviation sweep' := (sweep F_of_Z fadd flt).
Local Abbreviation question_diff' := (question_diff F_of_Z).
Local Abbreviation has_ans_loop' := (has_ans_loop fadd).
Local Abbreviation find_best_thresh_v2' := (find_best_thresh_v2 F_of_Z fadd fmul fdiv flt).

Lemma sweep_is_Some preds scores has qid_list : forall st,
  is_Some (sweep' preds scores has qid_list st) <->
  (forall qid p, (qid, p) ∈ qid_list ->
     (forall score, scores !! qid = Some score ->
        is_Some (question_diff' preds has qid score))).
Proof.
  induction qid_list as [|[qid na_prob] rest IH]; intros st; cbn.
  - split; [|eauto]. intros _ q p Hin. apply elem_of_nil in Hin. contradiction.
  - destruct (scores !! qid) as [score|] eqn:Hscore.
    + destruct (question_diff' preds has qid score) as [diff|] eqn:Hdiff; cbn.
      * rewrite IH. split.
        -- intros H q p Hin sc Hsc. apply elem_of_cons in Hin as [[= -> ->]|Hin].
           ++ rewrite Hscore in Hsc. injection Hsc as <-. rewrite Hdiff. eauto.
           ++ eapply H; eassumption.
        -- intros H q p Hin. apply (H q p). right. exact Hin.
      * split; [intros [x Hx]; discriminate|].
        intros H. specialize (H qid na_prob ltac:(left) score Hscore).
        rewrite Hdiff in H. destruct H as [x Hx]. discriminate.
    + rewrite IH. split.
      * intros H q p Hin sc Hsc. apply elem_of_cons in Hin as [[= -> ->]|Hin].
        -- congruence.
        -- eapply H; eassumption.
      * intros H q p Hin. apply (H q p). right. exact Hin.
Qed.

Lemma question_diff_is_Some preds has qid score :
  is_Some (question_diff' preds has qid score) <->
  has !! qid = Some true \/ (has !! qid = Some false /\ is_Some (preds !! qid)).
Proof.
  unfold question_diff. destruct (has !! qid) as [[|]|].
  - split; [auto|eauto].
  - destruct (preds !! qid); cbn.
    + split; [intros _; right; split; [reflexivity|eauto]|eauto].
    + split; [intros [x Hx]; discriminate|].
      intros [H|[_ [x Hx]]]; discriminate.
  - split; [intros [x Hx]; discriminate|]. intros [H|[H _]]; discriminate.
Qed.

(** The second loop returns exactly when every question id is a key of
    [qid_to_has_ans], and then it has counted the questions with a gold
    answer. *)
Lemma has_ans_loop_spec scores has qid_list : forall total cnt,
  (forall qid p, (qid, p) ∈ qid_list -> is_Some (has !! qid)) ->
  exists total',
    has_ans_loop' scores has qid_list total cnt
    = Some (total', cnt + Zlen (filter (fun qp => has !! fst qp = Some true) qid_list)).
Proof.
  induction qid_list as [|[qid na_prob] rest IH]; intros total cnt Hkeys;
    cbn [has_ans_loop].
  - exists total. unfold Zlen. cbn. rewrite Z.add_0_r. reflexivity.
  - assert (Hrest : forall q p, (q, p) ∈ rest -> is_Some (has !! q)).
    { intros q p Hin. apply (Hkeys q p). right. exact Hin. }
    destruct (Hkeys qid na_prob ltac:(left)) as [b Hb]. rewrite Hb.
    rewrite filter_cons. cbn [fst]. rewrite Hb.
    destruct b.
    + rewrite decide_True by reflexivity.
      replace (cnt + Zlen ((qid, na_prob) :: filter _ rest))
        with (cnt + 1 + Zlen (filter (fun qp => has !! fst qp = Some true) rest))
        by (unfold Zlen; cbn [List.length]; lia).
      destruct (scores !! qid); apply IH; exact Hrest.
    + rewrite decide_False by discriminate. apply IH. exact Hrest.
Qed.

Lemma has_ans_loop_keys scores has qid_list : forall total cnt,
  is_Some (has_ans_loop' scores has qid_list total cnt) ->
  forall qid p, (qid, p) ∈ qid_list -> is_Some (has !! qid).
Proof.
  induction qid_list as [|[qid na_prob] rest IH]; intros total cnt H q p Hin; cbn in H.
  - apply elem_of_nil in Hin. contradiction.
  - destruct (has !! qid) as [b|] eqn:Hb; [|destruct H; discriminate].
    apply elem_of_cons in Hin as [[= -> ->]|Hin]; [rewrite Hb; eauto|].
    destruct b; [destruct (scores !! qid)|]; eapply IH; eassumption.
Qed.

Lemma filter_length_pos {A : Type} (P : A -> Prop) {Hdec : forall x, Decision (P x)}
    (l : list A) :
  Zlen (filter P l) <> 0 <-> exists x, x ∈ l /\ P x.
Proof.
  unfold Zlen. split.
  - intros H. destruct (filter P l) as [|x rest] eqn:Hf; [cbn in H; lia|].
    exists x. assert (Hx : x ∈ filter P l) by (rewrite Hf; left).
    apply list_elem_of_filter in Hx. tauto.
  - intros (x & Hin & HP) H.
    assert (Hx : x ∈ filter P l) by (apply list_elem_of_filter; tauto).
    destruct (filter P l); [apply elem_of_nil in Hx; contradiction|cbn in H; lia].
Qed.

(** X6: [find_best_thresh_v2] returns a result exactly on the inputs
    described by [thresh_defined]; on all others it raises (a missing key,
    or a division by zero when there is no score or no swept question with
    a gold answer). *)
Theorem find_best_thresh_defined preds scores na_probs qid_to_has_ans :
  is_Some (find_best_thresh_v2' preds scores na_probs qid_to_has_ans) <->
  thresh_defined preds scores na_probs qid_to_has_ans.
Proof.
  unfold find_best_thresh_v2, thresh_defined.
  set (qid_list := sorted_by_na_prob flt na_probs).
  assert (Hperm : forall x, x ∈ qid_list <-> x ∈ na_probs).
  { intros x. unfold qid_list. rewrite (sorted_by_na_prob_perm flt na_probs). reflexivity. }
  set (st0 := Sweep.mk _ _ _).
  split.
  - intros [r Hr].
    apply bind_Some in Hr as (st & Hsweep & Hr).
    apply bind_Some in Hr as ([total cnt] & Hloop & Hr).
    assert (Hkeys : forall qid p, (qid, p) ∈ qid_list -> is_Some (qid_to_has_ans !! qid)).
    { eapply has_ans_loop_keys. rewrite Hloop. eauto. }
    destruct (has_ans_loop_spec scores qid_to_has_ans qid_list (F_of_Z 0) 0 Hkeys)
      as [total' Hspec].
    rewrite Hspec in Hloop. injection Hloop as _ <-.
    destruct (Nat.eqb_spec (size scores) 0) as [|Hsize]; [discriminate|].
    destruct (Z.eqb_spec (0 + Zlen (filter (fun qp => qid_to_has_ans !! fst qp = Some true)
                                      qid_list)) 0) as [|Hcnt]; [discriminate|].
    split; [|split; [|split]].
    + intros qid p Hin. apply (Hkeys qid p). apply Hperm. exact Hin.
    + intros qid p Hin [score Hscore] Hfalse.
      assert (Hs : is_Some (sweep' preds scores qid_to_has_ans qid_list st0))
        by (rewrite Hsweep; eauto).
      rewrite sweep_is_Some in Hs.
      specialize (Hs qid p (proj2 (Hperm _) Hin) score Hscore).
      apply question_diff_is_Some in Hs as [Hs|[_ Hs]]; [congruence|exact Hs].
    + exact Hsize.
    + rewrite Z.add_0_l in Hcnt. apply filter_length_pos in Hcnt as ([qid p] & Hin & Ht).
      exists qid, p. split; [apply Hperm; exact Hin|exact Ht].
  - intros (Hkeys & Hpreds & Hsize & (qid & p & Hin & Ht)).
    assert (Hs : is_Some (sweep' preds scores qid_to_has_ans qid_list st0)).
    { apply sweep_is_Some. intros q np Hq score Hscore.
      apply question_diff_is_Some. apply Hperm in Hq.
      destruct (Hkeys q np Hq) as [[|] Hb]; [left; exact Hb|right].
      split; [exact Hb|]. eapply Hpreds; eauto. }
    destruct Hs as [st ->]. cbn.
    destruct (has_ans_loop_spec scores qid_to_has_ans qid_list (F_of_Z 0) 0) as [total' ->].
    { intros q np Hq. apply (Hkeys q np). apply Hperm. exact Hq. }
    cbn.
    destruct (Nat.eqb_spec (size scores) 0) as [|_]; [contradiction|].
    destruct (Z.eqb_spec (0 + Zlen (filter (fun qp => qid_to_has_ans !! fst qp = Some true)
                                      qid_list)) 0) as [Hz|_]; [|eauto].
    exfalso. rewrite Z.add_0_l in Hz. revert Hz. apply filter_length_pos.
    exists (qid, p). split; [apply Hperm; exact Hin|exact Ht].
Qed.

End ThresholdDefined.

Lemma find_best_thresh_defined_witness :
  thresh_defined toy_preds toy_scores toy_na_probs toy_has_ans.
Proof.
  apply (find_best_thresh_defined inject_Z Qplus Qmult Qdiv Qltb
           toy_preds toy_scores toy_na_probs toy_has_ans).
  vm_compute. eauto.
Defined.

(** ** Span decoders: sorting and the best indexes *)

Section SortedDesc.
Context {F A : Type}.
Variable flt : F -> F -> bool.
Variable key : A -> F.

Lemma insert_desc_perm (x : A) (l : list A) :
  Permutation (insert_desc flt key x l) (x :: l).
Proof.
  induction l as [|y l IH]; cbn; [reflexivity|].
  destruct (flt (key x) (key y)); [|reflexivity].
  rewrite IH. apply perm_swap.
Qed.

Lemma sorted_desc_perm (l : list A) : Permutation (sorted_desc flt key l) l.
Proof.
  induction l as [|x l IH]; cbn; [reflexivity|].
  rewrite insert_desc_perm. apply perm_skip. exact IH.
Qed.

(** Float [<] is asymmetric and its negation is transitive. *)
Hypothesis flt_asym : forall x y, flt x y = true -> flt y x = false.
Hypothesis flt_negtrans :
  forall x y z, flt x y = false -> flt y z = false -> flt x z = false.

Lemma descending_cons (x : A) (l : list A) :
  descending flt key (x :: l) <->
  (forall y, y ∈ l -> flt (key x) (key y) = false) /\ descending flt key l.
Proof.
  unfold descending. split.
  - intros H. split.
    + intros y Hy. apply list_elem_of_lookup in Hy as [j Hj].
      apply (H 0%nat (S j) x y); [lia|reflexivity|exact Hj].
    + intros i j a b Hij Ha Hb. apply (H (S i) (S j) a b); [lia|exact Ha|exact Hb].
  - intros [Hx Hl] [|i] [|j] a b Hij Ha Hb; cbn in Ha, Hb; try lia.
    + injection Ha as <-. apply Hx. eapply list_elem_of_lookup_2. exact Hb.
    + apply (Hl i j a b); [lia|exact Ha|exact Hb].
Qed.

Lemma insert_desc_descending (x : A) (l : list A) :
  descending flt key l -> descending flt key (insert_desc flt key x l).
Proof.
  induction l as [|y l IH]; cbn; intros Hl.
  - apply descending_cons. split; [|exact Hl].
    intros y Hy. apply elem_of_nil in Hy. contradiction.
  - apply descending_cons in Hl as [Hy Hl'].
    destruct (flt (key x) (key y)) eqn:Hxy.
    + apply descending_cons. split; [|apply IH; exact Hl'].
      intros z Hz. apply list_elem_of_In in Hz.
      apply (Permutation_in _ (insert_desc_perm x l)) in Hz as [<-|Hz].
      * apply flt_asym. exact Hxy.
      * apply Hy. apply list_elem_of_In. exact Hz.
    + apply descending_cons. split.
      * intros z Hz. apply elem_of_cons in Hz as [->|Hz]; [exact Hxy|].
        eapply flt_negtrans; [exact Hxy|apply Hy; exact Hz].
      * apply descending_cons. split; assumption.
Qed.

Lemma sorted_desc_descending (l : list A) : descending flt key (sorted_desc flt key l).
Proof.
  induction l as [|x l IH]; cbn.
  - intros i j a b _ Ha. rewrite lookup_nil in Ha. discriminate.
  - apply insert_desc_descending. exact IH.
Qed.

End SortedDesc.

Lemma enumerate_from_lookup {A : Type} (l : list A) : forall k i,
  enumerate_from k l !! i = (fun x => ((k + i)%nat, x)) <$> l !! i.
Proof.
  induction l as [|y l IH]; intros k i; [destruct i; reflexivity|].
  destruct i as [|i]; cbn; [rewrite Nat.add_0_r; reflexivity|].
  rewrite IH. replace (S k + i)%nat with (k + S i)%nat by lia. reflexivity.
Qed.

Lemma enumerate_elem {A : Type} (l : list A) i x :
  (i, x) ∈ enumerate l <-> l !! i = Some x.
Proof.
  split; [apply elem_of_enumerate|].
  intros H. apply (list_elem_of_lookup_2 _ i). unfold enumerate.
  rewrite enumerate_from_lookup, H. reflexivity.
Qed.

Lemma enumerate_from_fst {A : Type} (l : list A) : forall k,
  map fst (enumerate_from k l) = seq k (List.length l).
Proof.
  induction l as [|y l IH]; intros k; cbn; [reflexivity|]. rewrite IH. reflexivity.
Qed.

Section BestIndexes.
Context {F : Type}.
Variable flt : F -> F -> bool.
Variable n_best_size : Z.

Local Abbreviation indexes' := (_get_best_indexes flt n_best_size).

Lemma best_indexes_loop_take (l : list (nat * F)) : forall i acc,
  best_indexes_loop n_best_size i l acc
  = acc ++ map (fun e => Z.of_nat (fst e)) (take (Z.to_nat (n_best_size - i)) l).
Proof.
  induction l as [|e l IH]; intros i acc; cbn.
  - rewrite take_nil, app_nil_r. reflexivity.
  - destruct (Z.geb_spec i n_best_size) as [Hge|Hlt].
    + replace (Z.to_nat (n_best_size - i)) with 0%nat by lia.
      cbn. rewrite app_nil_r. reflexivity.
    + rewrite IH.
      replace (Z.to_nat (n_best_size - i)) with (S (Z.to_nat (n_best_size - (i + 1))))
        by lia.
      cbn. rewrite <- app_assoc. reflexivity.
Qed.

Lemma get_best_indexes_take (logits : list F) :
  indexes' logits
  = map (fun e => Z.of_nat (fst e))
      (take (Z.to_nat n_best_size) (sorted_desc flt snd (enumerate logits))).
Proof.
  unfold _get_best_indexes. rewrite best_indexes_loop_take, Z.sub_0_r. reflexivity.
Qed.

(** The indexes come without repetition from the valid positions. *)
Lemma get_best_indexes_basic (logits : list F) :
  List.length (indexes' logits) = Nat.min (Z.to_nat n_best_size) (List.length logits) /\
  NoDup (indexes' logits) /\
  (forall i, i ∈ indexes' logits -> 0 <= i < Zlen logits).
Proof.
  rewrite get_best_indexes_take.
  set (sorted := sorted_desc flt snd (enumerate logits)).
  assert (Hperm : Permutation sorted (enumerate logits)) by apply sorted_desc_perm.
  assert (Hlen : List.length sorted = List.length logits).
  { rewrite (Permutation_length Hperm). unfold enumerate.
    rewrite <- (length_map fst), enumerate_from_fst, length_seq. reflexivity. }
  assert (Hnd : NoDup (map fst sorted)).
  { rewrite (Permutation_map fst Hperm). unfold enumerate.
    rewrite enumerate_from_fst. apply NoDup_seq. }
  split; [|split].
  - rewrite length_map, length_take, Hlen. reflexivity.
  - rewrite <- (map_map fst Z.of_nat).
    apply (NoDup_fmap_2 Z.of_nat).
    rewrite <- (take_drop (Z.to_nat n_best_size) sorted), map_app in Hnd.
    apply NoDup_app in Hnd as [Hnd _]. exact Hnd.
  - intros i Hi. apply list_elem_of_fmap in Hi as ([k v] & -> & Hin). cbn.
    apply elem_of_take in Hin as (a & Ha & _).
    apply list_elem_of_lookup_2 in Ha. apply list_elem_of_In in Ha.
    apply (Permutation_in _ Hperm) in Ha. apply list_elem_of_In, enumerate_elem in Ha.
    apply lookup_lt_Some in Ha. unfold Zlen. lia.
Qed.

Hypothesis flt_asym : forall x y, flt x y = true -> flt y x = false.
Hypothesis flt_negtrans :
  forall x y z, flt x y = false -> flt y z = false -> flt x z = false.

(** X7: [_get_best_indexes] returns [min(n_best_size, len(logits))]
    valid positions of [logits] (none when [n_best_size] is not positive),
    without repetition, and they are the best ones: no logit at a returned
    position is less than the logit at a position that was not returned. *)
Theorem get_best_indexes_top (logits : list F) :
  List.length (indexes' logits) = Nat.min (Z.to_nat n_best_size) (List.length logits) /\
  NoDup (indexes' logits) /\
  (forall i, i ∈ indexes' logits -> 0 <= i < Zlen logits) /\
  (forall i j vi vj,
     Z.of_nat i ∈ indexes' logits -> Z.of_nat j ∉ indexes' logits ->
     logits !! i = Some vi -> logits !! j = Some vj -> flt vi vj = false).
Proof.
  destruct (get_best_indexes_basic logits) as (H1 & H2 & H3).
  split; [exact H1|]. split; [exact H2|]. split; [exact H3|].
  intros i j vi vj Hi Hj Hvi Hvj.
  rewrite get_best_indexes_take in Hi, Hj.
  set (sorted := sorted_desc flt snd (enumerate logits)) in *.
  assert (Hperm : Permutation sorted (enumerate logits)) by apply sorted_desc_perm.
  apply list_elem_of_fmap in Hi as ([i' v] & Heq & Hin). cbn in Heq.
  apply Nat2Z.inj in Heq. subst i'.
  apply elem_of_take in Hin as (a & Ha & Hak).
  assert (v = vi).
  { apply list_elem_of_lookup_2, list_elem_of_In in Ha.
    apply (Permutation_in _ Hperm), list_elem_of_In, enumerate_elem in Ha. congruence. }
  subst v.
  assert (Hjin : (j, vj) ∈ sorted).
  { apply list_elem_of_In. apply (Permutation_in _ (Permutation_sym Hperm)).
    apply list_elem_of_In, enumerate_elem. exact Hvj. }
  apply list_elem_of_lookup in Hjin as [b Hb].
  assert (Hkb : (Z.to_nat n_best_size <= b)%nat).
  { destruct (Nat.le_gt_cases (Z.to_nat n_best_size) b) as [|Hlt]; [assumption|].
    exfalso. apply Hj. apply list_elem_of_fmap. exists (j, vj). split; [reflexivity|].
    apply elem_of_take. exists b. split; [exact Hb|exact Hlt]. }
  apply (sorted_desc_descending flt snd flt_asym flt_negtrans (enumerate logits)
           a b (i, vi) (j, vj)); [lia|exact Ha|exact Hb].
Qed.

End BestIndexes.

Lemma Qltb_asym x y : Qltb x y = true -> Qltb y x = false.
Proof. rewrite Qltb_lt, Qltb_ge. apply Qlt_le_weak. Qed.


Example get_best_indexes_toy :
  _get_best_indexes Qltb 3 [1; 0; 0; 0; 2; 5; 1; 0]%Q = [5; 4; 0].
Proof. vm_compute. reflexivity. Qed.

Lemma get_best_indexes_top_witness :
  List.length (_get_best_indexes Qltb 3 [1; 0; 2; 5]%Q) = Nat.min (Z.to_nat 3) 4 /\
  NoDup (_get_best_indexes Qltb 3 [1; 0; 2; 5]%Q) /\
  (forall i, i ∈ _get_best_indexes Qltb 3 [1; 0; 2; 5]%Q -> 0 <= i < 4) /\
  (forall i j vi vj,
     Z.of_nat i ∈ _get_best_indexes Qltb 3 [1; 0; 2; 5]%Q ->
     Z.of_nat j ∉ _get_best_indexes Qltb 3 [1; 0; 2; 5]%Q ->
     [1; 0; 2; 5]%Q !! i = Some vi -> [1; 0; 2; 5]%Q !! j = Some vj ->
     Qltb vi vj = false).
Proof.
  exact (get_best_indexes_top Qltb 3 Qltb_asym Qltb_negtrans [1; 0; 2; 5]%Q).
Defined.

(** ** Standard head: failures and shapes *)

Lemma result_map_lookup {F : Type} (all_results : list (RawResult.t F)) (uid : Z) :
  forall d : gmap Z (RawResult.t F),
    foldl (fun d result => <[RawResult.unique_id result := result]> d) d all_results
      !! uid = None <->
    d !! uid = None /\ forall r, r ∈ all_results -> RawResult.unique_id r <> uid.
Proof.
  induction all_results as [|r rest IH]; intros d; cbn.
  - split; [intros H; split; [exact H|]|tauto].
    intros r Hr. apply elem_of_nil in Hr. contradiction.
  - rewrite IH. rewrite lookup_insert_None. split.
    + intros [[Hd Hne] Hrest]. split; [exact Hd|].
      intros x Hx. apply elem_of_cons in Hx as [->|Hx]; [exact Hne|auto].
    + intros [Hd Hall]. split; [split; [exact Hd|apply Hall; left]|].
      intros x Hx. apply Hall. right. exact Hx.
Qed.

Section MissingResult.
Context {F : Type}.
Variable F_of_Z : Z -> F.
Variable fadd fsub fdiv : F -> F -> F.
Variable fexp : F -> F.
Variable flt : F -> F -> bool.
Variable basic_tokenize : bool -> string -> list string.
Variable n_best_size max_answer_length : Z.
Variable do_lower_case version_2_with_negative : bool.
Variable null_score_diff_threshold : F.

Local Abbreviation features_loop' :=
  (features_loop fadd flt n_best_size max_answer_length version_2_with_negative).
Local Abbreviation write_example' :=
  (write_example F_of_Z fadd fsub fdiv fexp flt basic_tokenize n_best_size
     max_answer_length do_lower_case version_2_with_negative
     null_score_diff_threshold).
Local Abbreviation examples_loop' :=
  (examples_loop F_of_Z fadd fsub fdiv fexp flt basic_tokenize n_best_size
     max_answer_length do_lower_case version_2_with_negative
     null_score_diff_threshold).

Lemma features_loop_missing results todo : forall acc null fi feature,
  (fi, feature) ∈ todo -> results !! Feature.unique_id feature = None ->
  features_loop' results todo acc null = None.
Proof.
  induction todo as [|[k f] rest IH]; intros acc null fi feature Hin Hmiss.
  - apply elem_of_nil in Hin. contradiction.
  - cbn. apply elem_of_cons in Hin as [[= <- <-]|Hin].
    + rewrite Hmiss. reflexivity.
    + destruct (results !! Feature.unique_id f) as [r|]; [|reflexivity]. cbn.
      destruct (update_null _ _ _ _ _ _) as [null1|]; [|reflexivity]. cbn.
      destruct (feature_predictions _ _ _ _ _ _) as [new|]; [|reflexivity]. cbn.
      eapply IH; eassumption.
Qed.

Lemma write_example_missing results all_features out example_index example feature :
  feature ∈ all_features -> Feature.example_index feature = example_index ->
  results !! Feature.unique_id feature = None ->
  write_example' results all_features out example_index example = None.
Proof.
  intros Hin Hidx Hmiss. unfold write_example, prelim_predictions.
  set (features := filter _ all_features).
  assert (Hf : feature ∈ features) by (apply list_elem_of_filter; split; assumption).
  apply list_elem_of_lookup in Hf as [fi Hfi].
  rewrite (features_loop_missing results (enumerate features) [] _ fi feature);
    [reflexivity| |exact Hmiss].
  apply enumerate_elem. exact Hfi.
Qed.

Lemma examples_loop_missing results all_features todo : forall out i example feature,
  (i, example) ∈ todo ->
  feature ∈ all_features -> Feature.example_index feature = i ->
  results !! Feature.unique_id feature = None ->
  examples_loop' results all_features todo out = None.
Proof.
  induction todo as [|[k ex] rest IH]; intros out i example feature Hin Hf Hidx Hmiss.
  - apply elem_of_nil in Hin. contradiction.
  - cbn. apply elem_of_cons in Hin as [[= <- <-]|Hin].
    + rewrite (write_example_missing results all_features out i example feature);
        [reflexivity|assumption..].
    + destruct (write_example' results all_features out k ex) as [out1|]; [|reflexivity].
      cbn. eapply IH; eassumption.
Qed.

(** X8: a feature of one of the examples for which [all_results] holds no
    result with its [unique_id] makes [write_predictions] fail (the lookup
    raises); nothing is written. *)
Theorem write_predictions_missing_result all_examples all_features all_results
    i example feature :
  all_examples !! i = Some example ->
  feature ∈ all_features -> Feature.example_index feature = i ->
  (forall r, r ∈ all_results -> RawResult.unique_id r <> Feature.unique_id feature) ->
  write_predictions F_of_Z fadd fsub fdiv fexp flt basic_tokenize n_best_size
    max_answer_length do_lower_case version_2_with_negative
    null_score_diff_threshold all_examples all_features all_results = None.
Proof.
  intros Hex Hf Hidx Hmiss. unfold write_predictions.
  eapply examples_loop_missing; [|exact Hf|exact Hidx|].
  - apply enumerate_elem. exact Hex.
  - apply result_map_lookup. split; [apply lookup_empty|exact Hmiss].
Qed.

End MissingResult.

Lemma write_predictions_missing_result_witness :
  write_predictions inject_Z Qplus Qminus Qdiv (fun x => 1 + x * x)%Q Qltb
    toy_basic_tokenize 3 5 true true 0%Q [toy_example] toy_feature_list
    [RawResult.mk 1000000000 [1; 0; 0; 0; 2; 5; 1; 0]%Q [2; 0; 0; 0; 1; 2; 6; 0]%Q]
  = None.
Proof.
  destruct (toy_feature_list !! 1%nat) as [feature|] eqn:Hfeature;
    [|vm_compute in Hfeature; discriminate].
  apply (write_predictions_missing_result inject_Z Qplus Qminus Qdiv
           (fun x => 1 + x * x)%Q Qltb toy_basic_tokenize 3 5 true true 0%Q
           [toy_example] toy_feature_list _ 0%nat toy_example feature).
  - reflexivity.
  - eapply list_elem_of_lookup_2. exact Hfeature.
  - vm_compute in Hfeature. injection Hfeature as <-. reflexivity.
  - intros r Hr. apply list_elem_of_singleton in Hr. subst r.
    vm_compute in Hfeature. injection Hfeature as <-. discriminate.
Defined.

Section NbestShape.
Context {F : Type}.
Variable F_of_Z : Z -> F.
Variable fadd fsub fdiv : F -> F -> F.
Variable fexp : F -> F.
Variable flt : F -> F -> bool.
Variable basic_tokenize : bool -> string -> list string.
Variable n_best_size : Z.
Variable do_lower_case version_2_with_negative : bool.

Lemma compute_softmax_length (scores : list F) :
  List.length (_compute_softmax F_of_Z fadd fsub fdiv fexp flt scores)
  = List.length scores.
Proof.
  unfold _compute_softmax. destruct scores as [|s scores]; [reflexivity|].
  assert (Hmax : forall l m0, exists m,
            foldl (fun max_score score =>
                     match max_score with
                     | None => Some score
                     | Some m => if flt m score then Some score else Some m
                     end) (Some m0) l = Some m).
  { induction l as [|x l IH]; intros m0; cbn; [eauto|].
    destruct (flt m0 x); apply IH. }
  cbn [foldl]. destruct (Hmax scores s) as [m ->].
  rewrite !length_map. reflexivity.
Qed.

Lemma nbest_loop_length example features todo :
  forall seen (nbest : list (NbestPrediction.t F)) seen' nbest',
  nbest_loop basic_tokenize n_best_size do_lower_case example features todo seen nbest
  = Some (seen', nbest') ->
  (List.length nbest' <= Nat.max (List.length nbest) (Z.to_nat n_best_size))%nat.
Proof.
  induction todo as [|pred rest IH]; intros seen nbest seen' nbest' H; cbn in H.
  - injection H as _ <-. lia.
  - destruct (Z.geb_spec (Zlen nbest) n_best_size) as [Hge|Hlt].
    { injection H as _ <-. lia. }
    unfold Zlen in Hlt.
    destruct (features !! PrelimPrediction.feature_index pred) as [feature|];
      [|discriminate].
    cbn in H. destruct (PrelimPrediction.start_index pred >? 0).
    + destruct (final_text_of basic_tokenize do_lower_case example feature pred)
        as [final_text|]; [|discriminate].
      cbn in H. destruct (decide (final_text ∈ seen)).
      * apply IH in H. exact H.
      * apply IH in H. rewrite length_app in H. cbn in H. lia.
    + apply IH in H. rewrite length_app in H. cbn in H. lia.
Qed.

(** X9: the n-best list of an example is never empty and holds at most
    [n_best_size + 1] entries (at most 2 when [n_best_size] is not
    positive); [nbest_json] has one record per entry, in the same order,
    with the same text and logits. *)
Theorem nbest_json_shape example features prelim null nbest :
  nbest_of F_of_Z basic_tokenize n_best_size do_lower_case version_2_with_negative
    example features prelim null = Some nbest ->
  let nbest_json := nbest_json_of F_of_Z fadd fsub fdiv fexp flt nbest in
  nbest <> [] /\
  (List.length nbest <= Nat.max (Z.to_nat n_best_size + 1) 2)%nat /\
  map (fun o => (NbestJson.text o, NbestJson.start_logit o, NbestJson.end_logit o))
    nbest_json
  = map (fun e => (NbestPrediction.text e, NbestPrediction.start_logit e,
                   NbestPrediction.end_logit e)) nbest.
Proof.
  unfold nbest_of. intros H.
  apply bind_Some in H as ([seen selected] & Hloop & H). injection H as <-.
  apply nbest_loop_length in Hloop. cbn [List.length] in Hloop.
  split; [|split].
  - unfold complete_nbest. destruct version_2_with_negative.
    + destruct (decide (""%string ∈ seen)) as [Hin|Hnot].
      * destruct selected as [|e [|e' l]]; discriminate.
      * destruct selected as [|e l]; cbn; [discriminate|].
        destruct (l ++ [_]) eqn:E; [apply app_eq_nil in E as [_ E]|]; discriminate.
    + destruct selected; discriminate.
  - unfold complete_nbest. destruct version_2_with_negative.
    + destruct (decide (""%string ∈ seen)) as [Hin|Hnot].
      * destruct selected as [|e [|e' l]]; cbn in *; lia.
      * destruct selected as [|e l]; [cbn; lia|].
        assert (E : (List.length ((e :: l) ++ [NbestPrediction.mk ""
                       (NullState.null_start_logit null)
                       (NullState.null_end_logit null)]) =? 1)%nat = false).
        { apply Nat.eqb_neq. rewrite length_app. cbn. lia. }
        rewrite E. cbn [app]. cbn [List.length].
        rewrite length_app. cbn in *. lia.
    + destruct selected; cbn in *; lia.
  - unfold nbest_json_of.
    set (completed := complete_nbest _ _ _ _ _).
    set (probs := _compute_softmax _ _ _ _ _ _ _).
    assert (Hlen : List.length probs = List.length completed).
    { unfold probs. rewrite compute_softmax_length, length_map. reflexivity. }
    clearbody probs. clearbody completed. revert probs Hlen.
    induction completed as [|e l IH]; intros [|p probs] Hlen; cbn in *;
      try discriminate; [reflexivity|].
    rewrite IH by lia. reflexivity.
Qed.

End NbestShape.

Lemma nbest_json_shape_witness :
  exists nbest,
    nbest_of inject_Z toy_basic_tokenize 3 true true toy_example toy_feature_list
      (fst toy_prelim_null) (snd toy_prelim_null) = Some nbest /\
    nbest <> [] /\ (List.length nbest <= Nat.max (Z.to_nat 3 + 1) 2)%nat.
Proof.
  eexists. split; [vm_compute; reflexivity|].
  refine (let H := nbest_json_shape inject_Z Qplus Qminus Qdiv (fun x => 1 + x * x)%Q
                     Qltb toy_basic_tokenize 3 true true toy_example toy_feature_list
                     (fst toy_prelim_null) (snd toy_prelim_null) _ _ in
          conj (proj1 H) (proj1 (proj2 H))).
  vm_compute. reflexivity.
Defined.

(** ** Feature builder: the layout of a feature *)

Lemma range_lookup a b i :
  (i < Z.to_nat (b - a))%nat -> range a b !! i = Some (a + Z.of_nat i).
Proof.
  intros Hi. unfold range. rewrite list_lookup_fmap, lookup_seq_lt by exact Hi.
  reflexivity.
Qed.

Lemma range_length a b : List.length (range a b) = Z.to_nat (b - a).
Proof. unfold range. rewrite length_map, length_seq. reflexivity. Qed.

Section FeatureLayout.
Context {F : Type}.
Variable F_of_Z : Z -> F.
Variable fadd fmul : F -> F -> F.
Variable f0_01 : F.
Variable fgt : F -> F -> bool.
Variable tokenize : string -> list string.
Variable convert_tokens_to_ids : list string -> list Z.

Local Abbreviation is_max' := (_check_is_max_context F_of_Z fadd fmul f0_01 fgt).
Local Abbreviation paragraph_step' := (paragraph_step F_of_Z fadd fmul f0_01 fgt).
Local Abbreviation assemble' := (assemble F_of_Z fadd fmul f0_01 fgt).
Local Abbreviation build_feature' :=
  (build_feature F_of_Z fadd fmul f0_01 fgt convert_tokens_to_ids).

Lemma paragraph_loop_chunk cfg doc_spans k ds t2o all ixs : forall st st',
  paragraph_loop (paragraph_step' cfg doc_spans k ds t2o all) st ixs = Some st' ->
  exists chunk,
    Chunk.tokens st' = Chunk.tokens st ++ chunk /\
    Chunk.p_mask st' = Chunk.p_mask st ++ replicate (List.length chunk) 0 /\
    List.length chunk = List.length ixs /\
    (forall i ix, ixs !! i = Some ix ->
       chunk !! i = py_index all (DocSpan.start ds + ix) /\
       Chunk.token_to_orig_map st' !! Z.of_nat (List.length (Chunk.tokens st) + i)
       = py_index t2o (DocSpan.start ds + ix) /\
       Chunk.token_is_max_context st' !! Z.of_nat (List.length (Chunk.tokens st) + i)
       = Some (is_max' doc_spans k (DocSpan.start ds + ix))) /\
    (forall j, (j < List.length (Chunk.tokens st))%nat ->
       Chunk.token_to_orig_map st' !! Z.of_nat j
       = Chunk.token_to_orig_map st !! Z.of_nat j /\
       Chunk.token_is_max_context st' !! Z.of_nat j
       = Chunk.token_is_max_context st !! Z.of_nat j).
Proof.
  induction ixs as [|ix ixs IH]; intros st st' Hrun; cbn in Hrun.
  - injection Hrun as <-. exists []. rewrite !app_nil_r.
    split; [reflexivity|]. split; [reflexivity|]. split; [reflexivity|].
    split; [intros i x Hi; rewrite lookup_nil in Hi; discriminate|].
    intros j _. split; reflexivity.
  - apply bind_Some in Hrun as (st1 & Hstep & Hrun).
    unfold paragraph_step in Hstep.
    destruct (py_index t2o (DocSpan.start ds + ix)) as [orig|] eqn:Horig;
      [|discriminate]. cbn in Hstep.
    destruct (py_index all (DocSpan.start ds + ix)) as [tok|] eqn:Htok;
      [|discriminate]. cbn in Hstep.
    injection Hstep as <-.
    destruct (IH _ _ Hrun) as (chunk & Htokens & Hmask & Hlen & Hchunk & Hold).
    cbn in Htokens, Hmask, Hchunk, Hold.
    rewrite length_app in Hchunk, Hold. cbn in Hchunk, Hold.
    exists (tok :: chunk).
    split; [rewrite Htokens, <- app_assoc; reflexivity|].
    split; [rewrite Hmask, <- app_assoc; reflexivity|].
    split; [cbn; rewrite Hlen; reflexivity|]. split.
    + intros [|i] x Hi; cbn in Hi.
      * injection Hi as <-. rewrite Htok, Horig. cbn [lookup list_lookup].
        split; [reflexivity|]. rewrite Nat.add_0_r.
        destruct (Hold (List.length (Chunk.tokens st))) as [H1 H2]; [lia|].
        rewrite H1, H2. unfold Zlen. rewrite !lookup_insert_eq. split; reflexivity.
      * destruct (Hchunk i x Hi) as (H1 & H2 & H3).
        replace (List.length (Chunk.tokens st) + S i)%nat
          with (List.length (Chunk.tokens st) + 1 + i)%nat by lia.
        cbn [lookup list_lookup]. split; [exact H1|]. split; assumption.
    + intros j Hj. destruct (Hold j) as [H1 H2]; [lia|].
      rewrite H1, H2. unfold Zlen. rewrite !lookup_insert_ne by lia.
      split; reflexivity.
Qed.

(** The sequences that [assemble] builds. *)
Lemma assemble_layout cfg q doc_spans k ds t2o all st cls_index :
  assemble' cfg q doc_spans k ds t2o all = Some (st, cls_index) ->
  exists chunk,
    Chunk.tokens st = before_chunk cfg q ++ chunk ++ after_chunk cfg q /\
    Chunk.p_mask st
    = mask_before_chunk cfg q ++ replicate (List.length chunk) 0
      ++ mask_after_chunk cfg q /\
    chunk_of (is_max' doc_spans) k ds t2o all (List.length (before_chunk cfg q)) chunk
      (Chunk.token_to_orig_map st) (Chunk.token_is_max_context st) /\
    cls_index = (if Config.cls_token_at_end cfg
                 then Zlen (Chunk.tokens st) - 1 else 0).
Proof.
  unfold assemble. intros H.
  apply bind_Some in H as (st1 & Hloop & H). injection H as <- <-.
  apply paragraph_loop_chunk in Hloop
    as (chunk & Htokens & Hmask & Hlen & Hchunk & _).
  exists chunk.
  unfold before_chunk, after_chunk, mask_before_chunk, mask_after_chunk, chunk_of.
  rewrite range_length, Z.sub_0_r in Hlen.
  destruct (Config.cls_token_at_end cfg), (Config.sequence_a_is_doc cfg);
    cbn [negb Chunk.append Chunk.extend Chunk.empty Chunk.tokens Chunk.p_mask
         Chunk.token_to_orig_map Chunk.token_is_max_context app] in *;
    rewrite ?Htokens, ?Hmask;
    (split; [list_assoc; reflexivity|]);
    (split; [list_assoc; reflexivity|]);
    (split; [|reflexivity]);
    (split; [exact Hlen|]);
    intros i Hi;
    (destruct (Hchunk i (0 + Z.of_nat i)) as (H1 & H2 & H3);
     [apply range_lookup; lia|]);
    rewrite Z.add_0_l in H1, H2, H3;
    rewrite ?length_app in *; cbn [List.length] in *;
    rewrite ?Nat.add_0_r in *;
    (split; [exact H1|]); (split; [exact H2|exact H3]).
Qed.

End FeatureLayout.

(** ** Feature builder: sub-tokenization *)

Lemma py_index_lookup {A : Type} (l : list A) (i : nat) :
  py_index l (Z.of_nat i) = l !! i.
Proof.
  unfold py_index. destruct (Z.leb_spec 0 (Z.of_nat i)); [|lia].
  rewrite Nat2Z.id. reflexivity.
Qed.

Lemma py_index_nonneg {A : Type} (l : list A) (i : Z) :
  0 <= i -> py_index l i = l !! Z.to_nat i.
Proof.
  intros Hi. unfold py_index. destruct (Z.leb_spec 0 i); [reflexivity|lia].
Qed.

Lemma map_const_replicate {A B : Type} (b : B) (l : list A) :
  map (fun _ => b) l = replicate (List.length l) b.
Proof. induction l as [|a l IH]; [reflexivity|]. cbn. rewrite IH. reflexivity. Qed.

Section TokenizeDocProps.
Variable tokenize : string -> list string.

Lemma tokenize_doc_closed_form doc_tokens : forall i t2o o2t all,
  tokenize_doc tokenize i doc_tokens t2o o2t all
  = (t2o ++ word_indexes tokenize i doc_tokens,
     o2t ++ word_offsets tokenize (Zlen all) doc_tokens,
     all ++ concat (map tokenize doc_tokens)).
Proof.
  induction doc_tokens as [|token rest IH]; intros i t2o o2t all.
  - cbn. rewrite !app_nil_r. reflexivity.
  - cbn [tokenize_doc word_indexes word_offsets map concat]. rewrite IH.
    rewrite map_const_replicate, <- !app_assoc. cbn [app].
    unfold Zlen. rewrite length_app, Nat2Z.inj_add. reflexivity.
Qed.

Lemma word_indexes_length doc_tokens : forall i,
  List.length (word_indexes tokenize i doc_tokens)
  = List.length (concat (map tokenize doc_tokens)).
Proof.
  induction doc_tokens as [|token rest IH]; intros i; [reflexivity|].
  cbn. rewrite !length_app, length_replicate, IH. reflexivity.
Qed.

Lemma word_offsets_length doc_tokens : forall offset,
  List.length (word_offsets tokenize offset doc_tokens) = List.length doc_tokens.
Proof.
  induction doc_tokens as [|token rest IH]; intros offset; [reflexivity|].
  cbn. rewrite IH. reflexivity.
Qed.

Lemma word_offsets_lookup doc_tokens : forall offset k,
  (k < List.length doc_tokens)%nat ->
  word_offsets tokenize offset doc_tokens !! k
  = Some (offset + Zlen (sub_tokens_before tokenize k doc_tokens)).
Proof.
  unfold sub_tokens_before.
  induction doc_tokens as [|token rest IH]; intros offset k Hk; [cbn in Hk; lia|].
  destruct k as [|k].
  - cbn. rewrite Z.add_0_r. reflexivity.
  - cbn [word_offsets lookup list_lookup take map concat]. cbn in Hk.
    rewrite IH by lia. unfold Zlen. rewrite length_app, Nat2Z.inj_add.
    f_equal. lia.
Qed.

(** Sub-token [p] belongs to the word that [word_indexes] names. *)
Lemma word_indexes_lookup doc_tokens : forall i p,
  (p < List.length (concat (map tokenize doc_tokens)))%nat ->
  exists k token j,
    word_indexes tokenize i doc_tokens !! p = Some (i + Z.of_nat k) /\
    doc_tokens !! k = Some token /\
    p = (List.length (sub_tokens_before tokenize k doc_tokens) + j)%nat /\
    (j < List.length (tokenize token))%nat /\
    tokenize token !! j = concat (map tokenize doc_tokens) !! p.
Proof.
  unfold sub_tokens_before.
  induction doc_tokens as [|token rest IH]; intros i p Hp; [cbn in Hp; lia|].
  cbn [map concat word_indexes] in *. rewrite length_app in Hp.
  destruct (Nat.lt_ge_cases p (List.length (tokenize token))) as [Hlt|Hge].
  - exists 0%nat, token, p. rewrite Z.add_0_r.
    rewrite lookup_app_l by (rewrite length_replicate; exact Hlt).
    rewrite lookup_app_l by exact Hlt.
    split; [apply lookup_replicate_2; exact Hlt|].
    split; [reflexivity|]. split; [reflexivity|]. split; [exact Hlt|reflexivity].
  - destruct (IH (i + 1) (p - List.length (tokenize token))%nat)
      as (k & w & j & H1 & H2 & H3 & H4 & H5); [lia|].
    exists (S k), w, j.
    rewrite lookup_app_r by (rewrite length_replicate; exact Hge).
    rewrite lookup_app_r by exact Hge.
    rewrite length_replicate, H1.
    split; [f_equal; lia|]. split; [exact H2|].
    cbn [take map concat]. rewrite length_app.
    split; [lia|]. split; [exact H4|exact H5].
Qed.

(** X10: the three lists of the sub-tokenization loop.  [all_doc_tokens]
    is the concatenation of the sub-tokens of the words; the two index
    lists have one entry per sub-token and one per word;
    [orig_to_tok_index[k]] is the number of sub-tokens before word [k]; and
    sub-token [p] is one of the sub-tokens of word [tok_to_orig_index[p]],
    at the distance from [orig_to_tok_index] of that word. *)
Theorem tokenize_doc_alignment (doc_tokens : list string) :
  let '(tok_to_orig_index, orig_to_tok_index, all_doc_tokens) :=
    tokenize_doc tokenize 0 doc_tokens [] [] [] in
  all_doc_tokens = concat (map tokenize doc_tokens) /\
  List.length tok_to_orig_index = List.length all_doc_tokens /\
  List.length orig_to_tok_index = List.length doc_tokens /\
  (forall k, (k < List.length doc_tokens)%nat ->
     orig_to_tok_index !! k = Some (Zlen (sub_tokens_before tokenize k doc_tokens))) /\
  (forall p, (p < List.length all_doc_tokens)%nat ->
     exists k token j,
       tok_to_orig_index !! p = Some (Z.of_nat k) /\
       doc_tokens !! k = Some token /\
       orig_to_tok_index !! k = Some (Z.of_nat p - Z.of_nat j) /\
       (j < List.length (tokenize token))%nat /\
       tokenize token !! j = all_doc_tokens !! p).
Proof.
  rewrite tokenize_doc_closed_form. cbn [app].
  split; [reflexivity|]. split; [apply word_indexes_length|].
  split; [apply word_offsets_length|]. split.
  - intros k Hk. rewrite word_offsets_lookup by exact Hk. reflexivity.
  - intros p Hp.
    destruct (word_indexes_lookup doc_tokens 0 p Hp) as (k & w & j & H1 & H2 & H3 & H4 & H5).
    exists k, w, j. split; [exact H1|]. split; [exact H2|].
    split; [|split; [exact H4|exact H5]].
    rewrite word_offsets_lookup by (apply lookup_lt_is_Some; eauto).
    f_equal. unfold Zlen. cbn [List.length]. lia.
Qed.

End TokenizeDocProps.

Lemma tokenize_doc_alignment_witness :
  let '(tok_to_orig_index, orig_to_tok_index, all_doc_tokens) :=
    tokenize_doc split 0 ["a b"; ""; "c"]%string [] [] [] in
  all_doc_tokens = concat (map split ["a b"; ""; "c"]%string) /\
  List.length tok_to_orig_index = List.length all_doc_tokens /\
  List.length orig_to_tok_index = 3%nat /\
  (forall k, (k < 3)%nat ->
     orig_to_tok_index !! k
     = Some (Zlen (sub_tokens_before split k ["a b"; ""; "c"]%string))) /\
  (forall p, (p < List.length all_doc_tokens)%nat ->
     exists k token j,
       tok_to_orig_index !! p = Some (Z.of_nat k) /\
       ["a b"; ""; "c"]%string !! k = Some token /\
       orig_to_tok_index !! k = Some (Z.of_nat p - Z.of_nat j) /\
       (j < List.length (split token))%nat /\
       split token !! j = all_doc_tokens !! p).
Proof. exact (tokenize_doc_alignment split ["a b"; ""; "c"]%string). Defined.

(** ** Feature builder: where a feature comes from *)

Section FeatureOriginProps.
Context {F : Type}.
Variable F_of_Z : Z -> F.
Variable fadd fmul : F -> F -> F.
Variable f0_01 : F.
Variable fgt : F -> F -> bool.
Variable tokenize : string -> list string.
Variable convert_tokens_to_ids : list string -> list Z.

Local Abbreviation is_max' := (_check_is_max_context F_of_Z fadd fmul f0_01 fgt).
Local Abbreviation assemble' := (assemble F_of_Z fadd fmul f0_01 fgt).
Local Abbreviation build_feature' :=
  (build_feature F_of_Z fadd fmul f0_01 fgt convert_tokens_to_ids).
Local Abbreviation build_features' :=
  (build_features F_of_Z fadd fmul f0_01 fgt convert_tokens_to_ids).
Local Abbreviation convert_example' :=
  (convert_example F_of_Z fadd fmul f0_01 fgt tokenize convert_tokens_to_ids).
Local Abbreviation convert_examples_loop' :=
  (convert_examples_loop F_of_Z fadd fmul f0_01 fgt tokenize convert_tokens_to_ids).
Local Abbreviation convert' :=
  (_convert_examples_to_features F_of_Z fadd fmul f0_01 fgt tokenize
     convert_tokens_to_ids).
Local Abbreviation built_from' :=
  (built_from F_of_Z fadd fmul f0_01 fgt tokenize convert_tokens_to_ids).

(** The fields that [build_feature] copies. *)
Lemma build_feature_fields cfg uid ei ex q t2o all tp doc_spans k ds f :
  build_feature' cfg uid ei ex q t2o all tp doc_spans k ds = Some f ->
  exists st cls_index labels,
    assemble' cfg q doc_spans k ds t2o all = Some (st, cls_index) /\
    asserts_hold cfg (pad convert_tokens_to_ids cfg st) = true /\
    place_labels cfg ex q ds tp cls_index = Some labels /\
    f = Feature.mk uid ei k (Chunk.tokens st) (Chunk.token_to_orig_map st)
          (Chunk.token_is_max_context st)
          (Padded.input_ids (pad convert_tokens_to_ids cfg st))
          (Padded.input_mask (pad convert_tokens_to_ids cfg st))
          (Padded.segment_ids (pad convert_tokens_to_ids cfg st))
          cls_index (Padded.p_mask (pad convert_tokens_to_ids cfg st))
          (DocSpan.length ds) labels.1.1 labels.1.2 labels.2.
Proof.
  unfold build_feature. intros H.
  destruct (assemble' cfg q doc_spans k ds t2o all) as [[st cls]|] eqn:Has;
    [|discriminate].
  cbn in H.
  destruct (asserts_hold cfg _) eqn:Hassert; [|discriminate].
  destruct (place_labels _ _ _ _ _ _) as [[[sp ep] imp]|] eqn:Hlabels; [|discriminate].
  cbn in H. injection H as <-.
  exists st, cls, (sp, ep, imp). repeat split; assumption.
Qed.

Lemma build_features_lookup cfg ei ex q t2o all tp doc_spans todo :
  forall uid features,
  build_features' cfg uid ei ex q t2o all tp doc_spans todo = Some features ->
  List.length features = List.length todo /\
  forall j f, features !! j = Some f ->
    exists k ds, todo !! j = Some (k, ds) /\
      build_feature' cfg (uid + Z.of_nat j) ei ex q t2o all tp doc_spans k ds = Some f.
Proof.
  induction todo as [|[k ds] rest IH]; intros uid features H; cbn in H.
  - injection H as <-. split; [reflexivity|]. intros j f Hj.
    rewrite lookup_nil in Hj. discriminate.
  - apply bind_Some in H as (f0 & Hf0 & H).
    apply bind_Some in H as (fs & Hfs & H). injection H as <-.
    destruct (IH _ _ Hfs) as [Hlen Hrest]. split; [cbn; rewrite Hlen; reflexivity|].
    intros [|j] f Hj; cbn in Hj.
    + injection Hj as <-. exists k, ds. rewrite Z.add_0_r.
      split; [reflexivity|exact Hf0].
    + destruct (Hrest j f Hj) as (k' & ds' & H1 & H2). exists k', ds'.
      split; [exact H1|]. rewrite <- H2. f_equal. lia.
Qed.

Lemma convert_example_lookup fuel cfg uid ei ex features :
  convert_example' fuel cfg uid ei ex = Some features ->
  exists t2o o2t all tp doc_spans,
    List.length features = List.length doc_spans /\
    forall j f, features !! j = Some f ->
      exists ds, built_from' fuel cfg (uid + Z.of_nat j) ei ex t2o o2t all tp
                   doc_spans j ds f.
Proof.
  unfold convert_example. intros H.
  fold (query_tokens_of tokenize cfg ex) in H.
  destruct (tokenize_doc tokenize _ _ _ _ _) as [[t2o o2t] all] eqn:Htok.
  apply bind_Some in H as (tp & Htp & H).
  apply bind_Some in H as (doc_spans & Hspans & H).
  apply build_features_lookup in H as [Hlen H].
  exists t2o, o2t, all, tp, doc_spans.
  split. { rewrite Hlen. unfold enumerate.
    clear. generalize 0%nat. induction doc_spans as [|d l IH]; intros n;
      [reflexivity|]. cbn. rewrite IH. reflexivity. }
  intros j f Hj. destruct (H j f Hj) as (k & ds & Hk & Hf).
  unfold enumerate in Hk. rewrite enumerate_from_lookup in Hk.
  destruct (doc_spans !! j) as [ds'|] eqn:Hds; [|discriminate].
  cbn in Hk. injection Hk as <- <-.
  exists ds'. unfold built_from. rewrite Htok.
  repeat split; assumption.
Qed.

Lemma convert_examples_loop_lookup fuel cfg todo : forall uid acc features,
  convert_examples_loop' fuel cfg uid todo acc = Some features ->
  exists new, features = acc ++ new /\
    forall j f, new !! j = Some f ->
      exists ei ex t2o o2t all tp doc_spans k ds,
        (ei, ex) ∈ todo /\
        built_from' fuel cfg (uid + Z.of_nat j) ei ex t2o o2t all tp doc_spans k ds f.
Proof.
  induction todo as [|[ei ex] rest IH]; intros uid acc features H; cbn in H.
  - injection H as <-. exists []. rewrite app_nil_r. split; [reflexivity|].
    intros j f Hj. rewrite lookup_nil in Hj. discriminate.
  - apply bind_Some in H as (fs & Hfs & H).
    destruct (IH _ _ _ H) as (new & -> & Hnew).
    exists (fs ++ new). split; [rewrite app_assoc; reflexivity|].
    apply convert_example_lookup in Hfs
      as (t2o & o2t & all & tp & doc_spans & Hlen & Hfs).
    intros j f Hj. destruct (Nat.lt_ge_cases j (List.length fs)) as [Hlt|Hge].
    + rewrite lookup_app_l in Hj by exact Hlt.
      destruct (Hfs j f Hj) as (ds & Hb).
      exists ei, ex, t2o, o2t, all, tp, doc_spans, j, ds.
      split; [left|exact Hb].
    + rewrite lookup_app_r in Hj by exact Hge.
      destruct (Hnew _ f Hj)
        as (ei' & ex' & t2o' & o2t' & all' & tp' & spans' & k & ds & Hin & Hb).
      exists ei', ex', t2o', o2t', all', tp', spans', k, ds.
      split; [right; exact Hin|].
      replace (uid + Z.of_nat j)
        with (uid + Zlen fs + Z.of_nat (j - List.length fs)) by (unfold Zlen; lia).
      exact Hb.
Qed.

(** Every feature of the result is built from a chunk of one of the
    examples, under the identifier that its position gives. *)
Lemma convert_examples_lookup fuel cfg examples features i f :
  convert' fuel cfg examples = Some features ->
  features !! i = Some f ->
  exists ei ex t2o o2t all tp doc_spans k ds,
    examples !! ei = Some ex /\
    built_from' fuel cfg (1000000000 + Z.of_nat i) ei ex t2o o2t all tp doc_spans k ds f.
Proof.
  unfold _convert_examples_to_features. intros H Hi.
  apply convert_examples_loop_lookup in H as (new & -> & Hnew).
  cbn [app] in Hi.
  destruct (Hnew i f Hi) as (ei & ex & t2o & o2t & all & tp & spans & k & ds & Hin & Hb).
  exists ei, ex, t2o, o2t, all, tp, spans, k, ds. split; [|exact Hb].
  apply elem_of_enumerate in Hin. exact Hin.
Qed.

End FeatureOriginProps.

(** ** Sliding-window chunking: when the loop ends, and what it returns *)

(** Once a window is not the last one and the step is not positive, the
    loop never ends. *)
Lemma doc_spans_loop_stuck n budget stride fuel : forall s acc,
  Z.min budget stride <= 0 -> s < n -> budget < n - s ->
  doc_spans_loop fuel n budget stride s acc = None.
Proof.
  induction fuel as [|fuel IH]; intros s acc Hmin Hs Hb; [reflexivity|].
  cbn [doc_spans_loop].
  destruct (Z.ltb_spec s n) as [_|]; [|lia].
  rewrite Z.gtb_ltb. destruct (Z.ltb_spec budget (n - s)) as [_|]; [|lia].
  destruct (Z.eqb_spec (s + budget) n) as [|_]; [lia|].
  apply IH; lia.
Qed.

(** Every span of a finished loop lies inside the document, is not empty
    and not longer than the budget; all spans but the last have the length
    of the budget, and the next span starts [min(budget, stride)] later. *)
Lemma doc_spans_loop_structure n budget stride fuel : forall s acc r,
  doc_spans_loop fuel n budget stride s acc = Some r ->
  0 <= s ->
  exists new, r = acc ++ new /\
    Forall (span_ok n budget) new /\
    (forall ds, new !! 0%nat = Some ds -> DocSpan.start ds = s) /\
    (forall k ds ds', new !! k = Some ds -> new !! S k = Some ds' ->
       DocSpan.length ds = budget /\
       DocSpan.start ds' = DocSpan.start ds + Z.min budget stride /\
       0 < Z.min budget stride) /\
    (forall ds, List.last new ds = ds -> new <> [] ->
       DocSpan.start ds + DocSpan.length ds = n) /\
    (new = [] <-> n <= s).
Proof.
  induction fuel as [|fuel IH]; intros s acc r H Hs; [discriminate|].
  cbn [doc_spans_loop] in H.
  destruct (Z.ltb_spec s n) as [Hsn|Hsn].
  - rewrite Z.gtb_ltb in H. destruct (Z.ltb_spec budget (n - s)) as [Hb|Hb].
    + destruct (Z.eqb_spec (s + budget) n) as [Heq|Hne]; [lia|].
      destruct (Z_le_gt_dec (Z.min budget stride) 0) as [Hmin|Hmin].
      { rewrite doc_spans_loop_stuck in H by lia. discriminate. }
      destruct (IH _ _ _ H) as (new & -> & Hok & Hfirst & Hnext & Hlast & Hnil); [lia|].
      exists (DocSpan.mk s budget :: new).
      split; [rewrite <- app_assoc; reflexivity|].
      split; [constructor; [unfold span_ok; cbn; lia|exact Hok]|].
      split; [intros ds Hds; cbn in Hds; injection Hds as <-; reflexivity|].
      split; [|split].
      * intros [|k] ds ds' Hk Hk'; cbn in Hk, Hk'.
        -- injection Hk as <-. cbn. rewrite (Hfirst _ Hk'). lia.
        -- exact (Hnext _ _ _ Hk Hk').
      * intros ds Hds _. destruct new as [|d new];
          [exfalso; destruct Hnil as [Hn _]; specialize (Hn eq_refl); lia|].
        apply Hlast; [exact Hds|discriminate].
      * split; [discriminate|lia].
    + destruct (Z.eqb_spec (s + (n - s)) n) as [_|]; [|lia].
      injection H as <-. exists [DocSpan.mk s (n - s)].
      split; [reflexivity|].
      split; [constructor; [unfold span_ok; cbn; lia|constructor]|].
      split; [intros ds Hds; cbn in Hds; injection Hds as <-; reflexivity|].
      split; [intros k ds ds' _ Hk'; cbn in Hk'; discriminate|].
      split; [intros ds <- _; cbn; lia|].
      split; [discriminate|lia].
  - injection H as <-. exists []. rewrite app_nil_r. split; [reflexivity|].
    split; [constructor|].
    split; [intros ds Hds; rewrite lookup_nil in Hds; discriminate|].
    split; [intros k ds ds' Hk; rewrite lookup_nil in Hk; discriminate|].
    split; [intros ds _ Hne; congruence|].
    split; [lia|reflexivity].
Qed.

Lemma make_doc_spans_span_ok fuel all_doc_tokens query_tokens max_seq_length doc_stride
    doc_spans k ds :
  make_doc_spans fuel all_doc_tokens query_tokens max_seq_length doc_stride
  = Some doc_spans ->
  doc_spans !! k = Some ds ->
  span_ok (Zlen all_doc_tokens) (max_tokens_for_doc max_seq_length query_tokens) ds.
Proof.
  unfold make_doc_spans. intros H Hk.
  apply doc_spans_loop_structure in H as (new & -> & Hok & _); [|lia].
  cbn [app] in Hk. rewrite Forall_lookup in Hok. exact (Hok _ _ Hk).
Qed.

(** X11: the spans that the chunking loop returns.  Every span lies inside
    the sub-tokenized document, is not empty and has at most
    [max_tokens_for_doc] tokens; the first span starts at 0; every span
    that has a successor has exactly [max_tokens_for_doc] tokens, and the
    successor starts [min(max_tokens_for_doc, doc_stride)] tokens later,
    which is a positive number; the last span ends with the document; and
    there is no span exactly for an empty document. *)
Theorem make_doc_spans_structure (fuel : nat) (all_doc_tokens query_tokens : list string)
    (max_seq_length doc_stride : Z) (doc_spans : list DocSpan.t) :
  make_doc_spans fuel all_doc_tokens query_tokens max_seq_length doc_stride
  = Some doc_spans ->
  let budget := max_tokens_for_doc max_seq_length query_tokens in
  Forall (span_ok (Zlen all_doc_tokens) budget) doc_spans /\
  (forall ds, doc_spans !! 0%nat = Some ds -> DocSpan.start ds = 0) /\
  (forall k ds ds', doc_spans !! k = Some ds -> doc_spans !! S k = Some ds' ->
     DocSpan.length ds = budget /\
     DocSpan.start ds' = DocSpan.start ds + Z.min budget doc_stride /\
     0 < Z.min budget doc_stride) /\
  (forall ds, List.last doc_spans ds = ds -> doc_spans <> [] ->
     DocSpan.start ds + DocSpan.length ds = Zlen all_doc_tokens) /\
  (doc_spans = [] <-> all_doc_tokens = []).
Proof.
  unfold make_doc_spans. intros H.
  apply doc_spans_loop_structure in H
    as (new & -> & Hok & Hfirst & Hnext & Hlast & Hnil); [|lia].
  cbn [app]. repeat split; try assumption.
  - exact (proj1 (Hnext _ _ _ H H0)).
  - exact (proj1 (proj2 (Hnext _ _ _ H H0))).
  - exact (proj2 (proj2 (Hnext _ _ _ H H0))).
  - intros Hn. apply Hnil in Hn. destruct all_doc_tokens; [reflexivity|cbn in Hn; lia].
  - intros ->. apply Hnil. cbn. lia.
Qed.

Lemma make_doc_spans_structure_witness :
  let doc_spans := [DocSpan.mk 0 3; DocSpan.mk 1 3] in
  Forall (span_ok 4 3) doc_spans /\
  (forall ds, doc_spans !! 0%nat = Some ds -> DocSpan.start ds = 0) /\
  (forall k ds ds', doc_spans !! k = Some ds -> doc_spans !! S k = Some ds' ->
     DocSpan.length ds = 3 /\
     DocSpan.start ds' = DocSpan.start ds + Z.min 3 1 /\
     0 < Z.min 3 1) /\
  (forall ds, List.last doc_spans ds = ds -> doc_spans <> [] ->
     DocSpan.start ds + DocSpan.length ds = 4) /\
  (doc_spans = [] <-> ["the"; "man"; "went"; "home"]%string = []).
Proof.
  exact (make_doc_spans_structure 10 ["the"; "man"; "went"; "home"]%string
           ["who"]%string 7 1 [DocSpan.mk 0 3; DocSpan.mk 1 3] eq_refl).
Defined.

(** X12: the chunking loop ends, for some number of rounds, exactly when
    the document is empty, or fits into one span, or both the budget
    [max_tokens_for_doc] and [doc_stride] are positive. *)
Theorem make_doc_spans_ends_iff (all_doc_tokens query_tokens : list string)
    (max_seq_length doc_stride : Z) :
  (exists fuel,
     is_Some (make_doc_spans fuel all_doc_tokens query_tokens max_seq_length doc_stride))
  <->
  all_doc_tokens = [] \/
  Zlen all_doc_tokens <= max_tokens_for_doc max_seq_length query_tokens \/
  (0 < max_tokens_for_doc max_seq_length query_tokens /\ 0 < doc_stride).
Proof.
  unfold make_doc_spans, Zlen.
  set (n := Z.of_nat (List.length all_doc_tokens)).
  set (budget := max_tokens_for_doc max_seq_length query_tokens).
  split.
  - intros (fuel & r & Hrun).
    destruct all_doc_tokens as [|t l] eqn:Hall; [left; reflexivity|]. right.
    destruct (Z_le_gt_dec n budget) as [Hle|Hgt]; [left; exact Hle|]. right.
    destruct (Z_le_gt_dec (Z.min budget doc_stride) 0) as [Hmin|Hmin]; [|lia].
    rewrite doc_spans_loop_stuck in Hrun; [discriminate|exact Hmin| |lia].
    unfold n. cbn [List.length]. lia.
  - intros [->|[Hle|[Hb Hs]]].
    + exists 1%nat. cbn. eauto.
    + exists 1%nat. cbn [doc_spans_loop].
      destruct (Z.ltb_spec 0 n); [|eauto].
      rewrite Z.gtb_ltb. destruct (Z.ltb_spec budget (n - 0)); [lia|].
      destruct (Z.eqb_spec (0 + (n - 0)) n); [eauto|lia].
    + destruct (Z_le_gt_dec n 0) as [Hn|Hn].
      * exists 1%nat. cbn [doc_spans_loop]. destruct (Z.ltb_spec 0 n); [lia|eauto].
      * destruct (doc_spans_loop_from n budget doc_stride Hb Hs (Z.to_nat n) 0 [])
          as (tail & lst & Hrun & _); [lia|lia|].
        exists (Z.to_nat n). rewrite Hrun. eauto.
Qed.

(** ** Feature builder: the sequences of a feature *)

Lemma pad_loop_closed_form cfg rounds : forall p,
  pad_loop cfg rounds p
  = Padded.mk
      (Padded.input_ids p ++ replicate rounds (Config.pad_token cfg))
      (Padded.input_mask p
       ++ replicate rounds (if Config.mask_padding_with_zero cfg then 0 else 1))
      (Padded.segment_ids p ++ replicate rounds (Config.pad_token_segment_id cfg))
      (Padded.p_mask p ++ replicate rounds 1).
Proof.
  induction rounds as [|rounds IH]; intros [ids mask seg pm].
  - cbn. rewrite !app_nil_r. reflexivity.
  - cbn [pad_loop]. rewrite IH. cbn. rewrite <- !app_assoc. reflexivity.
Qed.

Section FeatureSequences.
Context {F : Type}.
Variable F_of_Z : Z -> F.
Variable fadd fmul : F -> F -> F.
Variable f0_01 : F.
Variable fgt : F -> F -> bool.
Variable tokenize : string -> list string.
Variable convert_tokens_to_ids : list string -> list Z.

Local Abbreviation is_max' := (_check_is_max_context F_of_Z fadd fmul f0_01 fgt).
Local Abbreviation assemble' := (assemble F_of_Z fadd fmul f0_01 fgt).
Local Abbreviation build_feature' :=
  (build_feature F_of_Z fadd fmul f0_01 fgt convert_tokens_to_ids).
Local Abbreviation convert' :=
  (_convert_examples_to_features F_of_Z fadd fmul f0_01 fgt tokenize
     convert_tokens_to_ids).
Local Abbreviation built_from' :=
  (built_from F_of_Z fadd fmul f0_01 fgt tokenize convert_tokens_to_ids).
Local Abbreviation query_tokens_of' := (query_tokens_of tokenize).

(** The keys of the two dictionaries are the positions of the chunk. *)
Lemma assemble_keys_at cfg q doc_spans k ds t2o all st cls_index :
  assemble' cfg q doc_spans k ds t2o all = Some (st, cls_index) ->
  keys_between st (Zlen (before_chunk cfg q))
    (Zlen (before_chunk cfg q) + Z.max 0 (DocSpan.length ds)).
Proof.
  unfold assemble. intros H.
  apply bind_Some in H as (st1 & Hloop & H). injection H as <- _.
  match type of Hloop with
  | paragraph_loop _ ?st0 _ = _ =>
      assert (Hlen0 : Zlen (Chunk.tokens st0) = Zlen (before_chunk cfg q));
      [|assert (Hkeys0 : keys_between st0 (Zlen (before_chunk cfg q))
                           (Zlen (Chunk.tokens st0)))]
  end.
  - unfold before_chunk, Zlen.
    destruct (Config.cls_token_at_end cfg), (Config.sequence_a_is_doc cfg);
      cbn; rewrite ?length_app; cbn; lia.
  - rewrite Hlen0. intros j.
    destruct (Config.cls_token_at_end cfg), (Config.sequence_a_is_doc cfg);
      cbn; rewrite !has_key_empty; split; split; solve [discriminate | lia].
  - pose proof (paragraph_loop_keys _ _ _ _ _ _ _ _ _ _ _ (Zlen (before_chunk cfg q))
                  _ _ _ ltac:(rewrite Hlen0; apply Z.le_refl) Hkeys0 Hloop) as [Hk _].
    rewrite Hlen0, length_range, Z.sub_0_r in Hk.
    apply (keys_between_same_maps F_of_Z fadd fmul f0_01 fgt st1); [| |exact Hk];
      destruct (Config.cls_token_at_end cfg), (Config.sequence_a_is_doc cfg);
      reflexivity.
Qed.

(** What a feature holds, in terms of the chunk it is built from. *)
Lemma built_from_layout fuel cfg uid ei ex t2o o2t all tp doc_spans k ds f :
  built_from' fuel cfg uid ei ex t2o o2t all tp doc_spans k ds f ->
  let q := query_tokens_of' cfg ex in
  let offset := List.length (before_chunk cfg q) in
  exists chunk labels rounds,
    Feature.unique_id f = uid /\
    Feature.example_index f = ei /\
    Feature.doc_span_index f = k /\
    Feature.paragraph_len f = DocSpan.length ds /\
    Feature.tokens f = before_chunk cfg q ++ chunk ++ after_chunk cfg q /\
    Feature.p_mask f
    = (mask_before_chunk cfg q ++ replicate (List.length chunk) 0
       ++ mask_after_chunk cfg q) ++ replicate rounds 1 /\
    Feature.input_ids f
    = convert_tokens_to_ids (Feature.tokens f)
      ++ replicate rounds (Config.pad_token cfg) /\
    Feature.input_mask f
    = replicate (List.length (convert_tokens_to_ids (Feature.tokens f)))
        (if Config.mask_padding_with_zero cfg then 1 else 0)
      ++ replicate rounds (if Config.mask_padding_with_zero cfg then 0 else 1) /\
    Zlen (Feature.input_ids f) = Config.max_seq_length cfg /\
    Feature.cls_index f
    = (if Config.cls_token_at_end cfg then Zlen (Feature.tokens f) - 1 else 0) /\
    place_labels cfg ex q ds tp (Feature.cls_index f) = Some labels /\
    Feature.start_position f = labels.1.1 /\
    Feature.end_position f = labels.1.2 /\
    Feature.is_impossible f = labels.2 /\
    span_ok (Zlen all) (max_tokens_for_doc (Config.max_seq_length cfg) q) ds /\
    List.length chunk = Z.to_nat (DocSpan.length ds) /\
    (forall p, has_key p (Feature.token_to_orig_map f) = true <->
       Z.of_nat offset <= p < Z.of_nat offset + DocSpan.length ds) /\
    forall i, (i < List.length chunk)%nat ->
      chunk !! i = all !! (Z.to_nat (DocSpan.start ds) + i)%nat /\
      Feature.token_to_orig_map f !! Z.of_nat (offset + i)
      = t2o !! (Z.to_nat (DocSpan.start ds) + i)%nat /\
      Feature.token_is_max_context f !! Z.of_nat (offset + i)
      = Some (is_max' doc_spans k (DocSpan.start ds + Z.of_nat i)).
Proof.
  intros (Htok & Htp & Hspans & Hk & Hf) q offset.
  apply build_feature_fields in Hf as (st & cls & labels & Has & Hassert & Hlabels & ->).
  pose proof (assemble_keys_at _ _ _ _ _ _ _ _ _ Has) as Hkeys.
  apply assemble_layout in Has as (chunk & Htokens & Hmask & (Hlen & Hchunk) & Hcls).
  pose proof (make_doc_spans_span_ok _ _ _ _ _ _ _ _ Hspans Hk) as Hok.
  unfold pad in *. rewrite pad_loop_closed_form in *.
  cbn [Padded.input_ids Padded.input_mask Padded.segment_ids Padded.p_mask] in *.
  exists chunk, labels. eexists. cbn.
  repeat (split; [first [reflexivity | eassumption]|]).
  split; [rewrite Hmask; reflexivity|].
  split; [reflexivity|]. split; [reflexivity|].
  split. { unfold asserts_hold in Hassert. cbn in Hassert.
    apply andb_true_iff in Hassert as [Hassert _].
    apply andb_true_iff in Hassert as [Hassert _].
    apply Z.eqb_eq in Hassert. exact Hassert. }
  split; [exact Hcls|]. split; [exact Hlabels|].
  split; [reflexivity|]. split; [reflexivity|]. split; [reflexivity|].
  split; [exact Hok|]. split; [exact Hlen|].
  split. { intros p. destruct (Hkeys p) as [Hp _]. rewrite Hp.
    destruct Hok as (_ & Hpos & _). unfold Zlen. fold q. fold offset. lia. }
  intros i Hi. destruct (Hchunk i Hi) as (H1 & H2 & H3).
  destruct Hok as (Hs & _).
  rewrite py_index_nonneg in H1 by lia. rewrite py_index_nonneg in H2 by lia.
  replace (Z.to_nat (DocSpan.start ds + Z.of_nat i))
    with (Z.to_nat (DocSpan.start ds) + i)%nat in H1, H2 by lia.
  split; [exact H1|]. split; [exact H2|exact H3].
Qed.

End FeatureSequences.

(** ** Feature builder: what a user of the features can rely on *)

Section FeatureProps.
Context {F : Type}.
Variable F_of_Z : Z -> F.
Variable fadd fmul : F -> F -> F.
Variable f0_01 : F.
Variable fgt : F -> F -> bool.
Variable tokenize : string -> list string.
Variable convert_tokens_to_ids : list string -> list Z.

Local Abbreviation convert' :=
  (_convert_examples_to_features F_of_Z fadd fmul f0_01 fgt tokenize
     convert_tokens_to_ids).
Local Abbreviation query_tokens_of' := (query_tokens_of tokenize).

(** X13: the tokens of a feature and the way back to the words.  The
    token sequence of every feature is the fixed part before the chunk, a
    chunk of [paragraph_len] document sub-tokens, and the fixed part after
    it, for the (truncated) question of the example that [example_index]
    names; and [token_to_orig_map] sends the position of every sub-token of
    the chunk to a word of that example whose sub-tokenization contains
    the sub-token. *)
Theorem feature_tokens_round_trip fuel cfg examples features i f :
  convert' fuel cfg examples = Some features ->
  features !! i = Some f ->
  exists example chunk,
    examples !! Feature.example_index f = Some example /\
    Feature.tokens f
    = before_chunk cfg (query_tokens_of' cfg example) ++ chunk
      ++ after_chunk cfg (query_tokens_of' cfg example) /\
    Zlen chunk = Feature.paragraph_len f /\
    forall j tok, chunk !! j = Some tok ->
      exists k token,
        Feature.token_to_orig_map f
          !! Z.of_nat (List.length (before_chunk cfg (query_tokens_of' cfg example)) + j)
        = Some (Z.of_nat k) /\
        Example.doc_tokens example !! k = Some token /\
        tok ∈ tokenize token.
Proof.
  intros H Hi.
  destruct (convert_examples_lookup _ _ _ _ _ _ _ _ _ _ _ _ _ H Hi)
    as (ei & ex & t2o & o2t & all & tp & spans & k & ds & Hex & Hb).
  pose proof Hb as (Htok & _).
  apply built_from_layout in Hb
    as (chunk & labels & rounds & _ & Hei & _ & Hplen & Htokens & _ & _ & _ & _ & _
        & _ & _ & _ & _ & Hok & Hlen & _ & Hchunk).
  exists ex, chunk. rewrite Hei. split; [exact Hex|]. split; [exact Htokens|].
  destruct Hok as (Hs & Hpos & _ & Hend).
  split; [rewrite Hplen; unfold Zlen; lia|].
  intros j tok Hj.
  assert (Hjlt : (j < List.length chunk)%nat) by (apply lookup_lt_is_Some; eauto).
  destruct (Hchunk j Hjlt) as (H1 & H2 & _).
  rewrite tokenize_doc_closed_form in Htok. cbn [app] in Htok.
  injection Htok as <- _ <-.
  destruct (word_indexes_lookup tokenize (Example.doc_tokens ex) 0
              (Z.to_nat (DocSpan.start ds) + j))
    as (w & token & j' & Hw1 & Hw2 & _ & _ & Hw5).
  { unfold Zlen in Hend. lia. }
  exists w, token. rewrite H2, Hw1, Z.add_0_l.
  split; [reflexivity|]. split; [exact Hw2|].
  rewrite <- H1, Hj in Hw5. eapply list_elem_of_lookup_2. exact Hw5.
Qed.

(** X14: the identifiers of the features.  The feature at position [i] of
    the result has the identifier [1000000000 + i], so that no two
    features share one, and its [example_index] names one of the
    examples. *)
Theorem feature_unique_ids fuel cfg examples features :
  _convert_examples_to_features F_of_Z fadd fmul f0_01 fgt tokenize
    convert_tokens_to_ids fuel cfg examples = Some features ->
  (forall i f, features !! i = Some f ->
     Feature.unique_id f = 1000000000 + Z.of_nat i /\
     (Feature.example_index f < List.length examples)%nat) /\
  (forall i j f g, features !! i = Some f -> features !! j = Some g ->
     Feature.unique_id f = Feature.unique_id g -> i = j).
Proof.
  intros H.
  assert (Hid : forall i f, features !! i = Some f ->
            Feature.unique_id f = 1000000000 + Z.of_nat i /\
            (Feature.example_index f < List.length examples)%nat).
  { intros i f Hi.
    destruct (convert_examples_lookup _ _ _ _ _ _ _ _ _ _ _ _ _ H Hi)
      as (ei & ex & t2o & o2t & all & tp & spans & k & ds & Hex & Hb).
    apply built_from_layout in Hb as (chunk & labels & rounds & Huid & Hei & _).
    rewrite Huid, Hei. split; [reflexivity|].
    apply lookup_lt_is_Some. eauto. }
  split; [exact Hid|].
  intros i j f g Hi Hj Heq.
  destruct (Hid _ _ Hi) as [Hf _]. destruct (Hid _ _ Hj) as [Hg _]. lia.
Qed.

End FeatureProps.

Section FeatureMasks.
Context {F : Type}.
Variable F_of_Z : Z -> F.
Variable fadd fmul : F -> F -> F.
Variable f0_01 : F.
Variable fgt : F -> F -> bool.
Variable tokenize : string -> list string.
Variable convert_tokens_to_ids : list string -> list Z.

Local Abbreviation convert' :=
  (_convert_examples_to_features F_of_Z fadd fmul f0_01 fgt tokenize
     convert_tokens_to_ids).
Local Abbreviation query_tokens_of' := (query_tokens_of tokenize).

(** X15: the answer mask of a feature.  [p_mask] is 0 at the position of
    the classification token and at the positions that [token_to_orig_map]
    maps (the document sub-tokens), and 1 everywhere else, padding
    included. *)
Theorem feature_p_mask fuel cfg examples features i f :
  convert' fuel cfg examples = Some features ->
  features !! i = Some f ->
  forall p v, Feature.p_mask f !! p = Some v ->
    v = if (Z.of_nat p =? Feature.cls_index f)
           || has_key (Z.of_nat p) (Feature.token_to_orig_map f)
        then 0 else 1.
Proof.
  intros H Hi p v Hp.
  destruct (convert_examples_lookup _ _ _ _ _ _ _ _ _ _ _ _ _ H Hi)
    as (ei & ex & t2o & o2t & all & tp & spans & k & ds & Hex & Hb).
  apply built_from_layout in Hb
    as (chunk & labels & rounds & _ & _ & _ & _ & Htokens & Hmask & _ & _ & _ & Hcls
        & _ & _ & _ & _ & Hok & Hlen & Hkeys & _).
  destruct Hok as (_ & Hpos & _).
  rewrite Hcls, Htokens. rewrite Hmask in Hp.
  specialize (Hkeys (Z.of_nat p)).
  unfold Zlen. rewrite !length_app.
  set (q := query_tokens_of' cfg ex) in *.
  assert (Hkey : has_key (Z.of_nat p) (Feature.token_to_orig_map f)
                 = (Z.of_nat (List.length (before_chunk cfg q)) <=? Z.of_nat p)
                   && (Z.of_nat p
                       <? Z.of_nat (List.length (before_chunk cfg q))
                          + Z.of_nat (List.length chunk))).
  { destruct (has_key _ _).
    - symmetry. apply andb_true_iff. rewrite Z.leb_le, Z.ltb_lt.
      destruct Hkeys as [Hk _]. specialize (Hk eq_refl). lia.
    - symmetry. apply not_true_is_false. intros Hc.
      apply andb_true_iff in Hc. rewrite Z.leb_le, Z.ltb_lt in Hc.
      destruct Hkeys as [_ Hk]. discriminate Hk. lia. }
  rewrite Hkey. clear Hkey Hkeys.
  assert (Hchunk : (0 < List.length chunk)%nat) by lia.
  unfold before_chunk, after_chunk, mask_before_chunk, mask_after_chunk in *.
  destruct (Config.cls_token_at_end cfg), (Config.sequence_a_is_doc cfg);
    cbn [app List.length] in *;
    rewrite ?length_app in *; cbn [List.length] in *;
    split_lookup Hp; subst v; norm_lengths;
    repeat match goal with
           | |- context [Z.eqb ?a ?b] => destruct (Z.eqb_spec a b)
           | |- context [Z.leb ?a ?b] => destruct (Z.leb_spec a b)
           | |- context [Z.ltb ?a ?b] => destruct (Z.ltb_spec a b)
           end;
    cbn [orb andb]; norm_lengths; solve [reflexivity | lia].
Qed.

(** X16: the classification token of a feature.  [cls_index] is a
    position of [tokens], the first one or, with [cls_token_at_end], the
    last one, and the token there is [cls_token]. *)
Theorem feature_cls_index fuel cfg examples features i f :
  convert' fuel cfg examples = Some features ->
  features !! i = Some f ->
  0 <= Feature.cls_index f < Zlen (Feature.tokens f) /\
  Feature.cls_index f
  = (if Config.cls_token_at_end cfg then Zlen (Feature.tokens f) - 1 else 0) /\
  Feature.tokens f !! Z.to_nat (Feature.cls_index f) = Some (Config.cls_token cfg).
Proof.
  intros H Hi.
  destruct (convert_examples_lookup _ _ _ _ _ _ _ _ _ _ _ _ _ H Hi)
    as (ei & ex & t2o & o2t & all & tp & spans & k & ds & Hex & Hb).
  apply built_from_layout in Hb
    as (chunk & labels & rounds & _ & _ & _ & _ & Htokens & _ & _ & _ & _ & Hcls & _).
  rewrite Hcls, Htokens.
  unfold before_chunk, after_chunk, Zlen.
  destruct (Config.cls_token_at_end cfg) eqn:Hend.
  - rewrite !app_assoc.
    match goal with
    | |- context [?l ++ [Config.cls_token cfg]] => set (front := l)
    end.
    rewrite length_app. cbn [List.length].
    split; [lia|]. split; [reflexivity|].
    replace (Z.to_nat (Z.of_nat (List.length front + 1) - 1))
      with (List.length front + 0)%nat by lia.
    rewrite lookup_app_r by lia.
    replace (List.length front + 0 - List.length front)%nat with 0%nat by lia.
    reflexivity.
  - cbn [app]. cbn [List.length]. split; [lia|]. split; reflexivity.
Qed.

(** X17: the ids and the attention mask of a feature.  [input_ids] is the
    ids of the tokens followed by [pad_token] up to [max_seq_length];
    [input_mask] has the value for real tokens (1, unless
    [mask_padding_with_zero] is off) over the ids of the tokens, and the
    other value over the padding. *)
Theorem feature_input_mask fuel cfg examples features i f :
  convert' fuel cfg examples = Some features ->
  features !! i = Some f ->
  let ids := convert_tokens_to_ids (Feature.tokens f) in
  let rounds := Z.to_nat (Config.max_seq_length cfg - Zlen ids) in
  Zlen ids <= Config.max_seq_length cfg /\
  Feature.input_ids f = ids ++ replicate rounds (Config.pad_token cfg) /\
  Feature.input_mask f
  = replicate (List.length ids) (if Config.mask_padding_with_zero cfg then 1 else 0)
    ++ replicate rounds (if Config.mask_padding_with_zero cfg then 0 else 1).
Proof.
  intros H Hi ids rounds.
  destruct (convert_examples_lookup _ _ _ _ _ _ _ _ _ _ _ _ _ H Hi)
    as (ei & ex & t2o & o2t & all & tp & spans & k & ds & Hex & Hb).
  apply built_from_layout in Hb
    as (chunk & labels & rounds' & _ & _ & _ & _ & _ & _ & Hids & Hmask & Hlen & _).
  fold ids in Hids, Hmask.
  assert (Hr : rounds' = rounds).
  { unfold rounds. rewrite <- Hlen, Hids. unfold Zlen.
    rewrite length_app, length_replicate. lia. }
  rewrite <- Hr. split; [|split; assumption].
  rewrite <- Hlen, Hids. unfold Zlen. rewrite length_app. lia.
Qed.

End FeatureMasks.

Lemma feature_tokens_round_trip_witness :
  exists features f,
    toy_features toy_config [toy_example] = Some features /\
    features !! 1%nat = Some f /\
    exists example chunk,
      [toy_example] !! Feature.example_index f = Some example /\
      Feature.tokens f
      = before_chunk toy_config (query_tokens_of split toy_config example) ++ chunk
        ++ after_chunk toy_config (query_tokens_of split toy_config example) /\
      Zlen chunk = Feature.paragraph_len f /\
      forall j tok, chunk !! j = Some tok ->
        exists k token,
          Feature.token_to_orig_map f
            !! Z.of_nat (List.length (before_chunk toy_config
                                        (query_tokens_of split toy_config example)) + j)
          = Some (Z.of_nat k) /\
          Example.doc_tokens example !! k = Some token /\
          tok ∈ split token.
Proof.
  eexists _, _. split; [vm_compute; reflexivity|]. split; [reflexivity|].
  eapply (feature_tokens_round_trip inject_Z Qplus Qmult (1 # 100)%Q Qgtb split toy_ids
           10%nat toy_config [toy_example] _ 1%nat).
  - vm_compute. reflexivity.
  - reflexivity.
Defined.

Lemma feature_unique_ids_witness :
  exists features,
    toy_features toy_config [toy_example] = Some features /\
    (forall i f, features !! i = Some f ->
       Feature.unique_id f = 1000000000 + Z.of_nat i /\
       (Feature.example_index f < 1)%nat) /\
    (forall i j f g, features !! i = Some f -> features !! j = Some g ->
       Feature.unique_id f = Feature.unique_id g -> i = j).
Proof.
  eexists. split; [vm_compute; reflexivity|].
  apply (feature_unique_ids inject_Z Qplus Qmult (1 # 100)%Q Qgtb split toy_ids
           10%nat toy_config [toy_example]).
  vm_compute. reflexivity.
Defined.

Lemma feature_p_mask_witness :
  exists features f,
    toy_features toy_config_doc_first [toy_example] = Some features /\
    features !! 0%nat = Some f /\
    forall p v, Feature.p_mask f !! p = Some v ->
      v = if (Z.of_nat p =? Feature.cls_index f)
             || has_key (Z.of_nat p) (Feature.token_to_orig_map f)
          then 0 else 1.
Proof.
  eexists _, _. split; [vm_compute; reflexivity|]. split; [reflexivity|].
  eapply (feature_p_mask inject_Z Qplus Qmult (1 # 100)%Q Qgtb split toy_ids
           10%nat toy_config_doc_first [toy_example] _ 0%nat).
  - vm_compute. reflexivity.
  - reflexivity.
Defined.

Lemma feature_cls_index_witness :
  exists features f,
    toy_features toy_config_doc_first [toy_example] = Some features /\
    features !! 0%nat = Some f /\
    0 <= Feature.cls_index f < Zlen (Feature.tokens f) /\
    Feature.cls_index f = Zlen (Feature.tokens f) - 1 /\
    Feature.tokens f !! Z.to_nat (Feature.cls_index f) = Some "<cls>"%string.
Proof.
  eexists _, _. split; [vm_compute; reflexivity|]. split; [reflexivity|].
  eapply (feature_cls_index inject_Z Qplus Qmult (1 # 100)%Q Qgtb split toy_ids
           10%nat toy_config_doc_first [toy_example] _ 0%nat).
  - vm_compute. reflexivity.
  - reflexivity.
Defined.

Lemma feature_input_mask_witness :
  exists features f,
    toy_features (Config.default 10 1 64 false) [toy_example] = Some features /\
    features !! 0%nat = Some f /\
    let ids := toy_ids (Feature.tokens f) in
    let rounds := Z.to_nat (10 - Zlen ids) in
    Zlen ids <= 10 /\
    Feature.input_ids f = ids ++ replicate rounds 0 /\
    Feature.input_mask f = replicate (List.length ids) 1 ++ replicate rounds 0.
Proof.
  eexists _, _. split; [vm_compute; reflexivity|]. split; [reflexivity|].
  eapply (feature_input_mask inject_Z Qplus Qmult (1 # 100)%Q Qgtb split toy_ids
           10%nat (Config.default 10 1 64 false) [toy_example] _ 0%nat).
  - vm_compute. reflexivity.
  - reflexivity.
Defined.

Section FeatureLabels.
Context {F : Type}.
Variable F_of_Z : Z -> F.
Variable fadd fmul : F -> F -> F.
Variable f0_01 : F.
Variable fgt : F -> F -> bool.
Variable tokenize : string -> list string.
Variable convert_tokens_to_ids : list string -> list Z.

Local Abbreviation convert' :=
  (_convert_examples_to_features F_of_Z fadd fmul f0_01 fgt tokenize
     convert_tokens_to_ids).
Local Abbreviation query_tokens_of' := (query_tokens_of tokenize).

(** X18: the labels of a training feature.  A feature marked impossible
    has both labels at [cls_index].  Any other feature belongs to an
    answerable example, and its labels are the (improved) answer span of
    the example shifted into the feature: they are as far apart as the
    ends of the span, and when the classification token and the question
    are on the same side of the document ([cls_token_at_end] equals
    [sequence_a_is_doc]), the tokens of the feature between the labels are
    the sub-tokens of the span. *)
Theorem feature_training_labels fuel cfg examples features i f :
  convert' fuel cfg examples = Some features ->
  features !! i = Some f ->
  Config.is_training cfg = true ->
  exists example,
    examples !! Feature.example_index f = Some example /\
    (Feature.is_impossible f = true ->
     Feature.start_position f = Some (Feature.cls_index f) /\
     Feature.end_position f = Some (Feature.cls_index f)) /\
    (Feature.is_impossible f = false ->
     Example.is_impossible example = false /\
     let '(_, orig_to_tok_index, all_doc_tokens) :=
       tokenize_doc tokenize 0 (Example.doc_tokens example) [] [] [] in
     exists tok_start tok_end s e,
       tok_positions tokenize cfg example orig_to_tok_index all_doc_tokens
       = Some (Some (tok_start, tok_end)) /\
       Feature.start_position f = Some s /\
       Feature.end_position f = Some e /\
       e - s = tok_end - tok_start /\
       (Config.cls_token_at_end cfg = Config.sequence_a_is_doc cfg ->
        forall d, 0 <= d <= tok_end - tok_start ->
          0 <= s /\
          Feature.tokens f !! Z.to_nat (s + d)
          = all_doc_tokens !! Z.to_nat (tok_start + d))).
Proof.
  intros H Hi Htrain.
  destruct (convert_examples_lookup _ _ _ _ _ _ _ _ _ _ _ _ _ H Hi)
    as (ei & ex & t2o & o2t & all & tp & spans & k & ds & Hex & Hb).
  pose proof Hb as (Htok & Htp & _).
  apply built_from_layout in Hb
    as (chunk & labels & rounds & _ & Hei & _ & _ & Htokens & _ & _ & _ & _ & _
        & Hlabels & Hsp & Hep & Himp & Hok & Hlen & _ & Hchunk).
  exists ex. rewrite Hei. split; [exact Hex|].
  rewrite Hsp, Hep, Himp, Htok. clear Hsp Hep Himp.
  unfold place_labels in Hlabels. rewrite Htrain in Hlabels. cbn [andb] in Hlabels.
  destruct (Example.is_impossible ex) eqn:Himp; cbn [negb] in Hlabels.
  { cbn in Hlabels. injection Hlabels as <-. cbn.
    split; [intros _; split; reflexivity|discriminate]. }
  destruct tp as [[ts te]|]; [|discriminate]. cbn [mbind option_bind] in Hlabels.
  destruct (negb _) eqn:Hout; cbn in Hlabels.
  { injection Hlabels as <-. cbn.
    split; [intros _; split; reflexivity|discriminate]. }
  injection Hlabels as <-. cbn [fst snd].
  split; [discriminate|]. intros _. split; [reflexivity|].
  exists ts, te. eexists _, _. split; [exact Htp|].
  split; [reflexivity|]. split; [reflexivity|]. split; [lia|].
  intros Hside d Hd.
  apply negb_false_iff, andb_true_iff in Hout as [Hs He].
  apply Z.geb_le in Hs. apply Z.leb_le in He.
  destruct Hok as (Hstart & Hpos & _ & Hend).
  set (q := query_tokens_of' cfg ex) in *.
  assert (Hoff : (if Config.sequence_a_is_doc cfg then 0 else Zlen q + 2)
                 = Z.of_nat (List.length (before_chunk cfg q))).
  { unfold before_chunk, Zlen. rewrite Hside.
    destruct (Config.sequence_a_is_doc cfg); cbn [app List.length];
      rewrite ?length_app; cbn [List.length]; lia. }
  rewrite Hoff. split; [lia|].
  set (j := Z.to_nat (ts + d - DocSpan.start ds)).
  assert (Hj : (j < List.length chunk)%nat) by (unfold j; lia).
  destruct (Hchunk j Hj) as (H1 & _).
  replace (Z.to_nat (ts - DocSpan.start ds + Z.of_nat (List.length (before_chunk cfg q)) + d))
    with (List.length (before_chunk cfg q) + j)%nat by (unfold j; lia).
  replace (Z.to_nat (ts + d)) with (Z.to_nat (DocSpan.start ds) + j)%nat
    by (unfold j; lia).
  rewrite Htokens, lookup_app_r by lia.
  replace (List.length (before_chunk cfg q) + j - List.length (before_chunk cfg q))%nat
    with j by lia.
  rewrite lookup_app_l by exact Hj. exact H1.
Qed.

End FeatureLabels.

Lemma feature_training_labels_witness :
  exists features f,
    toy_features (Config.default 8 1 64 true) [toy_training_example] = Some features /\
    features !! 1%nat = Some f /\
    exists example,
      [toy_training_example] !! Feature.example_index f = Some example /\
      (Feature.is_impossible f = true ->
       Feature.start_position f = Some (Feature.cls_index f) /\
       Feature.end_position f = Some (Feature.cls_index f)) /\
      (Feature.is_impossible f = false ->
       Example.is_impossible example = false /\
       let '(_, orig_to_tok_index, all_doc_tokens) :=
         tokenize_doc split 0 (Example.doc_tokens example) [] [] [] in
       exists tok_start tok_end s e,
         tok_positions split (Config.default 8 1 64 true) example orig_to_tok_index
           all_doc_tokens
         = Some (Some (tok_start, tok_end)) /\
         Feature.start_position f = Some s /\
         Feature.end_position f = Some e /\
         e - s = tok_end - tok_start /\
         (false = false ->
          forall d, 0 <= d <= tok_end - tok_start ->
            0 <= s /\
            Feature.tokens f !! Z.to_nat (s + d)
            = all_doc_tokens !! Z.to_nat (tok_start + d))).
Proof.
  eexists _, _. split; [vm_compute; reflexivity|]. split; [reflexivity|].
  eapply (feature_training_labels inject_Z Qplus Qmult (1 # 100)%Q Qgtb split toy_ids
            10%nat (Config.default 8 1 64 true) [toy_training_example] _ 1%nat).
  - vm_compute. reflexivity.
  - reflexivity.
  - reflexivity.
Defined.

Example toy_training_labels :
  option_map (map (fun f => (Feature.start_position f, Feature.end_position f,
                             Feature.is_impossible f)))
    (toy_features (Config.default 8 1 64 true) [toy_training_example])
  = Some [(Some 0, Some 0, true); (Some 5, Some 6, false)].
Proof. vm_compute. reflexivity. Qed.

(** ** Feature builder: no failure in evaluation mode *)

Section EvaluationMode.
Context {F : Type}.
Variable F_of_Z : Z -> F.
Variable fadd fmul : F -> F -> F.
Variable f0_01 : F.
Variable fgt : F -> F -> bool.
Variable tokenize : string -> list string.
Variable convert_tokens_to_ids : list string -> list Z.

Local Abbreviation paragraph_step' := (paragraph_step F_of_Z fadd fmul f0_01 fgt).
Local Abbreviation assemble' := (assemble F_of_Z fadd fmul f0_01 fgt).
Local Abbreviation build_feature' :=
  (build_feature F_of_Z fadd fmul f0_01 fgt convert_tokens_to_ids).
Local Abbreviation build_features' :=
  (build_features F_of_Z fadd fmul f0_01 fgt convert_tokens_to_ids).
Local Abbreviation convert_example' :=
  (convert_example F_of_Z fadd fmul f0_01 fgt tokenize convert_tokens_to_ids).
Local Abbreviation convert_examples_loop' :=
  (convert_examples_loop F_of_Z fadd fmul f0_01 fgt tokenize convert_tokens_to_ids).
Local Abbreviation convert' :=
  (_convert_examples_to_features F_of_Z fadd fmul f0_01 fgt tokenize
     convert_tokens_to_ids).
Local Abbreviation query_tokens_of' := (query_tokens_of tokenize).

Lemma paragraph_loop_is_Some cfg doc_spans k ds t2o all ixs : forall st,
  List.length t2o = List.length all ->
  (forall ix, ix ∈ ixs -> 0 <= DocSpan.start ds + ix < Zlen all) ->
  is_Some (paragraph_loop (paragraph_step' cfg doc_spans k ds t2o all) st ixs).
Proof.
  intros st Hlen. revert st.
  induction ixs as [|ix ixs IH]; intros st Hix; cbn [paragraph_loop]; [eauto|].
  assert (Hstep : is_Some (paragraph_step' cfg doc_spans k ds t2o all st ix)).
  { destruct (Hix ix) as [H0 H1]; [left|]. unfold Zlen in H1.
    unfold paragraph_step. cbv zeta.
    rewrite !py_index_nonneg by exact H0.
    destruct (lookup_lt_is_Some_2 t2o (Z.to_nat (DocSpan.start ds + ix))) as [o ->];
      [lia|].
    destruct (lookup_lt_is_Some_2 all (Z.to_nat (DocSpan.start ds + ix))) as [t ->];
      [lia|].
    cbn. eauto. }
  destruct Hstep as [st1 ->]. cbn [mbind option_bind].
  apply IH. intros ix' Hin. apply Hix. right. exact Hin.
Qed.

Lemma assemble_is_Some cfg q doc_spans k ds t2o all budget :
  List.length t2o = List.length all ->
  span_ok (Zlen all) budget ds ->
  is_Some (assemble' cfg q doc_spans k ds t2o all).
Proof.
  intros Hlen (Hs & Hpos & _ & Hend). unfold assemble.
  match goal with
  | |- context [paragraph_loop ?step ?st0 ?ixs] =>
      destruct (paragraph_loop_is_Some cfg doc_spans k ds t2o all ixs st0 Hlen)
        as [st1 ->]
  end.
  - intros ix Hin. unfold range in Hin. apply list_elem_of_fmap in Hin as (j & -> & Hj).
    apply elem_of_seq in Hj. lia.
  - cbn. eauto.
Qed.

Lemma build_feature_is_Some cfg uid ei ex q t2o all tp doc_spans k ds :
  Config.is_training cfg = false ->
  (forall tokens,
     List.length (convert_tokens_to_ids tokens) = List.length tokens) ->
  List.length t2o = List.length all ->
  span_ok (Zlen all) (max_tokens_for_doc (Config.max_seq_length cfg) q) ds ->
  is_Some (build_feature' cfg uid ei ex q t2o all tp doc_spans k ds).
Proof.
  intros Htrain Hconv Hlen Hok. unfold build_feature.
  destruct (assemble_is_Some cfg q doc_spans k ds t2o all _ Hlen Hok) as [[st cls] Has].
  rewrite Has. cbn [mbind option_bind].
  pose proof (assemble_aligned _ _ _ _ _ _ _ _ _ _ _ _ _ _ Has) as Hal.
  apply assemble_layout in Has as (chunk & Htokens & Hmask & (Hchunk & _) & _).
  assert (Hassert : asserts_hold cfg (pad convert_tokens_to_ids cfg st) = true).
  { unfold asserts_hold, pad. rewrite pad_loop_closed_form. cbn.
    unfold chunk_aligned in Hal. unfold Zlen.
    rewrite !length_app, !length_replicate, Hconv, Hal, Htokens, Hmask.
    rewrite !length_app, length_replicate.
    destruct Hok as (_ & Hpos & Hb & _). unfold max_tokens_for_doc in Hb.
    assert (Hfix : (List.length (before_chunk cfg q) + List.length (after_chunk cfg q)
                    = List.length q + 3)%nat
                   /\ (List.length (mask_before_chunk cfg q)
                       + List.length (mask_after_chunk cfg q)
                       = List.length q + 3)%nat).
    { unfold before_chunk, after_chunk, mask_before_chunk, mask_after_chunk.
      destruct (Config.cls_token_at_end cfg), (Config.sequence_a_is_doc cfg);
        cbn [app List.length]; rewrite ?length_app, ?length_replicate;
        cbn [List.length]; lia. }
    destruct Hfix as [Hf1 Hf2].
    rewrite !andb_true_iff, !Z.eqb_eq. lia. }
  rewrite Hassert. unfold place_labels. rewrite Htrain. cbn. eauto.
Qed.

Lemma build_features_is_Some cfg ei ex q t2o all tp doc_spans todo : forall uid,
  Config.is_training cfg = false ->
  (forall tokens,
     List.length (convert_tokens_to_ids tokens) = List.length tokens) ->
  List.length t2o = List.length all ->
  Forall (fun kd => span_ok (Zlen all)
                      (max_tokens_for_doc (Config.max_seq_length cfg) q) kd.2) todo ->
  is_Some (build_features' cfg uid ei ex q t2o all tp doc_spans todo).
Proof.
  intros uid Htrain Hconv Hlen Hok. revert uid.
  induction Hok as [|[k ds] rest Hds _ IH]; intros uid; cbn; [eauto|].
  destruct (build_feature_is_Some cfg uid ei ex q t2o all tp doc_spans k ds
              Htrain Hconv Hlen Hds) as [f ->].
  cbn. destruct (IH (uid + 1)) as [fs ->]. cbn. eauto.
Qed.

Lemma convert_example_is_Some fuel cfg uid ei ex :
  Config.is_training cfg = false ->
  0 < Config.doc_stride cfg ->
  (forall tokens,
     List.length (convert_tokens_to_ids tokens) = List.length tokens) ->
  Zlen (query_tokens_of' cfg ex) + 3 < Config.max_seq_length cfg ->
  (List.length (concat (map tokenize (Example.doc_tokens ex))) < fuel)%nat ->
  is_Some (convert_example' fuel cfg uid ei ex).
Proof.
  intros Htrain Hstride Hconv Hq Hfuel. unfold convert_example.
  fold (query_tokens_of' cfg ex). set (q := query_tokens_of' cfg ex) in *.
  rewrite tokenize_doc_closed_form. cbn [app].
  set (all := concat (map tokenize (Example.doc_tokens ex))) in *.
  unfold tok_positions. rewrite Htrain. cbn [andb mbind option_bind].
  assert (Hb : 0 < max_tokens_for_doc (Config.max_seq_length cfg) q).
  { unfold max_tokens_for_doc, Zlen in *. lia. }
  assert (Hspans : exists spans,
            make_doc_spans fuel all q (Config.max_seq_length cfg) (Config.doc_stride cfg)
            = Some spans).
  { unfold make_doc_spans. destruct (Nat.eq_dec (List.length all) 0%nat) as [Hz|Hnz].
    - destruct fuel as [|fuel]; [lia|]. rewrite Hz. cbn. eauto.
    - destruct (doc_spans_loop_from (Z.of_nat (List.length all))
                  (max_tokens_for_doc (Config.max_seq_length cfg) q)
                  (Config.doc_stride cfg) Hb Hstride fuel 0 [])
        as (tail & lst & Hrun & _); [lia|lia|].
      rewrite Hrun. eauto. }
  destruct Hspans as [spans Hspans]. rewrite Hspans. cbn [mbind option_bind].
  apply build_features_is_Some; [exact Htrain|exact Hconv| |].
  - apply word_indexes_length.
  - apply Forall_forall. intros [k ds] Hin. cbn.
    apply elem_of_enumerate in Hin.
    exact (make_doc_spans_span_ok _ _ _ _ _ _ _ _ Hspans Hin).
Qed.

Lemma convert_examples_loop_is_Some cfg todo :
  Config.is_training cfg = false ->
  0 < Config.doc_stride cfg ->
  (forall tokens,
     List.length (convert_tokens_to_ids tokens) = List.length tokens) ->
  (forall ei ex, (ei, ex) ∈ todo ->
     Zlen (query_tokens_of' cfg ex) + 3 < Config.max_seq_length cfg) ->
  exists fuel0, forall fuel uid acc, (fuel0 <= fuel)%nat ->
    is_Some (convert_examples_loop' fuel cfg uid todo acc).
Proof.
  intros Htrain Hstride Hconv.
  induction todo as [|[ei ex] rest IH]; intros Hq.
  - exists 0%nat. intros fuel uid acc _. cbn. eauto.
  - destruct IH as [fuel_rest IH].
    { intros ei' ex' Hin. apply (Hq ei'). right. exact Hin. }
    exists (Nat.max fuel_rest
              (S (List.length (concat (map tokenize (Example.doc_tokens ex)))))).
    intros fuel uid acc Hfuel. cbn [convert_examples_loop].
    destruct (convert_example_is_Some fuel cfg uid ei ex Htrain Hstride Hconv)
      as [new ->]; [apply (Hq ei); left|lia|].
    cbn. apply IH. lia.
Qed.

(** X19: in evaluation mode the builder does not fail.  When
    [is_training] is off, [doc_stride] is positive, the tokenizer gives one
    id per token, and the question of every example leaves room for at
    least one document token ([len(query_tokens) + 3 < max_seq_length]),
    the chunking loop of every example ends, no index is out of range and
    no assertion fails: the builder returns a list of features. *)
Theorem convert_evaluation_total cfg examples :
  Config.is_training cfg = false ->
  0 < Config.doc_stride cfg ->
  (forall tokens,
     List.length (convert_tokens_to_ids tokens) = List.length tokens) ->
  (forall example, example ∈ examples ->
     Zlen (query_tokens_of' cfg example) + 3 < Config.max_seq_length cfg) ->
  exists fuel0, forall fuel, (fuel0 <= fuel)%nat ->
    is_Some (convert' fuel cfg examples).
Proof.
  intros Htrain Hstride Hconv Hq.
  destruct (convert_examples_loop_is_Some cfg (enumerate examples) Htrain Hstride Hconv)
    as [fuel0 Hloop].
  { intros ei ex Hin. apply Hq. apply elem_of_enumerate in Hin.
    eapply list_elem_of_lookup_2. exact Hin. }
  exists fuel0. intros fuel Hfuel. apply Hloop. exact Hfuel.
Qed.

End EvaluationMode.

Lemma convert_evaluation_total_witness :
  exists fuel0, forall fuel, (fuel0 <= fuel)%nat ->
    is_Some (_convert_examples_to_features inject_Z Qplus Qmult (1 # 100)%Q Qgtb
               split toy_ids fuel toy_config_doc_first [toy_example]).
Proof.
  apply (convert_evaluation_total inject_Z Qplus Qmult (1 # 100)%Q Qgtb split toy_ids
           toy_config_doc_first [toy_example]).
  - reflexivity.
  - reflexivity.
  - intros tokens. unfold toy_ids. apply length_map.
  - intros example Hin. apply list_elem_of_singleton in Hin as ->.
    vm_compute. reflexivity.
Defined.

(** ** Answer span improvement *)

Lemma find_first {A : Type} (p : A -> bool) (l : list A) (x : A) :
  List.find p l = Some x ->
  exists i, l !! i = Some x /\ p x = true /\
    forall j y, (j < i)%nat -> l !! j = Some y -> p y = false.
Proof.
  induction l as [|z l IH]; [discriminate|]. cbn [List.find].
  destruct (p z) eqn:Hz.
  - intros [= <-]. exists 0%nat. split; [reflexivity|]. split; [exact Hz|]. lia.
  - intros H. destruct (IH H) as (i & Hi & Hp & Hfirst).
    exists (S i). split; [exact Hi|]. split; [exact Hp|].
    intros [|j] y Hj Hy; cbn in Hy; [congruence|]. eapply Hfirst; [|exact Hy]. lia.
Qed.

Lemma find_none_elem {A : Type} (p : A -> bool) (l : list A) :
  List.find p l = None <-> forall x, x ∈ l -> p x = false.
Proof.
  induction l as [|z l IH]; cbn [List.find].
  - split; [intros _ x Hx; apply elem_of_nil in Hx; contradiction|reflexivity].
  - destruct (p z) eqn:Hz.
    + split; [discriminate|]. intros H. rewrite H in Hz by left. discriminate.
    + rewrite IH. split.
      * intros H x Hx. apply elem_of_cons in Hx as [->|Hx]; [exact Hz|exact (H x Hx)].
      * intros H x Hx. apply H. right. exact Hx.
Qed.

Lemma find_app_first {A : Type} (p : A -> bool) (l1 l2 : list A) :
  List.find p (l1 ++ l2)
  = match List.find p l1 with
    | Some x => Some x
    | None => List.find p l2
    end.
Proof.
  induction l1 as [|z l1 IH]; [reflexivity|]. cbn [app List.find].
  destruct (p z); [reflexivity|exact IH].
Qed.

Lemma find_flat_map {A B : Type} (p : B -> bool) (f : A -> list B) (l : list A) :
  List.find p (flat_map f l)
  = match List.find (fun a => match List.find p (f a) with
                              | Some _ => true
                              | None => false
                              end) l with
    | Some a => List.find p (f a)
    | None => None
    end.
Proof.
  induction l as [|a l IH]; [reflexivity|]. cbn [flat_map List.find].
  rewrite find_app_first, IH.
  destruct (List.find p (f a)) as [x|] eqn:Hfa; [symmetry; exact Hfa|reflexivity].
Qed.

Lemma elem_of_range a b x : x ∈ range a b <-> a <= x < b.
Proof.
  unfold range. rewrite list_elem_of_fmap. split.
  - intros (i & -> & Hi). apply elem_of_seq in Hi. lia.
  - intros Hx. exists (Z.to_nat (x - a)). split; [lia|]. apply elem_of_seq. lia.
Qed.

Lemma range_down_lookup a b i :
  (i < Z.to_nat (a - b))%nat -> range_down a b !! i = Some (a - Z.of_nat i).
Proof.
  intros Hi. unfold range_down. rewrite list_lookup_fmap, lookup_seq_lt by exact Hi.
  reflexivity.
Qed.

Lemma range_down_lookup_inv a b i x :
  range_down a b !! i = Some x -> x = a - Z.of_nat i /\ (i < Z.to_nat (a - b))%nat.
Proof.
  intros H. assert (Hi : (i < Z.to_nat (a - b))%nat).
  { apply lookup_lt_Some in H. unfold range_down in H.
    rewrite length_map, length_seq in H. exact H. }
  rewrite range_down_lookup in H by exact Hi. split; [congruence|exact Hi].
Qed.

Lemma range_lookup_inv a b i x :
  range a b !! i = Some x -> x = a + Z.of_nat i /\ (i < Z.to_nat (b - a))%nat.
Proof.
  intros H. assert (Hi : (i < Z.to_nat (b - a))%nat).
  { apply lookup_lt_Some in H. rewrite range_length in H. exact H. }
  rewrite range_lookup in H by exact Hi. split; [congruence|exact Hi].
Qed.

Section ImproveAnswerSpan.
Variable tokenize : string -> list string.

(** X20: the improved answer span.  With [matches a b] for "the sub-tokens
    from [a] to [b], joined by spaces, are the sub-tokenized answer text":
    either no span inside the input span matches and the input span is
    returned, or the result is a matching span inside the input span, and
    every matching span inside the input span starts later, or starts
    at the same place and is not longer. *)
Theorem improve_answer_span_leftmost_longest (doc_tokens : list string)
    (input_start input_end : Z) (orig_answer_text : string) :
  let matches a b :=
    join " " (py_slice doc_tokens a (b + 1)) = join " " (tokenize orig_answer_text) in
  let '(new_start, new_end) :=
    _improve_answer_span tokenize doc_tokens input_start input_end orig_answer_text in
  ((new_start, new_end) = (input_start, input_end) /\
   forall a b, input_start <= a <= b /\ b <= input_end -> ~ matches a b) \/
  (input_start <= new_start <= new_end /\ new_end <= input_end /\
   matches new_start new_end /\
   forall a b, input_start <= a <= b /\ b <= input_end -> matches a b ->
     new_start < a \/ (new_start = a /\ b <= new_end)).
Proof.
  intros matches. unfold _improve_answer_span.
  set (p := fun '(new_start, new_end) =>
              String.eqb (join " " (py_slice doc_tokens new_start (new_end + 1)))
                (join " " (tokenize orig_answer_text))).
  assert (Hp : forall a b, p (a, b) = true <-> matches a b).
  { intros a b. unfold p, matches. apply String.eqb_eq. }
  set (inner := fun new_start : Z =>
                  map (fun new_end => (new_start, new_end))
                    (range_down input_end (new_start - 1))).
  rewrite (find_flat_map p inner).
  destruct (List.find _ (range input_start (input_end + 1))) as [s|] eqn:Houter.
  - apply find_first in Houter as (i & Hi & Hfound & Hbefore).
    destruct (List.find p (inner s)) as [[s' e]|] eqn:Hinner; [|discriminate].
    clear Hfound. apply find_first in Hinner as (k & Hk & Hmatch & Hlonger).
    unfold inner in Hk. rewrite list_lookup_fmap in Hk.
    destruct (range_down input_end (s - 1) !! k) as [e'|] eqn:Hke; [|discriminate].
    cbn in Hk. injection Hk as <- <-.
    apply range_lookup_inv in Hi as [Hs Hilt].
    apply range_down_lookup_inv in Hke as [He Hklt].
    right. split; [lia|]. split; [lia|]. split; [apply Hp; exact Hmatch|].
    intros a b Hab Hm. apply Hp in Hm.
    destruct (Z.lt_trichotomy a s) as [Hlt|[Heq|Hgt]]; [exfalso| |left; exact Hgt].
    + specialize (Hbefore (Z.to_nat (a - input_start)) a ltac:(lia)).
      rewrite range_lookup in Hbefore by lia.
      specialize (Hbefore ltac:(f_equal; lia)).
      destruct (List.find p (inner a)) eqn:Hfa; [discriminate|].
      rewrite find_none_elem in Hfa. rewrite Hfa in Hm; [discriminate|].
      unfold inner. apply list_elem_of_fmap. exists b. split; [reflexivity|].
      apply (list_elem_of_lookup_2 _ (Z.to_nat (input_end - b))).
      rewrite range_down_lookup by lia. f_equal. lia.
    + subst a. right. split; [reflexivity|].
      destruct (Z_le_gt_dec b e') as [Hle|Hgt]; [exact Hle|exfalso].
      specialize (Hlonger (Z.to_nat (input_end - b)) (s, b) ltac:(lia)).
      unfold inner in Hlonger. rewrite list_lookup_fmap, range_down_lookup in Hlonger by lia.
      cbn [fmap list_fmap option_fmap option_map] in Hlonger.
      specialize (Hlonger ltac:(do 2 f_equal; lia)).
      change (p (s, b) = false) in Hlonger. congruence.
  - left. split; [reflexivity|]. intros a b Hab Hm. apply Hp in Hm.
    rewrite find_none_elem in Houter.
    specialize (Houter a ltac:(apply elem_of_range; lia)).
    destruct (List.find p (inner a)) eqn:Hfa; [discriminate|].
    rewrite find_none_elem in Hfa. rewrite Hfa in Hm; [discriminate|].
    unfold inner. apply list_elem_of_fmap. exists b. split; [reflexivity|].
    apply (list_elem_of_lookup_2 _ (Z.to_nat (input_end - b))).
    rewrite range_down_lookup by lia. f_equal. lia.
Qed.

End ImproveAnswerSpan.

Lemma improve_answer_span_leftmost_longest_witness :
  let matches a b :=
    join " " (py_slice ["("; "1895"; "-"; "1943"; ")"]%string a (b + 1))
    = join " " (split "1895") in
  let '(new_start, new_end) :=
    _improve_answer_span split ["("; "1895"; "-"; "1943"; ")"]%string 0 4 "1895" in
  ((new_start, new_end) = (0, 4) /\
   forall a b, 0 <= a <= b /\ b <= 4 -> ~ matches a b) \/
  (0 <= new_start <= new_end /\ new_end <= 4 /\
   matches new_start new_end /\
   forall a b, 0 <= a <= b /\ b <= 4 -> matches a b ->
     new_start < a \/ (new_start = a /\ b <= new_end)).
Proof.
  exact (improve_answer_span_leftmost_longest split
           ["("; "1895"; "-"; "1943"; ")"]%string 0 4 "1895").
Defined.

Example improve_answer_span_1895 :
  _improve_answer_span split ["("; "1895"; "-"; "1943"; ")"]%string 0 4 "1895" = (1, 1).
Proof. vm_compute. reflexivity. Qed.

(** ** Text re-aligner: [_strip_spaces] and the result of [get_final_text] *)

Lemma strip_spaces_loop_closed_form text : forall i ns_chars ns_to_s_map,
  let r := strip_spaces_loop i text ns_chars ns_to_s_map in
  r.1 = ns_chars ++ non_space_chars text /\
  (forall k : nat,
     r.2 !! Z.of_nat (List.length ns_chars + k)
     = match non_space_positions i text !! k with
       | Some j => Some j
       | None => ns_to_s_map !! Z.of_nat (List.length ns_chars + k)
       end) /\
  (forall z, z < Z.of_nat (List.length ns_chars) -> r.2 !! z = ns_to_s_map !! z).
Proof.
  induction text as [|c rest IH]; intros i ns_chars ns_to_s_map; cbn zeta.
  - cbn. rewrite app_nil_r. split; [reflexivity|]. split; reflexivity.
  - cbn [strip_spaces_loop non_space_chars non_space_positions].
    destruct (Ascii.eqb c " "); [apply IH|].
    destruct (IH (i + 1) (ns_chars ++ [c])
                (<[Z.of_nat (List.length ns_chars) := i]> ns_to_s_map)) as (H1 & H2 & H3).
    cbn zeta in H1, H2, H3. rewrite length_app in H2, H3. cbn [List.length] in H2, H3.
    split; [rewrite H1, <- app_assoc; reflexivity|]. split.
    + intros [|k].
      * rewrite Nat.add_0_r. cbn [lookup list_lookup].
        rewrite H3 by lia. apply lookup_insert_eq.
      * replace (List.length ns_chars + S k)%nat with (List.length ns_chars + 1 + k)%nat
          by lia.
        rewrite H2. cbn [lookup list_lookup].
        destruct (non_space_positions (i + 1) rest !! k); [reflexivity|].
        apply lookup_insert_ne. lia.
    + intros z Hz. rewrite H3 by lia. apply lookup_insert_ne. lia.
Qed.

Lemma get_string_of_list_ascii (l : list ascii) : forall k,
  String.get k (string_of_list_ascii l) = l !! k.
Proof.
  induction l as [|c l IH]; intros k; [reflexivity|].
  destruct k as [|k]; [reflexivity|]. cbn. apply IH.
Qed.

Lemma length_string_of_list_ascii (l : list ascii) :
  String.length (string_of_list_ascii l) = List.length l.
Proof. induction l as [|c l IH]; [reflexivity|]. cbn. rewrite IH. reflexivity. Qed.

Lemma non_space_positions_length text : forall i,
  List.length (non_space_positions i text) = List.length (non_space_chars text).
Proof.
  induction text as [|c rest IH]; intros i; [reflexivity|]. cbn.
  destruct (Ascii.eqb c " "); cbn; rewrite IH; reflexivity.
Qed.

(** Entry [k] of the positions is the place of character [k] of the
    stripped text, and the positions increase. *)
Lemma non_space_positions_lookup text : forall i k j,
  non_space_positions i text !! k = Some j ->
  i + Z.of_nat k <= j < i + Z.of_nat (String.length text) /\
  String.get (Z.to_nat (j - i)) text = non_space_chars text !! k /\
  (exists c, non_space_chars text !! k = Some c /\ c <> " "%char) /\
  forall k' j', (k < k')%nat -> non_space_positions i text !! k' = Some j' -> j < j'.
Proof.
  induction text as [|c rest IH]; intros i k j Hk; [discriminate|].
  cbn [non_space_positions non_space_chars String.length] in *.
  destruct (Ascii.eqb_spec c " ") as [->|Hc].
  - destruct (IH _ _ _ Hk) as (H1 & H2 & H3 & H4).
    split; [lia|]. split; [|split; [exact H3|exact H4]].
    replace (Z.to_nat (j - i)) with (S (Z.to_nat (j - (i + 1)))) by lia. exact H2.
  - destruct k as [|k]; cbn [lookup list_lookup] in *.
    + injection Hk as <-. split; [lia|]. rewrite Z.sub_diag.
      split; [reflexivity|]. split; [exists c; split; [reflexivity|exact Hc]|].
      intros [|k'] j' Hlt Hk'; [lia|]. cbn in Hk'.
      destruct (IH _ _ _ Hk') as (H1 & _). lia.
    + destruct (IH _ _ _ Hk) as (H1 & H2 & H3 & H4).
      split; [lia|]. split; [|split; [exact H3|]].
      * replace (Z.to_nat (j - i)) with (S (Z.to_nat (j - (i + 1)))) by lia. exact H2.
      * intros [|k'] j' Hlt Hk'; [lia|]. cbn in Hk'. eapply H4; [|exact Hk']. lia.
Qed.

(** X21: [_strip_spaces] and its position map.  The stripped text is the
    text without its spaces; the map is defined exactly on the positions of
    the stripped text; it sends every position to a position of the text
    that holds the same character, which is not a space; and it is
    increasing. *)
Theorem strip_spaces_round_trip (text : string) :
  let '(ns_text, ns_to_s_map) := _strip_spaces text in
  ns_text = string_of_list_ascii (non_space_chars text) /\
  (forall i, is_Some (ns_to_s_map !! i) <->
     0 <= i < Z.of_nat (String.length ns_text)) /\
  (forall i j, ns_to_s_map !! i = Some j ->
     0 <= j < Z.of_nat (String.length text) /\
     exists c, String.get (Z.to_nat j) text = Some c /\
               String.get (Z.to_nat i) ns_text = Some c /\ c <> " "%char) /\
  (forall i i' j j', ns_to_s_map !! i = Some j -> ns_to_s_map !! i' = Some j' ->
     i < i' -> j < j').
Proof.
  unfold _strip_spaces.
  destruct (strip_spaces_loop_closed_form text 0 [] ∅) as (H1 & H2 & H3).
  cbn zeta in H1, H2, H3. cbn [app List.length] in H1, H2, H3.
  destruct (strip_spaces_loop 0 text [] ∅) as [ns_chars m]. cbn [fst snd] in *.
  subst ns_chars. rewrite length_string_of_list_ascii.
  assert (Hm : forall i, m !! i
                = if 0 <=? i then non_space_positions 0 text !! Z.to_nat i else None).
  { intros i. destruct (Z.leb_spec 0 i) as [Hi|Hi].
    - specialize (H2 (Z.to_nat i)). cbn [Nat.add] in H2. rewrite Z2Nat.id in H2 by exact Hi.
      rewrite H2. destruct (non_space_positions 0 text !! Z.to_nat i); reflexivity.
    - rewrite H3 by exact Hi. reflexivity. }
  split; [reflexivity|]. split; [|split].
  - intros i. rewrite Hm. destruct (Z.leb_spec 0 i) as [Hi|Hi].
    + rewrite lookup_lt_is_Some, non_space_positions_length. lia.
    + split; [intros [x Hx]; discriminate|lia].
  - intros i j Hij. rewrite Hm in Hij. destruct (Z.leb_spec 0 i) as [Hi|Hi]; [|discriminate].
    destruct (non_space_positions_lookup _ _ _ _ Hij) as (Hj & Hget & (c & Hc & Hns) & _).
    split; [lia|]. exists c. rewrite Z.sub_0_r in Hget.
    rewrite Hget, get_string_of_list_ascii. repeat split; assumption.
  - intros i i' j j' Hij Hij' Hlt. rewrite Hm in Hij, Hij'.
    destruct (Z.leb_spec 0 i) as [Hi|Hi]; [|discriminate].
    destruct (Z.leb_spec 0 i') as [Hi'|Hi']; [|discriminate].
    destruct (non_space_positions_lookup _ _ _ _ Hij) as (_ & _ & _ & Hinc).
    eapply Hinc; [|exact Hij']. lia.
Qed.

Lemma strip_spaces_round_trip_witness :
  let '(ns_text, ns_to_s_map) := _strip_spaces "a b  c" in
  ns_text = "abc"%string /\
  (forall i, is_Some (ns_to_s_map !! i) <-> 0 <= i < 3) /\
  (forall i j, ns_to_s_map !! i = Some j ->
     0 <= j < 6 /\
     exists c, String.get (Z.to_nat j) "a b  c" = Some c /\
               String.get (Z.to_nat i) ns_text = Some c /\ c <> " "%char) /\
  (forall i i' j j', ns_to_s_map !! i = Some j -> ns_to_s_map !! i' = Some j' ->
     i < i' -> j < j').
Proof. exact (strip_spaces_round_trip "a b  c"). Defined.

Lemma substring_prefix (m : nat) : forall text,
  exists after, text = (String.substring 0 m text +:+ after)%string.
Proof.
  induction m as [|m IH]; intros text.
  - exists text. destruct text; reflexivity.
  - destruct text as [|c text]; [exists ""%string; reflexivity|].
    destruct (IH text) as [after Hafter]. exists after.
    cbn [String.substring]. rewrite append_cons, <- Hafter. reflexivity.
Qed.

Lemma substring_occurs (n m : nat) : forall text,
  occurs_in (String.substring n m text) text.
Proof.
  induction n as [|n IH]; intros text.
  - destruct (substring_prefix m text) as [after Hafter].
    exists ""%string, after. rewrite append_empty. exact Hafter.
  - destruct text as [|c text].
    + exists ""%string, ""%string. reflexivity.
    + destruct (IH text) as (before & after & H).
      exists (String c before), after. cbn [String.substring].
      rewrite append_cons, <- H. reflexivity.
Qed.

Section RealignResult.
Variable basic_tokenize : bool -> string -> list string.

(** X22: the re-aligned text is cut out of the original text.  Whatever
    the prediction and the tokenizer, [get_final_text] returns
    [orig_text] itself or a contiguous part of it; it never returns a text
    that does not occur in [orig_text]. *)
Theorem get_final_text_occurs (pred_text orig_text : string) (do_lower_case : bool) :
  occurs_in (get_final_text basic_tokenize pred_text orig_text do_lower_case) orig_text.
Proof.
  assert (Hself : occurs_in orig_text orig_text).
  { exists ""%string, ""%string. rewrite append_empty.
    clear. induction orig_text as [|c s IH]; [reflexivity|].
    rewrite append_cons, <- IH. reflexivity. }
  unfold get_final_text.
  destruct (_ =? -1); [exact Hself|].
  destruct (_strip_spaces orig_text) as [orig_ns_text orig_ns_to_s_map].
  destruct (_strip_spaces _) as [tok_ns_text tok_ns_to_s_map].
  destruct (negb _); [exact Hself|].
  destruct (invert_map tok_ns_to_s_map !! _) as [ns_start|]; [|exact Hself].
  destruct (orig_ns_to_s_map !! ns_start) as [orig_start|]; [|exact Hself].
  destruct (invert_map tok_ns_to_s_map !! _) as [ns_end|]; [|exact Hself].
  destruct (orig_ns_to_s_map !! ns_end) as [orig_end|]; [|exact Hself].
  unfold str_slice. apply substring_occurs.
Qed.

End RealignResult.
